(** * thcrap breakpoint engine: a shallow embedding and its properties

    The development follows the breakpoint code of the main DLL
    ([breakpoint_process], [breakpoint_from_json], [cave_fix],
    [breakpoint_local_init], [breakpoints_apply]).  It targets x86-32:
    [size_t] and pointers are 32-bit words, modelled as [Z] with the
    wrap-around written out. *)

From Stdlib Require Import ZArith List String Ascii Bool Lia.
Import ListNotations.
Local Open Scope string_scope.
Local Open Scope list_scope.
Local Open Scope Z_scope.

(** ** Machine words *)

Definition wrap (x : Z) : Z := x mod 2 ^ 32.

(* sizeof(void* ) on the target *)
Definition ptr_size : Z := 4.

(* #define CALL_LEN (sizeof(void* ) + 1) *)
Definition CALL_LEN : Z := ptr_size + 1.
Definition x86_CALL_NEAR_REL32 : Z := 0xE8.
Definition x86_JMP_NEAR_REL32 : Z := 0xE9.
Definition x86_NOP : Z := 0x90.
Definition x86_INT3 : Z := 0xCC.

(* conversion of a size_t to int, the return type of breakpoints_apply *)
Definition to_int (x : Z) : Z := if x <? 2 ^ 31 then x else x - 2 ^ 32.

(** ** Flat process memory

    One byte per address; addresses are taken modulo 2^32. *)

Definition memory : Type := Z -> Z.

Definition load8 (m : memory) (a : Z) : Z := m (wrap a) mod 256.

Definition store8 (m : memory) (a v : Z) : memory :=
  fun x => if x =? wrap a then v mod 256 else m x.

(* little-endian 32-bit access, as *(size_t* )p does on x86 *)
Definition load32 (m : memory) (a : Z) : Z :=
  load8 m a + 2 ^ 8 * load8 m (a + 1)
  + 2 ^ 16 * load8 m (a + 2) + 2 ^ 24 * load8 m (a + 3).

Definition le32 (v : Z) : list Z :=
  [v mod 256; (v / 2 ^ 8) mod 256; (v / 2 ^ 16) mod 256; (v / 2 ^ 24) mod 256].

Fixpoint load_bytes (m : memory) (a : Z) (n : nat) : list Z :=
  match n with
  | O => []
  | S k => load8 m a :: load_bytes m (a + 1) k
  end.

Fixpoint store_bytes (m : memory) (a : Z) (bs : list Z) : memory :=
  match bs with
  | [] => m
  | b :: rest => store_bytes (store8 m a b) (a + 1) rest
  end.

Definition store32 (m : memory) (a v : Z) : memory := store_bytes m a (le32 v).

(* memmove reads the whole source before it writes *)
Definition memmove (m : memory) (dst src n : Z) : memory :=
  store_bytes m dst (load_bytes m src (Z.to_nat n)).

(** ** JSON values (jansson's data model) *)

#[local] Unset Elimination Schemes.

Inductive json_t : Type :=
| JSON_OBJECT (members : list (string * json_t))
| JSON_ARRAY (items : list json_t)
| JSON_STRING (s : string)
| JSON_INTEGER (z : Z)
| JSON_REAL (bits : Z)
| JSON_TRUE
| JSON_FALSE
| JSON_NULL.

#[local] Set Elimination Schemes.

(* json_is_object on a possibly null json_t* *)
Definition json_is_object (j : option json_t) : bool :=
  match j with
  | Some (JSON_OBJECT _) => true
  | _ => false
  end.

(** ** Breakpoint descriptions *)

(* A handler receives the register snapshot by reference and the
   description's JSON object; it returns an int and may write anywhere. *)
Definition BreakpointFunc_t : Type := memory -> Z -> json_t -> Z * memory.

Inductive hackpoint_addr_type : Type := RAW_ADDR | INVALID_ADDR.

(** Modelled from the spec: [hackpoint_addr_t] and [eval_hackpoint_addr]
    are not in the sources.  A candidate address is an entry of an ordered
    sequence; "unresolved/invalid entries are tagged and skipped, never
    removed", and the resolver "may yield a null/zero entry".  An entry is
    its tag and the address the external resolver produced; the end of the
    list plays the role of the terminating entry on which
    [eval_hackpoint_addr] returns false. *)
Record hackpoint_addr_t : Type := mk_addr {
  addr_type : hackpoint_addr_type;
  addr_raw : Z
}.

Definition eval_hackpoint_addr (a : hackpoint_addr_t) : Z :=
  match addr_type a with
  | RAW_ADDR => wrap (addr_raw a)
  | INVALID_ADDR => 0
  end.

Record breakpoint_local_t : Type := mk_bp {
  bp_name : string;
  bp_cavesize : Z;
  bp_json_obj : json_t;
  bp_func : option BreakpointFunc_t;
  bp_addr : list hackpoint_addr_t
}.

(** ** Relocation fix-up *)

Definition cave_fix (m : memory) (cave bp_addr : Z) : memory :=
  if (load8 m cave =? x86_CALL_NEAR_REL32) || (load8 m cave =? x86_JMP_NEAR_REL32)
  then
    let dist_old := load32 m (cave + 1) in
    let dist_new := wrap (dist_old + bp_addr - cave) in
    store32 m (cave + 1) dist_new
  else m.

(** ** Runtime dispatcher *)

Section Dispatcher.

(* x86_reg_t is declared outside the sources: its size and the offsets
   of the two fields the dispatcher touches are parameters. *)
Variable sizeof_x86_reg_t : Z.
Variable off_esp : Z.
Variable off_retaddr : Z.

(* A call through a null [func] has no result. *)
Definition breakpoint_process (bp : breakpoint_local_t) (cave_addr regs : Z)
    (m : memory) : option (Z * memory) :=
  let esp_prev := load32 m (regs + off_esp) in
  match bp_func bp with
  | None => None
  | Some f =>
      let '(cave_exec, m1) := f m regs (bp_json_obj bp) in
      let m2 := if cave_exec =? 0 then m1
                else store32 m1 (regs + off_retaddr) cave_addr in
      let esp := load32 m2 (regs + off_esp) in
      if esp_prev =? esp then Some (0, m2)
      else
        let esp_diff := wrap (esp - esp_prev) in
        Some (esp_diff, memmove m2 (regs + esp_diff) regs sizeof_x86_reg_t)
  end.

(* the memory at the comparison of the stack pointers: after the
   handler and the conditional store to retaddr *)
Definition after_handler (cave_exec : Z) (m1 : memory) (cave_addr regs : Z)
    : memory :=
  if cave_exec =? 0 then m1 else store32 m1 (regs + off_retaddr) cave_addr.

End Dispatcher.

(** ** Breakpoint registry model *)

Inductive jeval_flags : Type := JEVAL_DEFAULT | JEVAL_STRICT.

(* The switch of [breakpoint_from_json] names two codes; every other code
   takes its default branch. *)
Inductive jeval_error_t : Type :=
| JEVAL_SUCCESS
| JEVAL_NULL_PTR
| JEVAL_OTHER (code : Z).

(* jansson's json_object_get: null unless [obj] is an object with [key] *)
Fixpoint members_get (members : list (string * json_t)) (key : string)
    : option json_t :=
  match members with
  | [] => None
  | (k, v) :: rest => if String.eqb k key then Some v else members_get rest key
  end.

Definition json_object_get (obj : option json_t) (key : string) : option json_t :=
  match obj with
  | Some (JSON_OBJECT members) => members_get members key
  | _ => None
  end.

Section Registry.

(* The expression evaluator and the address parser are external. *)
Variable json_object_get_eval_bool_default :
  option json_t -> string -> bool -> jeval_flags -> bool.
(* the second component is what the callee stores through its out
   pointer; the caller reads it after JEVAL_SUCCESS only *)
Variable json_object_get_eval_int :
  option json_t -> string -> jeval_flags -> jeval_error_t * Z.
Variable hackpoint_addrs_from_json :
  option json_t -> option (list hackpoint_addr_t).

(* Returns the bool and the contents of [*out] afterwards. *)
Definition breakpoint_from_json (name : string) (in_ : option json_t)
    (out : breakpoint_local_t) : bool * breakpoint_local_t :=
  if negb (json_is_object in_) then (false, out)
  else if json_object_get_eval_bool_default in_ "ignore" false JEVAL_DEFAULT
  then (false, out)
  else
    match json_object_get_eval_int in_ "cavesize" JEVAL_STRICT with
    | (JEVAL_NULL_PTR, _) => (false, out)
    | (JEVAL_SUCCESS, v) =>
        let cavesize := wrap v in
        if cavesize <? CALL_LEN then (false, out)
        else
          match hackpoint_addrs_from_json (json_object_get in_ "addr"), in_ with
          | Some addrs, Some obj =>
              (true, {| bp_name := name; bp_cavesize := cavesize;
                        bp_json_obj := obj; bp_func := None;
                        bp_addr := addrs |})
          | _, _ => (false, out)
          end
    | (JEVAL_OTHER _, _) => (false, out)
    end.

End Registry.

(** ** Setup: effects of [breakpoints_apply]

    Setup runs against the process memory and three external primitives
    (VirtualAlloc, PatchRegion, VirtualProtect), whose calls are recorded.
    A run either completes, or faults (a null pointer handed to a store or
    to memset/memcpy, a write outside a heap or stack buffer), or exhausts
    the iteration bound of the stub-fill loop. *)

Inductive event : Type :=
| EvAlloc (base size : Z)
| EvPatch (addr : Z) (bytes : list Z)
| EvProtect (base size : Z).

Record world : Type := mk_world {
  w_mem : memory;
  w_events : list event
}.

Inductive outcome (A : Type) : Type :=
| Done (a : A) (w : world)
| Fault (w : world)
| OutOfFuel (w : world).

Arguments Done {A} a w.
Arguments Fault {A} w.
Arguments OutOfFuel {A} w.

Definition M (A : Type) : Type := world -> outcome A.

Definition ret {A : Type} (a : A) : M A := fun w => Done a w.

Definition bind {A B : Type} (c : M A) (k : A -> M B) : M B :=
  fun w =>
    match c w with
    | Done a w' => k a w'
    | Fault w' => Fault w'
    | OutOfFuel w' => OutOfFuel w'
    end.

Definition fault {A : Type} : M A := fun w => Fault w.

Declare Scope m_scope.
Delimit Scope m_scope with M.
Notation "x <- c ;; k" := (bind c (fun x => k))
  (at level 61, c at next level, right associativity) : m_scope.
Notation "' pat <- c ;; k" :=
  (bind c (fun x => match x with pat => k end))
  (at level 61, pat pattern, c at next level, right associativity) : m_scope.
Notation "c ;; k" := (bind c (fun _ => k))
  (at level 61, right associativity) : m_scope.
Local Open Scope m_scope.

Definition lift {A : Type} (o : option A) : M A :=
  match o with
  | Some a => ret a
  | None => fault
  end.

Definition is_null (p : Z) : bool := wrap p =? 0.

Definition modify_mem (f : memory -> memory) : M unit :=
  fun w => Done tt (mk_world (f (w_mem w)) (w_events w)).

(* a store of [bs] through pointer [p] at byte offset [off] *)
Definition mem_store (p off : Z) (bs : list Z) : M unit :=
  fun w => if is_null p then Fault w
           else modify_mem (fun m => store_bytes m (p + off) bs) w.

Definition memset (p c n : Z) : M unit :=
  mem_store p 0 (repeat c (Z.to_nat n)).

Definition memcpy (dst src n : Z) : M unit :=
  fun w => if is_null src then Fault w
           else mem_store dst 0 (load_bytes (w_mem w) src (Z.to_nat n)) w.

(** Modelled from the spec: PatchRegion is not in the sources.  "Patch
    sink: overwrite K bytes at a given address with caller-provided bytes";
    its result is not looked at by [breakpoints_apply]. *)
Definition PatchRegion (addr : Z) (bytes : list Z) : M unit :=
  fun w => Done tt (mk_world (store_bytes (w_mem w) addr bytes)
                             (w_events w ++ [EvPatch addr bytes])).

Definition VirtualProtect (base size : Z) : M unit :=
  fun w => Done tt (mk_world (w_mem w) (w_events w ++ [EvProtect base size])).

(** *** Heap and stack buffers: bounds-checked lists *)

Definition buf_write (buf : list Z) (off : Z) (bs : list Z) : option (list Z) :=
  if (0 <=? off) && (off + Z.of_nat (List.length bs) <=? Z.of_nat (List.length buf))
  then Some (firstn (Z.to_nat off) buf ++ bs
             ++ skipn (Z.to_nat off + List.length bs) buf)
  else None.

Definition buf_memset (buf : list Z) (off c n : Z) : option (list Z) :=
  if (0 <=? off) && (off + n <=? Z.of_nat (List.length buf))
  then buf_write buf off (repeat c (Z.to_nat n))
  else None.

Definition buf_read (buf : list Z) (n : Z) : option (list Z) :=
  if n <=? Z.of_nat (List.length buf) then Some (firstn (Z.to_nat n) buf) else None.

(** Modelled from the spec: the macro AlignUpToMultipleOf2 is not in the
    sources; "align16" rounds a size up to the next multiple of 16, in
    [size_t] arithmetic. *)
Definition AlignUpToMultipleOf2 (val mul : Z) : Z :=
  Z.land (wrap (val + (mul - 1))) (wrap (- mul)).

(** ** Setup: layout and code generation *)

(* the counters of the first loop *)
Record layout_t : Type := mk_layout {
  sourcecaves_total_size : Z;
  valid_breakpoint_count : Z;
  total_valid_addrs : Z
}.

(* the values of the second loop's variables at one rendered address *)
Record patch_site : Type := mk_site {
  ps_addr : Z;
  ps_index : nat;
  ps_cavesize : Z;
  ps_sourcecave : Z;
  ps_callcave : Z;
  ps_slot_size : Z
}.

Record render_t : Type := mk_render {
  sourcecave_p : Z;
  callcave_p : Z;
  asm_buf : list Z;
  current_asm_buf_size : Z;
  (* not a program variable: the record of the iterations so far *)
  rendered : list patch_site
}.

(* source-cave slots that follow one another from [start] on, each of the
   size align16(cavesize + CALL_LEN) *)
Fixpoint contiguous (start : Z) (sites : list patch_site) : Prop :=
  match sites with
  | [] => True
  | s :: rest =>
      ps_sourcecave s = start
      /\ ps_slot_size s = AlignUpToMultipleOf2 (wrap (ps_cavesize s + CALL_LEN)) 16
      /\ contiguous (wrap (start + ps_slot_size s)) rest
  end.

(* no slot of a plan is reached through a null pointer *)
Definition sites_nonnull (sites : list patch_site) : Prop :=
  forall s, In s sites ->
    is_null (ps_sourcecave s) = false /\ is_null (ps_callcave s) = false.

Section Apply.

(* External collaborators and link-time constants. *)
Variable func_get : string -> option BreakpointFunc_t.
Variable VirtualCheckRegion : Z -> Z -> bool.
(* the address VirtualAlloc returns (0 on failure), given the calls made
   so far and the size asked for *)
Variable VirtualAlloc_result : list event -> Z -> Z.
(* the trampoline-stub template, its patch offsets, the dispatcher *)
Variable bp_entry : list Z.
Variable bp_entry_cave : Z.
Variable bp_entry_local : Z.
Variable bp_entry_call : Z.
Variable breakpoint_process_addr : Z.
(* the address of breakpoints[i] *)
Variable bp_ptr : nat -> Z.
Variable BINHACK_BUFSIZE_MIN : Z.

Definition bp_entry_size : Z := wrap (Z.of_nat (List.length bp_entry)).

Definition VirtualAlloc (size : Z) : M Z :=
  fun w =>
    let p := wrap (VirtualAlloc_result (w_events w) size) in
    Done p (if p =? 0 then w
            else mk_world (w_mem w) (w_events w ++ [EvAlloc p size])).

(* The handler key, built in a stack buffer of
   strlen("BP_") + key_len + 1 bytes: None when the strcpy of a
   "codecave:" name does not fit in it. *)
Definition breakpoint_key (key : string) : option string :=
  let slot := String.index 0 "#" key in
  let key_len := match slot with
                 | Some i => i
                 | None => String.length key
                 end in
  let bp_key_size := (3 + key_len + 1)%nat in
  if negb (String.prefix "codecave:" key)
  then Some ("BP_" ++ String.substring 0 key_len key)%string
  else if (String.length key + 1 <=? bp_key_size)%nat
       then Some key
       else None.

Definition breakpoint_local_init (bp_local : breakpoint_local_t)
    : M (bool * breakpoint_local_t) :=
  bp_key <- lift (breakpoint_key (bp_name bp_local)) ;;
  let f := func_get bp_key in
  ret (match f with Some _ => true | None => false end,
       {| bp_name := bp_name bp_local; bp_cavesize := bp_cavesize bp_local;
          bp_json_obj := bp_json_obj bp_local; bp_func := f;
          bp_addr := bp_addr bp_local |}).

(* The address loop of the first pass: returns the entries (with the
   failing ones tagged), cur_valid_addrs and sourcecaves_total_size.
   [hMod] is passed on to eval_hackpoint_addr in the source; it matters
   to the external resolver only. *)
Fixpoint layout_addrs (hMod cavesize : Z) (addrs : list hackpoint_addr_t)
    (cur_valid_addrs total : Z) : list hackpoint_addr_t * Z * Z :=
  match addrs with
  | [] => ([], cur_valid_addrs, total)
  | cur_addr :: rest =>
      let addr := eval_hackpoint_addr cur_addr in
      if addr =? 0 then
        let '(rest', n, t) := layout_addrs hMod cavesize rest cur_valid_addrs total in
        (cur_addr :: rest', n, t)
      else if negb (VirtualCheckRegion addr cavesize) then
        let '(rest', n, t) := layout_addrs hMod cavesize rest cur_valid_addrs total in
        ({| addr_type := INVALID_ADDR; addr_raw := addr_raw cur_addr |} :: rest', n, t)
      else
        let '(rest', n, t) :=
          layout_addrs hMod cavesize rest (wrap (cur_valid_addrs + 1))
            (wrap (total + AlignUpToMultipleOf2 (wrap (cavesize + CALL_LEN)) 16)) in
        (cur_addr :: rest', n, t)
  end.

(* One iteration of the first loop: the description afterwards,
   breakpoint_total_size[i], and the counters.  The array of
   descriptions is carried as a value, apart from [w_mem]: cur->func and
   cur_addr->type are set in the description that is returned. *)
Definition layout_step (hMod : Z) (cur0 : breakpoint_local_t) (lay : layout_t)
    : M (breakpoint_local_t * Z * layout_t) :=
  '(found, cur) <- breakpoint_local_init cur0 ;;
  if negb found then ret (cur, 0, lay)
  else
    let cavesize := bp_cavesize cur in
    let '(addrs, cur_valid_addrs, total) :=
      layout_addrs hMod cavesize (bp_addr cur) 0 (sourcecaves_total_size lay) in
    let cur' := {| bp_name := bp_name cur; bp_cavesize := bp_cavesize cur;
                   bp_json_obj := bp_json_obj cur; bp_func := bp_func cur;
                   bp_addr := addrs |} in
    if cur_valid_addrs =? 0
    then ret (cur', 0, {| sourcecaves_total_size := total;
                          valid_breakpoint_count := valid_breakpoint_count lay;
                          total_valid_addrs := total_valid_addrs lay |})
    else ret (cur', AlignUpToMultipleOf2 (wrap (cavesize + CALL_LEN)) 16,
              {| sourcecaves_total_size := total;
                 valid_breakpoint_count := wrap (valid_breakpoint_count lay + 1);
                 total_valid_addrs := wrap (total_valid_addrs lay + cur_valid_addrs) |}).

Fixpoint layout_loop (hMod : Z) (breakpoints : list breakpoint_local_t)
    (lay : layout_t) : M (list breakpoint_local_t * list Z * layout_t) :=
  match breakpoints with
  | [] => ret ([], [], lay)
  | cur0 :: rest =>
      '(cur, size_i, lay1) <- layout_step hMod cur0 lay ;;
      '(rest', sizes, lay2) <- layout_loop hMod rest lay1 ;;
      ret (cur :: rest', size_i :: sizes, lay2)
  end.

Definition layout_pass (hMod : Z) (breakpoints : list breakpoint_local_t)
    : M (list breakpoint_local_t * list Z * layout_t) :=
  layout_loop hMod breakpoints
    {| sourcecaves_total_size := 0; valid_breakpoint_count := 0;
       total_valid_addrs := 0 |}.

(* for (callcave_fill = cave_call; callcave_fill < callcave_fill_end;
        callcave_fill += bp_entry_size) memcpy(callcave_fill, &bp_entry, ...)
   [fuel] bounds the iterations; the loop needs total_valid_addrs of them
   when the region lies inside the address space (callcave_fill_done),
   and a run that would need more ends in OutOfFuel. *)
Fixpoint callcave_fill_loop (fuel : nat) (callcave_fill callcave_fill_end : Z)
    : M unit :=
  if callcave_fill <? callcave_fill_end then
    match fuel with
    | O => fun w => OutOfFuel w
    | S fuel' =>
        mem_store callcave_fill 0 bp_entry ;;
        callcave_fill_loop fuel' (wrap (callcave_fill + bp_entry_size))
          callcave_fill_end
    end
  else ret tt.

(* malloc(BINHACK_BUFSIZE_MIN) and the initial CALL / NOP fill; memory
   fresh from malloc or realloc is modelled as zero bytes *)
Definition asm_buf_init : M (list Z) :=
  let buf0 := repeat 0 (Z.to_nat BINHACK_BUFSIZE_MIN) in
  buf1 <- lift (buf_write buf0 0 [x86_CALL_NEAR_REL32]) ;;
  if BINHACK_BUFSIZE_MIN >? CALL_LEN
  then lift (buf_memset buf1 CALL_LEN x86_NOP (BINHACK_BUFSIZE_MIN - CALL_LEN))
  else ret buf1.

(* if (cavesize > current_asm_buf_size) { realloc; memset; ... } *)
Definition asm_buf_grow (cavesize : Z) (st : render_t) : M render_t :=
  if cavesize >? current_asm_buf_size st then
    let buf1 := asm_buf st
                ++ repeat 0 (Z.to_nat cavesize - List.length (asm_buf st))%nat in
    buf2 <- lift (buf_memset buf1 (current_asm_buf_size st) x86_NOP
                    (wrap (current_asm_buf_size st - cavesize))) ;;
    ret {| sourcecave_p := sourcecave_p st; callcave_p := callcave_p st;
           asm_buf := buf2; current_asm_buf_size := cavesize;
           rendered := rendered st |}
  else ret st.

(* The body of the address loop of the second pass, for a non-null
   [addr]. *)
Definition render_site (i : nat) (cur : breakpoint_local_t)
    (total_size_i addr : Z) (st : render_t) : M render_t :=
  let cavesize := bp_cavesize cur in
  let sp := sourcecave_p st in
  let cp := callcave_p st in
  mem_store cp bp_entry_cave (le32 sp) ;;
  mem_store cp bp_entry_local (le32 (bp_ptr i)) ;;
  mem_store cp bp_entry_call
    (le32 (wrap (breakpoint_process_addr - wrap (cp + bp_entry_call)
                 - ptr_size))) ;;
  let bp_dist := wrap (cp - (addr + CALL_LEN)) in
  buf <- lift (buf_write (asm_buf st) 1 (le32 bp_dist)) ;;
  memcpy sp addr cavesize ;;
  modify_mem (fun m => cave_fix m sp addr) ;;
  let cave_dist := wrap (addr - (sp + CALL_LEN)) in
  mem_store sp cavesize [x86_JMP_NEAR_REL32] ;;
  mem_store sp (cavesize + 1) (le32 cave_dist) ;;
  patch <- lift (buf_read buf cavesize) ;;
  PatchRegion addr patch ;;
  ret {| sourcecave_p := wrap (sp + total_size_i);
         callcave_p := wrap (cp + bp_entry_size);
         asm_buf := buf;
         current_asm_buf_size := current_asm_buf_size st;
         rendered := rendered st
           ++ [{| ps_addr := addr; ps_index := i; ps_cavesize := cavesize;
                  ps_sourcecave := sp; ps_callcave := cp;
                  ps_slot_size := total_size_i |}] |}.

Fixpoint render_addrs (hMod : Z) (i : nat) (cur : breakpoint_local_t)
    (total_size_i : Z) (addrs : list hackpoint_addr_t) (st : render_t)
    : M render_t :=
  match addrs with
  | [] => ret st
  | cur_addr :: rest =>
      let addr := eval_hackpoint_addr cur_addr in
      if addr =? 0 then render_addrs hMod i cur total_size_i rest st
      else
        st1 <- render_site i cur total_size_i addr st ;;
        render_addrs hMod i cur total_size_i rest st1
  end.

Fixpoint render_loop (hMod : Z) (i : nat) (breakpoints : list breakpoint_local_t)
    (breakpoint_total_size : list Z) (st : render_t) : M render_t :=
  match breakpoints, breakpoint_total_size with
  | cur :: rest, size_i :: sizes =>
      if size_i =? 0 then render_loop hMod (S i) rest sizes st
      else
        st1 <- asm_buf_grow (bp_cavesize cur) st ;;
        st2 <- render_addrs hMod i cur size_i (bp_addr cur) st1 ;;
        render_loop hMod (S i) rest sizes st2
  | _, _ => ret st
  end.

Definition render_pass (hMod : Z) (breakpoints : list breakpoint_local_t)
    (breakpoint_total_size : list Z) (cave_source cave_call : Z) : M render_t :=
  buf <- asm_buf_init ;;
  render_loop hMod 0 breakpoints breakpoint_total_size
    {| sourcecave_p := cave_source; callcave_p := cave_call;
       asm_buf := buf; current_asm_buf_size := BINHACK_BUFSIZE_MIN;
       rendered := [] |}.

(* [breakpoints] is the array pointer with its count: None is the null
   pointer, the list's length is bp_count. *)
Definition breakpoints_apply (breakpoints : option (list breakpoint_local_t))
    (hMod : Z) : M Z :=
  match breakpoints with
  | None => ret 0
  | Some [] => ret 0
  | Some bps =>
      let bp_count := wrap (Z.of_nat (List.length bps)) in
      '(bps', breakpoint_total_size, lay) <- layout_pass hMod bps ;;
      if total_valid_addrs lay =? 0 then ret 0
      else
        cave_source <- VirtualAlloc (sourcecaves_total_size lay) ;;
        memset cave_source x86_INT3 (sourcecaves_total_size lay) ;;
        let callcaves_total_size := wrap (total_valid_addrs lay * bp_entry_size) in
        cave_call <- VirtualAlloc callcaves_total_size ;;
        callcave_fill_loop (Z.to_nat (total_valid_addrs lay)) cave_call
          (wrap (cave_call + callcaves_total_size)) ;;
        _ <- render_pass hMod bps' breakpoint_total_size cave_source cave_call ;;
        VirtualProtect cave_source (sourcecaves_total_size lay) ;;
        VirtualProtect cave_call callcaves_total_size ;;
        ret (to_int (wrap (bp_count - valid_breakpoint_count lay)))
  end.

(** *** What setup is expected to compute

    The valid (address, description) pairs and the slot plan, written
    independently of the loops above. *)

Definition handler_found (bp : breakpoint_local_t) : bool :=
  match breakpoint_key (bp_name bp) with
  | Some key => match func_get key with Some _ => true | None => false end
  | None => false
  end.

(* non-null and enough patchable bytes *)
Definition addr_valid (cavesize : Z) (a : hackpoint_addr_t) : bool :=
  negb (eval_hackpoint_addr a =? 0)
  && VirtualCheckRegion (eval_hackpoint_addr a) cavesize.

(* the addresses of a description that become PatchSites *)
Definition valid_addrs (bp : breakpoint_local_t) : list Z :=
  if handler_found bp
  then map eval_hackpoint_addr (filter (addr_valid (bp_cavesize bp)) (bp_addr bp))
  else [].

Definition is_active (bp : breakpoint_local_t) : bool :=
  match valid_addrs bp with
  | [] => false
  | _ :: _ => true
  end.

Definition slot_size (bp : breakpoint_local_t) : Z :=
  AlignUpToMultipleOf2 (wrap (bp_cavesize bp + CALL_LEN)) 16.

Fixpoint source_total (bps : list breakpoint_local_t) : Z :=
  match bps with
  | [] => 0
  | bp :: rest =>
      Z.of_nat (List.length (valid_addrs bp)) * slot_size bp + source_total rest
  end.

Fixpoint valid_total (bps : list breakpoint_local_t) : Z :=
  match bps with
  | [] => 0
  | bp :: rest => Z.of_nat (List.length (valid_addrs bp)) + valid_total rest
  end.

Fixpoint active_count (bps : list breakpoint_local_t) : Z :=
  match bps with
  | [] => 0
  | bp :: rest => (if is_active bp then 1 else 0) + active_count rest
  end.

(* the slots of one description's addresses, from the fill pointers on *)
Fixpoint plan_addrs (i : nat) (bp : breakpoint_local_t) (addrs : list Z)
    (sp cp : Z) : list patch_site :=
  match addrs with
  | [] => []
  | addr :: rest =>
      {| ps_addr := addr; ps_index := i; ps_cavesize := bp_cavesize bp;
         ps_sourcecave := sp; ps_callcave := cp; ps_slot_size := slot_size bp |}
      :: plan_addrs i bp rest (wrap (sp + slot_size bp)) (wrap (cp + bp_entry_size))
  end.

Fixpoint plan (i : nat) (bps : list breakpoint_local_t) (sp cp : Z)
    : list patch_site :=
  match bps with
  | [] => []
  | bp :: rest =>
      let n := Z.of_nat (List.length (valid_addrs bp)) in
      plan_addrs i bp (valid_addrs bp) sp cp
      ++ plan (S i) rest (wrap (sp + n * slot_size bp))
              (wrap (cp + n * bp_entry_size))
  end.

(* the patch buffer between iterations: CALL, a displacement, NOPs *)
Definition asm_buf_shape (disp : list Z) : list Z :=
  x86_CALL_NEAR_REL32
  :: disp ++ repeat x86_NOP (Z.to_nat (BINHACK_BUFSIZE_MIN - CALL_LEN)).

Definition buf_ready (st : render_t) : Prop :=
  (exists disp, List.length disp = 4%nat /\ asm_buf st = asm_buf_shape disp)
  /\ current_asm_buf_size st = BINHACK_BUFSIZE_MIN.

Definition nonnull (a : hackpoint_addr_t) : bool :=
  negb (eval_hackpoint_addr a =? 0).

(* what the first pass leaves of a description for the second pass *)
Definition laid_out (bp bp' : breakpoint_local_t) : Prop :=
  bp_cavesize bp' = bp_cavesize bp
  /\ (handler_found bp = true ->
      map eval_hackpoint_addr (filter nonnull (bp_addr bp')) = valid_addrs bp).

(* breakpoint_total_size[i] *)
Definition size_entry (bp : breakpoint_local_t) : Z :=
  if is_active bp then slot_size bp else 0.

(* the counters after the first loop has gone over [bps] *)
Definition advance (lay : layout_t) (bps : list breakpoint_local_t) : layout_t :=
  {| sourcecaves_total_size := wrap (sourcecaves_total_size lay + source_total bps);
     valid_breakpoint_count := wrap (valid_breakpoint_count lay + active_count bps);
     total_valid_addrs := wrap (total_valid_addrs lay + valid_total bps) |}.

(* the bytes installed at a PatchSite *)
Definition patch_bytes (s : patch_site) : list Z :=
  x86_CALL_NEAR_REL32
  :: le32 (wrap (ps_callcave s - (ps_addr s + CALL_LEN)))
  ++ repeat x86_NOP (Z.to_nat (ps_cavesize s - CALL_LEN)).

Definition patch_event (s : patch_site) : event :=
  EvPatch (ps_addr s) (patch_bytes s).

(* a cave that holds the call and fits the initial patch buffer *)
Definition cave_fits (bp : breakpoint_local_t) : Prop :=
  CALL_LEN <= bp_cavesize bp <= BINHACK_BUFSIZE_MIN.

(* the handler key of the description fits the buffer it is built in *)
Definition name_fits (bp : breakpoint_local_t) : Prop :=
  breakpoint_key (bp_name bp) <> None.

(* an address array that fits a 32-bit address space *)
Definition short_addrs (bp : breakpoint_local_t) : Prop :=
  Z.of_nat (List.length (bp_addr bp)) < 2 ^ 32.

(* fewer valid addresses than the counter cur_valid_addrs can hold *)
Definition few_valid (bp : breakpoint_local_t) : Prop :=
  Z.of_nat (List.length (valid_addrs bp)) < 2 ^ 32.

Definition in_range (lay : layout_t) : Prop :=
  0 <= sourcecaves_total_size lay < 2 ^ 32
  /\ 0 <= valid_breakpoint_count lay < 2 ^ 32
  /\ 0 <= total_valid_addrs lay < 2 ^ 32.

End Apply.

(** ** Concrete instances

    A register layout, handlers, evaluators and a small process image on
    which the statements below are exercised. *)

Module Sample.

(* x86_reg_t as pushed by the entry stub: flags, edi, esi, ebp, esp,
   ebx, edx, ecx, eax, retaddr *)
Definition sizeof_x86_reg_t : Z := 40.
Definition off_esp : Z := 16.
Definition off_retaddr : Z := 36.

Definition mem0 : memory := fun _ => 0.

(* snapshot at 0x1000 with esp = 0x2000 *)
Definition regs : Z := 0x1000.
Definition mem_regs : memory := store32 mem0 (regs + off_esp) 0x2000.

(* a handler that reserves 8 bytes of stack and asks for the cave *)
Definition push8 : BreakpointFunc_t :=
  fun m r _ => (1, store32 m (r + off_esp) (load32 m (r + off_esp) - 8)).

(* a handler that touches nothing and declines the cave *)
Definition idle : BreakpointFunc_t := fun m _ _ => (0, m).

Definition bp_with (f : BreakpointFunc_t) : breakpoint_local_t :=
  {| bp_name := "sample"; bp_cavesize := 5; bp_json_obj := JSON_OBJECT [];
     bp_func := Some f; bp_addr := [] |}.

(* a cave at 0x5000 holding CALL rel32 copied from 0x401000 *)
Definition cave : Z := 0x5000.
Definition mem_call : memory :=
  store32 (store8 mem0 cave x86_CALL_NEAR_REL32) (cave + 1) 0x100.
Definition mem_push : memory := store8 mem0 cave 0x55.

(** Stand-ins for the external evaluator and address parser: literal
    values only. *)
Definition eval_bool_default (obj : option json_t) (key : string)
    (default_ret : bool) (_ : jeval_flags) : bool :=
  match json_object_get obj key with
  | Some JSON_TRUE => true
  | Some JSON_FALSE => false
  | _ => default_ret
  end.

Definition eval_int (obj : option json_t) (key : string) (_ : jeval_flags)
    : jeval_error_t * Z :=
  match json_object_get obj key with
  | None => (JEVAL_NULL_PTR, 0)
  | Some (JSON_INTEGER z) => (JEVAL_SUCCESS, z)
  | Some _ => (JEVAL_OTHER 2, 0)
  end.

Definition addrs_from_json (j : option json_t)
    : option (list hackpoint_addr_t) :=
  match j with
  | Some (JSON_INTEGER z) => Some [mk_addr RAW_ADDR z]
  | _ => None
  end.

Definition cfg_ok : json_t :=
  JSON_OBJECT [("cavesize", JSON_INTEGER 6); ("addr", JSON_INTEGER 0x401000)].
Definition cfg_ignored : json_t :=
  JSON_OBJECT [("cavesize", JSON_INTEGER 6); ("addr", JSON_INTEGER 0x401000);
               ("ignore", JSON_TRUE)].
Definition out0 : breakpoint_local_t :=
  {| bp_name := ""; bp_cavesize := 0; bp_json_obj := JSON_NULL;
     bp_func := None; bp_addr := [] |}.

(** A process image for setup: every handler name is registered, host
    code below 0x80000000 is patchable, the allocator hands out
    0x10000000 and then 0x20000000. *)
Definition func_get (key : string) : option BreakpointFunc_t :=
  if String.eqb key "BP_missing" then None else Some idle.
Definition VirtualCheckRegion (addr size : Z) : bool := addr + size <=? 0x80000000.
Definition VirtualAlloc_result (evs : list event) (size : Z) : Z :=
  match evs with
  | [] => 0x10000000
  | _ => 0x20000000
  end.
(* an allocator with nothing to give *)
Definition VirtualAlloc_none (evs : list event) (size : Z) : Z := 0.
(* an allocator that fails on its second call *)
Definition VirtualAlloc_once (evs : list event) (size : Z) : Z :=
  match evs with
  | [] => 0x10000000
  | _ => 0
  end.
(* a 16-byte stub: push imm32 / push imm32 / call rel32 / ret *)
Definition bp_entry : list Z :=
  [0x68; 0; 0; 0; 0; 0x68; 0; 0; 0; 0; 0xE8; 0; 0; 0; 0; 0xC3].
Definition bp_entry_cave : Z := 1.
Definition bp_entry_local : Z := 6.
Definition bp_entry_call : Z := 11.
Definition breakpoint_process_addr : Z := 0x70001000.
Definition bp_ptr (i : nat) : Z := 0x600000 + 20 * Z.of_nat i.
Definition BINHACK_BUFSIZE_MIN : Z := 32.

Definition desc (name : string) (cavesize : Z) (addrs : list Z)
    : breakpoint_local_t :=
  {| bp_name := name; bp_cavesize := cavesize; bp_json_obj := JSON_OBJECT [];
     bp_func := None; bp_addr := map (mk_addr RAW_ADDR) addrs |}.

(* description #2 has a null address and one outside patchable code *)
Definition three : list breakpoint_local_t :=
  [desc "one" 6 [0x401000]; desc "two" 5 [0; 0x90000000];
   desc "three#1" 7 [0x402000]].

(* a description that holds no valid address at all *)
Definition none_valid : list breakpoint_local_t := [desc "two" 5 [0; 0x90000000]].

(* a codecave key with three characters behind the '#': one byte more
   than its buffer holds; the only address is null *)
Definition overrun : list breakpoint_local_t := [desc "codecave:x#abc" 5 [0]].

(* a handler that is not registered, on an otherwise good address *)
Definition unregistered : list breakpoint_local_t := [desc "missing" 6 [0x401000]].

(* a cave larger than the initial patch buffer *)
Definition large : list breakpoint_local_t := [desc "one" 40 [0x401000]].

Definition w0 : world := {| w_mem := mem0; w_events := [] |}.

Definition apply (alloc : list event -> Z -> Z)
    (bps : option (list breakpoint_local_t)) : M Z :=
  breakpoints_apply func_get VirtualCheckRegion alloc bp_entry
    bp_entry_cave bp_entry_local bp_entry_call breakpoint_process_addr
    bp_ptr BINHACK_BUFSIZE_MIN bps 0x400000.

End Sample.

(** ** Further observations on setup *)

(* the (address, length) windows written through PatchRegion, in order *)
Fixpoint patch_windows (evs : list event) : list (Z * Z) :=
  match evs with
  | [] => []
  | EvPatch addr bytes :: rest =>
      (addr, Z.of_nat (List.length bytes)) :: patch_windows rest
  | _ :: rest => patch_windows rest
  end.

(* the windows a description asks for: cavesize bytes at each valid address *)
Definition valid_windows (func_get : string -> option BreakpointFunc_t)
    (VirtualCheckRegion : Z -> Z -> bool) (bp : breakpoint_local_t)
    : list (Z * Z) :=
  map (fun a => (a, bp_cavesize bp)) (valid_addrs func_get VirtualCheckRegion bp).

(* a slot pair that lies inside the two regions, the source-cave slot
   holding the copied bytes and the jump back *)
Definition slot_inside (p1 S p2 T esize : Z) (s : patch_site) : Prop :=
  p1 <= ps_sourcecave s
  /\ ps_cavesize s + CALL_LEN <= ps_slot_size s
  /\ ps_sourcecave s + ps_slot_size s <= p1 + S
  /\ p2 <= ps_callcave s
  /\ ps_callcave s + esize <= p2 + T.

(* [n] bytes at [a] that do not wrap around the address space *)
Definition in_space (a n : Z) : Prop := 0 <= a /\ a + n <= 2 ^ 32.

(* two byte ranges that do not overlap *)
Definition apart (a n b k : Z) : Prop := a + n <= b \/ b + k <= a.

(* the pointer-sized stub fields at [offs] from [cp] lie in the address
   space and clear of the [n] bytes at [a] *)
Definition fields_clear (cp : Z) (offs : list Z) (a n : Z) : Prop :=
  Forall (fun off => in_space (cp + off) ptr_size
                     /\ apart (cp + off) ptr_size a n) offs.

(** A single address about to be rendered: the two regions as the
    allocator of [Sample] hands them out, a fresh patch buffer, and host
    code at 0x401000 that starts with a near call. *)
Module SampleSite.

Definition st0 : render_t :=
  {| sourcecave_p := 0x10000000; callcave_p := 0x20000000;
     asm_buf := asm_buf_shape Sample.BINHACK_BUFSIZE_MIN [0; 0; 0; 0];
     current_asm_buf_size := Sample.BINHACK_BUFSIZE_MIN;
     rendered := [] |}.

Definition cur : breakpoint_local_t := Sample.desc "one" 6 [0x401000].

(* call +0x100 ; push ebp *)
Definition mem_site : memory :=
  store8 (store32 (store8 Sample.mem0 0x401000 x86_CALL_NEAR_REL32)
            0x401001 0x100) 0x401005 0x55.
Definition w_site : world := {| w_mem := mem_site; w_events := [] |}.

Definition render : M render_t :=
  render_site Sample.bp_entry Sample.bp_entry_cave Sample.bp_entry_local
    Sample.bp_entry_call Sample.breakpoint_process_addr Sample.bp_ptr
    0 cur 16 0x401000 st0.

End SampleSite.

(* the byte ranges one rendered address writes to: the three patched
   fields of its stub, its source-cave slot up to the end of the jump back,
   and the patched window *)
Definition site_regions (bp_entry_cave bp_entry_local bp_entry_call : Z)
    (s : patch_site) : list (Z * Z) :=
  [(ps_callcave s + bp_entry_cave, ptr_size);
   (ps_callcave s + bp_entry_local, ptr_size);
   (ps_callcave s + bp_entry_call, ptr_size);
   (ps_sourcecave s, ps_cavesize s + CALL_LEN);
   (ps_addr s, ps_cavesize s)].

(* [x] is the address of a byte of one of the ranges (base, length) *)
Definition touched (regions : list (Z * Z)) (x : Z) : Prop :=
  exists a n k, In (a, n) regions /\ 0 <= k < n /\ wrap (a + k) = wrap x.

Definition same_outside (regions : list (Z * Z)) (m m' : memory) : Prop :=
  forall x, ~ touched regions x -> load8 m' x = load8 m x.

(** * ANM patcher (anm.c) *)

(* a byte of a heap buffer, None outside it *)
Definition buf_get (buf : list Z) (i : Z) : option Z :=
  if (0 <=? i) && (i <? Z.of_nat (List.length buf))
  then Some (nth (Z.to_nat i) buf 0 mod 256)
  else None.

(* [n] bytes of a heap buffer from offset [off] on, None when they are not
   all inside it *)
Definition buf_sub (buf : list Z) (off n : Z) : option (list Z) :=
  if (0 <=? off) && (0 <=? n) && (off + n <=? Z.of_nat (List.length buf))
  then Some (firstn (Z.to_nat n) (skipn (Z.to_nat off) buf))
  else None.

(** ** Formats *)

Section Formats.

(* the format codes of anm.h and of png.h, neither in the sources *)
Variable FORMAT_BGRA8888 : Z.
Variable FORMAT_ARGB4444 : Z.
Variable FORMAT_RGB565 : Z.
Variable FORMAT_GRAY8 : Z.
Variable PNG_FORMAT_BGRA : Z.
Variable PNG_FORMAT_GRAY : Z.

Definition format_Bpp (format : Z) : Z :=
  if format =? FORMAT_BGRA8888 then 4
  else if (format =? FORMAT_ARGB4444) || (format =? FORMAT_RGB565) then 2
  else if format =? FORMAT_GRAY8 then 1
  else 0.

Definition format_png_equiv (format : Z) : Z :=
  if (format =? FORMAT_BGRA8888) || (format =? FORMAT_ARGB4444)
     || (format =? FORMAT_RGB565)
  then PNG_FORMAT_BGRA
  else if format =? FORMAT_GRAY8 then PNG_FORMAT_GRAY
  else 0.

(* for(i = 0; i < pixels; ++i, in += 4, out += 2): [n] iterations left,
   [in_] and [out] as offsets into [data] *)
Fixpoint argb4444_loop (n : nat) (in_ out : Z) (data : list Z)
    : option (list Z) :=
  match n with
  | O => Some data
  | S n' =>
      match buf_get data in_, buf_get data (in_ + 1),
            buf_get data (in_ + 2), buf_get data (in_ + 3) with
      | Some in0, Some in1, Some in2, Some in3 =>
          let b := Z.shiftr in0 4 in
          let g := Z.shiftr in1 4 in
          let r := Z.shiftr in2 4 in
          let a := Z.shiftr in3 4 in
          match buf_write data (out + 1) [Z.lor (Z.shiftl a 4) r mod 256] with
          | Some data1 =>
              match buf_write data1 out [Z.lor (Z.shiftl g 4) b mod 256] with
              | Some data2 => argb4444_loop n' (in_ + 4) (out + 2) data2
              | None => None
              end
          | None => None
          end
      | _, _, _, _ => None
      end
  end.

(* for(i = 0; i < pixels; ++i, in += 4, ++out16); a 16-bit store is
   little-endian *)
Fixpoint rgb565_loop (n : nat) (in_ out : Z) (data : list Z)
    : option (list Z) :=
  match n with
  | O => Some data
  | S n' =>
      match buf_get data in_, buf_get data (in_ + 1), buf_get data (in_ + 2) with
      | Some in0, Some in1, Some in2 =>
          let b := Z.shiftr in0 3 in
          let g := Z.shiftr in1 2 in
          let r := Z.shiftr in2 3 in
          let v := Z.lor (Z.lor (Z.shiftl r 11) (Z.shiftl g 5)) b mod 2 ^ 16 in
          match buf_write data out [v mod 256; v / 256] with
          | Some data1 => rgb565_loop n' (in_ + 4) (out + 2) data1
          | None => None
          end
      | _, _, _ => None
      end
  end.

(* The conversion in place; None when it leaves the buffer. *)
Definition format_from_bgra (data : list Z) (pixels format : Z)
    : option (list Z) :=
  if format =? FORMAT_ARGB4444 then argb4444_loop (Z.to_nat pixels) 0 0 data
  else if format =? FORMAT_RGB565 then rgb565_loop (Z.to_nat pixels) 0 0 data
  else Some data.

(** *** What the conversion is expected to compute *)

(* channel [c] (0 = B, 1 = G, 2 = R, 3 = A) of pixel [i] of a BGRA8888
   buffer *)
Definition channel (data : list Z) (i : nat) (c : Z) : Z :=
  nth (4 * i + Z.to_nat c) data 0 mod 256.

(* the two bytes of pixel [i] as ARGB4444: the high nibble of each channel *)
Definition argb4444_pixel (data : list Z) (i : nat) : list Z :=
  [16 * (channel data i 1 / 16) + channel data i 0 / 16;
   16 * (channel data i 3 / 16) + channel data i 2 / 16].

(* the 16-bit value of pixel [i] as RGB565 *)
Definition rgb565_value (data : list Z) (i : nat) : Z :=
  2048 * (channel data i 2 / 8) + 32 * (channel data i 1 / 4)
  + channel data i 0 / 8.

Definition rgb565_pixel (data : list Z) (i : nat) : list Z :=
  [rgb565_value data i mod 256; rgb565_value data i / 256].

(* the first [n] pixels packed to two bytes each, then the rest of the
   buffer as it was *)
Definition packed (pixel : list Z -> nat -> list Z) (data : list Z) (n : nat)
    : list Z :=
  flat_map (pixel data) (seq 0 n) ++ skipn (2 * n) data.

End Formats.

(** ** JSON-based structure data access *)

Section StructGet.

(* json_hex_value lives outside the sources; its result is a size_t *)
Variable json_hex_value : option json_t -> Z.

(* [dest], [src]: addresses (0 is the null pointer); [spec]: None is the
   null pointer *)
Definition struct_get (dest dest_size src : Z) (spec : option json_t) : M Z :=
  if is_null dest || (wrap dest_size =? 0) || is_null src
     || match spec with Some _ => false | None => true end
  then ret (-1)
  else
    let spec_offset := json_object_get spec "offset" in
    let spec_size := json_object_get spec "size" in
    let offset := wrap (json_hex_value spec_offset) in
    let size := match spec_size with
                | Some _ => wrap (json_hex_value spec_size)
                | None => ptr_size
                end in
    if size >? wrap dest_size then ret (-2)
    else
      memset dest 0 (wrap dest_size) ;;
      memcpy dest (wrap (src + offset)) size ;;
      ret 0.

End StructGet.

(** ** Texture patching *)

(* the fields of thtx_header_t (anm.h, not in the sources) that the code
   below reads, and the pixel data that follows the header *)
Record thtx_header_t : Type := mk_thtx {
  thtx_format : Z;
  thtx_w : Z;
  thtx_h : Z;
  thtx_size : Z;
  thtx_data : list Z
}.

(* png_image_ex: the png_image fields read below and the decoded buffer
   (None is a null [buf]) *)
Record png_image_ex : Type := mk_png {
  img_width : Z;
  img_height : Z;
  png_buf : option (list Z)
}.

(* the byte at offset [i] of a buffer *)
Definition byte_at (buf : list Z) (i : Z) : Z := nth (Z.to_nat i) buf 0.

(* memcpy between two heap buffers, None when a range leaves its buffer *)
Definition buf_copy (dst : list Z) (doff : Z) (src : list Z) (soff n : Z)
    : option (list Z) :=
  match buf_sub src soff n with
  | Some bytes => buf_write dst doff bytes
  | None => None
  end.

Section PatchThtx.

Variable format_Bpp : Z -> Z.

(* for(row = 0; row < min(...); row++): [rows] iterations left, [in_] and
   [out] as offsets into the two buffers *)
Fixpoint patch_rows (rows : nat) (in_ out x_bytes png_stride thtx_stride : Z)
    (buf data : list Z) : option (list Z) :=
  match rows with
  | O => Some data
  | S rows' =>
      match buf_copy data out buf (wrap (in_ + x_bytes))
              (Z.min png_stride thtx_stride) with
      | Some data1 =>
          patch_rows rows' (wrap (in_ + png_stride)) (wrap (out + thtx_stride))
            x_bytes png_stride thtx_stride buf data1
      | None => None
      end
  end.

(* The result and the texture afterwards (None is a null [thtx]); no
   result at all when a copy leaves a buffer. *)
Definition patch_thtx (thtx : option thtx_header_t) (x y : Z)
    (image : option png_image_ex) : option (Z * option thtx_header_t) :=
  match thtx, image with
  | Some t, Some im =>
      match png_buf im with
      | Some buf =>
          if (x >=? img_width im) || (y >=? img_height im)
          then Some (-1, thtx)
          else
            let bpp := format_Bpp (thtx_format t) in
            let set_data data :=
              Some (0, Some {| thtx_format := thtx_format t;
                               thtx_w := thtx_w t; thtx_h := thtx_h t;
                               thtx_size := thtx_size t;
                               thtx_data := data |}) in
            if (x =? 0) && (y =? 0) && (thtx_w t =? img_width im)
               && (thtx_h t =? img_height im)
            then
              match buf_copy (thtx_data t) 0 buf 0 (thtx_size t) with
              | Some data => set_data data
              | None => None
              end
            else
              let in_ := wrap (wrap (y * img_width im) * bpp) in
              let png_stride := wrap (img_width im * bpp) in
              let thtx_stride := wrap (thtx_w t * bpp) in
              let rows := Z.min (thtx_h t) (wrap (img_height im - y)) in
              match patch_rows (Z.to_nat rows) in_ 0 (wrap (x * bpp))
                      png_stride thtx_stride buf (thtx_data t) with
              | Some data => set_data data
              | None => None
              end
      | None => Some (-1, thtx)
      end
  | _, _ => Some (-1, thtx)
  end.

End PatchThtx.

(** * Text images (textimage.cpp) *)

(* A registered text image.  [script_buf] is kept as the address of the
   rendered script (0 is nullptr), [specs] as the malloc'ed sprite specs
   (None is nullptr), [lower] and [higher] as addresses of other images. *)
Record textimage_t : Type := mk_textimage {
  ti_fn : string;
  ti_priority : Z;
  ti_texture_slot : Z;
  ti_sprite_slot : Z;
  ti_sprite_w : Z;
  ti_sprite_h : Z;
  ti_script_buf : Z;
  ti_sprite_count : Z;
  ti_specs : option (list Z);
  ti_lower : Z;
  ti_higher : Z
}.

(** ** The image list *)

(* for(size_t i = 0; i < Images.size(); i++), from index [i] on *)
Fixpoint image_get_from (i : nat) (Images : list textimage_t) (fn : string)
    : option (nat * textimage_t) :=
  match Images with
  | [] => None
  | image :: rest =>
      if String.eqb (ti_fn image) fn then Some (i, image)
      else image_get_from (S i) rest fn
  end.

(* the image and, for a non-null [index], its position *)
Definition image_get (Images : list textimage_t) (fn : string)
    : option (nat * textimage_t) :=
  image_get_from 0 Images fn.

(* Images[i] = image *)
Fixpoint vec_set (Images : list textimage_t) (i : nat) (image : textimage_t)
    : list textimage_t :=
  match Images, i with
  | [], _ => []
  | _ :: rest, O => image :: rest
  | x :: rest, S i' => x :: vec_set rest i' image
  end.

(* BP_textimage_load, on a freshly created image: replace the image of
   the same file name, or append *)
Definition images_put (Images : list textimage_t) (image : textimage_t)
    : list textimage_t :=
  match image_get Images (ti_fn image) with
  | Some (old_index, _) => vec_set Images old_index image
  | None => Images ++ [image]
  end.

(* while(++i < (int)Images.size()): the image found and the value [i] is
   left with; None when [fuel] iterations do not suffice or Images[i] is
   read at a negative index *)
Fixpoint image_next_on_top (fuel : nat) (Images : list textimage_t) (i : Z)
    : option (option textimage_t * Z) :=
  match fuel with
  | O => None
  | S fuel' =>
      let i := to_int (wrap (i + 1)) in
      if i <? to_int (wrap (Z.of_nat (List.length Images))) then
        if i <? 0 then None
        else
          match nth_error Images (Z.to_nat i) with
          | Some image =>
              if ti_higher image =? 0 then Some (Some image, i)
              else image_next_on_top fuel' Images i
          | None => None
          end
      else Some (None, i)
  end.

(* image_foreach_on_top(i, image) from the current [i] on: the images the
   loop body is run with *)
Fixpoint image_foreach_on_top_from (fuel : nat) (Images : list textimage_t)
    (i : Z) : option (list textimage_t) :=
  match fuel with
  | O => None
  | S fuel' =>
      match image_next_on_top (S fuel') Images i with
      | Some (Some image, i') =>
          match image_foreach_on_top_from fuel' Images i' with
          | Some visited => Some (image :: visited)
          | None => None
          end
      | Some (None, _) => Some []
      | None => None
      end
  end.

Definition image_foreach_on_top (fuel : nat) (Images : list textimage_t)
    : option (list textimage_t) :=
  image_foreach_on_top_from fuel Images (-1).

(* an image that no image of higher priority covers *)
Definition on_top (image : textimage_t) : bool := ti_higher image =? 0.

(** ** Sprite runtime data and commit *)

(* reads through a pointer: [n] bytes, and a pointer-sized value *)
Definition mem_load (p n : Z) : M (list Z) :=
  fun w => if is_null p then Fault w
           else Done (load_bytes (w_mem w) p (Z.to_nat n)) w.

Definition mem_load32 (p : Z) : M Z :=
  fun w => if is_null p then Fault w else Done (load32 (w_mem w) p) w.

(* [active_ti] is held by value (None is nullptr); [spec_game] is the
   storage of the union, sizeof(sprite_spec06_t) bytes *)
Record sprite_runtime_t : Type := mk_sprite_runtime {
  sr_sprite_slot : Z;
  sr_active_ti : option textimage_t;
  sr_active_sprite_on_ti : Z;
  sr_is_ours : bool;
  sr_in_group : bool;
  sr_spec_game : list Z;
  sr_script_game : Z
}.

Definition would_be_replaced (sr : sprite_runtime_t) : bool :=
  match sr_active_ti sr with
  | None => false
  | Some active_ti =>
      if sr_active_sprite_on_ti sr <? 0 then false
      else if sr_active_sprite_on_ti sr >=? ti_sprite_count active_ti then false
      else true
  end.

Section Commit.

(* the game being patched and the sizes of thtypes' sprite specs, none
   of them in the sources *)
Variable game_id : Z.
Variable TH06 : Z.
Variable TH07 : Z.
Variable sizeof_sprite_spec06_t : Z.
Variable sizeof_sprite_spec07_t : Z.
(* game memory pointers, set by BP_textimage_init *)
Variable SpriteSpecs : Z.
Variable SpriteScripts : Z.

Definition sprite_spec_size : Z :=
  if game_id =? TH06 then sizeof_sprite_spec06_t
  else if game_id =? TH07 then sizeof_sprite_spec07_t
  else 0.

(* the register order at the end of a spec is not copied *)
Definition commit_copy_size : Z :=
  if (game_id =? TH07) || (game_id =? TH06)
  then wrap (sprite_spec_size - 4)
  else sprite_spec_size.

Definition game_sprite_p (sr : sprite_runtime_t) : Z :=
  wrap (SpriteSpecs + wrap (sr_sprite_slot sr * sprite_spec_size)).

Definition game_script_p (sr : sprite_runtime_t) : Z :=
  wrap (SpriteScripts + wrap (sr_sprite_slot sr * ptr_size)).

(* the lambda of textimage_commit *)
Definition commit_sprite (sr : sprite_runtime_t) (set : bool)
    : M sprite_runtime_t :=
  let spec_size := sprite_spec_size in
  let copy_size := commit_copy_size in
  if set then
    sr1 <- (if negb (sr_is_ours sr) then
              bytes <- mem_load (game_sprite_p sr) copy_size ;;
              spec_game <- lift (buf_write (sr_spec_game sr) 0 bytes) ;;
              script_game <- mem_load32 (game_script_p sr) ;;
              ret {| sr_sprite_slot := sr_sprite_slot sr;
                     sr_active_ti := sr_active_ti sr;
                     sr_active_sprite_on_ti := sr_active_sprite_on_ti sr;
                     sr_is_ours := sr_is_ours sr;
                     sr_in_group := sr_in_group sr;
                     sr_spec_game := spec_game;
                     sr_script_game := script_game |}
            else ret sr) ;;
    active_ti <- lift (sr_active_ti sr1) ;;
    specs <- lift (ti_specs active_ti) ;;
    our_sprite <- lift (buf_sub specs
                          (wrap (sr_active_sprite_on_ti sr1 * spec_size))
                          copy_size) ;;
    mem_store (game_sprite_p sr) 0 our_sprite ;;
    (if ti_script_buf active_ti =? 0 then ret tt
     else mem_store (game_script_p sr) 0 (le32 (ti_script_buf active_ti))) ;;
    ret {| sr_sprite_slot := sr_sprite_slot sr1;
           sr_active_ti := sr_active_ti sr1;
           sr_active_sprite_on_ti := sr_active_sprite_on_ti sr1;
           sr_is_ours := true;
           sr_in_group := sr_in_group sr1;
           sr_spec_game := sr_spec_game sr1;
           sr_script_game := sr_script_game sr1 |}
  else
    (if sr_is_ours sr then
       saved <- lift (buf_sub (sr_spec_game sr) 0 copy_size) ;;
       mem_store (game_sprite_p sr) 0 saved ;;
       mem_store (game_script_p sr) 0 (le32 (sr_script_game sr))
     else ret tt) ;;
    ret {| sr_sprite_slot := sr_sprite_slot sr;
           sr_active_ti := sr_active_ti sr;
           sr_active_sprite_on_ti := sr_active_sprite_on_ti sr;
           sr_is_ours := false;
           sr_in_group := sr_in_group sr;
           sr_spec_game := sr_spec_game sr;
           sr_script_game := sr_script_game sr |}.

(* a sprite committed once for each flag, in order *)
Fixpoint commit_each (flags : list bool) (sr : sprite_runtime_t)
    : M sprite_runtime_t :=
  match flags with
  | [] => ret sr
  | set :: rest => sr1 <- commit_sprite sr set ;; commit_each rest sr1
  end.

End Commit.

(* the backup of a runtime holds what game memory [m0] has at the sprite's
   spec and script pointer *)
Definition backup_of (m0 : memory) (gp n sp : Z) (sr : sprite_runtime_t) : Prop :=
  (forall k, 0 <= k < n ->
     nth (Z.to_nat k) (sr_spec_game sr) 0 mod 256 = load8 m0 (gp + k))
  /\ sr_script_game sr = load32 m0 sp.

(* what a series of commits on one sprite keeps true of the runtime [sr]
   and of memory [m], [sr0] and [m0] being what it began with: the same
   sprite, memory as it was outside the spec and the script pointer, and
   either the game's own sprite in place or a faithful backup of it *)
Definition commit_inv (m0 : memory) (gp n sp : Z) (sr0 sr : sprite_runtime_t)
    (m : memory) : Prop :=
  sr_sprite_slot sr = sr_sprite_slot sr0
  /\ sr_active_ti sr = sr_active_ti sr0
  /\ sr_active_sprite_on_ti sr = sr_active_sprite_on_ti sr0
  /\ List.length (sr_spec_game sr) = List.length (sr_spec_game sr0)
  /\ same_outside [(gp, n); (sp, ptr_size)] m0 m
  /\ (if sr_is_ours sr then backup_of m0 gp n sp sr
      else forall x, load8 m x = load8 m0 x).

(** ** textimage_commit *)

(* SpriteRuntimeMap as the list of its entries, in iteration order; a
   sprite_runtime_t* into the map is the key of its entry *)
Definition runtime_map : Type := list (Z * sprite_runtime_t).

Fixpoint map_find (m : runtime_map) (key : Z) : option sprite_runtime_t :=
  match m with
  | [] => None
  | (k, sr) :: rest => if k =? key then Some sr else map_find rest key
  end.

(* a write through a pointer to the entry of [key] *)
Fixpoint map_set (m : runtime_map) (key : Z) (sr : sprite_runtime_t)
    : runtime_map :=
  match m with
  | [] => []
  | (k, old) :: rest =>
      if k =? key then (k, sr) :: rest else (k, old) :: map_set rest key sr
  end.

(* for(auto p = group; *p != nullptr; p++) with the break: got_all_of_them;
   None when a member points to no entry *)
Fixpoint got_all_of_them (m : runtime_map) (group : list Z) : option bool :=
  match group with
  | [] => Some true
  | p :: rest =>
      match map_find m p with
      | Some sr =>
          if negb (would_be_replaced sr) then Some false
          else got_all_of_them m rest
      | None => None
      end
  end.

Section CommitAll.

Variable game_id : Z.
Variable TH06 : Z.
Variable TH07 : Z.
Variable sizeof_sprite_spec06_t : Z.
Variable sizeof_sprite_spec07_t : Z.
Variable SpriteSpecs : Z.
Variable SpriteScripts : Z.

Local Abbreviation commit_sprite_here :=
  (commit_sprite game_id TH06 TH07 sizeof_sprite_spec06_t
     sizeof_sprite_spec07_t SpriteSpecs SpriteScripts).

(* for(auto p = group; *p != nullptr; p++) commit_sprite( *p, set) *)
Fixpoint commit_group (group : list Z) (set : bool) (m : runtime_map)
    : M runtime_map :=
  match group with
  | [] => ret m
  | p :: rest =>
      sr <- lift (map_find m p) ;;
      sr' <- commit_sprite_here sr set ;;
      commit_group rest set (map_set m p sr')
  end.

(* for(size_t i = 0; i < Groups.size(); i++) *)
Fixpoint commit_groups (Groups : list (list Z)) (m : runtime_map)
    : M runtime_map :=
  match Groups with
  | [] => ret m
  | group :: rest =>
      got_all <- lift (got_all_of_them m group) ;;
      m' <- commit_group group got_all m ;;
      commit_groups rest m'
  end.

(* for(auto &srs : SpriteRuntimeMap) *)
Fixpoint commit_singles (entries : runtime_map) : M runtime_map :=
  match entries with
  | [] => ret []
  | (k, sr) :: rest =>
      sr' <- (if negb (sr_in_group sr)
              then commit_sprite_here sr (would_be_replaced sr)
              else ret sr) ;;
      rest' <- commit_singles rest ;;
      ret ((k, sr') :: rest')
  end.

Definition textimage_commit (Groups : list (list Z)) (m : runtime_map)
    : M runtime_map :=
  m' <- commit_groups Groups m ;;
  commit_singles m'.

End CommitAll.

(* two runtimes of the same sprite: all that commit_sprite leaves alone *)
Definition same_sprite (sr sr' : sprite_runtime_t) : Prop :=
  sr_sprite_slot sr' = sr_sprite_slot sr
  /\ sr_active_ti sr' = sr_active_ti sr
  /\ sr_active_sprite_on_ti sr' = sr_active_sprite_on_ti sr
  /\ sr_in_group sr' = sr_in_group sr.

(* whether every member of a group can be shown *)
Definition group_complete (m : runtime_map) (group : list Z) : bool :=
  forallb (fun p => match map_find m p with
                    | Some sr => would_be_replaced sr
                    | None => false
                    end) group.

(** * Downloads (netcode) *)

Inductive FileStatus : Type := TODO | DOWNLOADING | FAILED | DONE.

Definition FileStatus_eqb (a b : FileStatus) : bool :=
  match a, b with
  | TODO, TODO | DOWNLOADING, DOWNLOADING | FAILED, FAILED | DONE, DONE => true
  | _, _ => false
  end.

Record File : Type := mk_File {
  file_name : string;
  file_status : FileStatus;
  file_data : list Z
}.

(* File::File *)
Definition File_new (name : string) : File :=
  {| file_name := match name with
                  | String "/" rest => rest
                  | _ => name
                  end;
     file_status := TODO;
     file_data := [] |}.

(* status.compare_exchange_strong(expected, desired): whether the
   exchange took place, and the file afterwards *)
Definition compare_exchange_strong (this : File) (expected desired : FileStatus)
    : bool * File :=
  if FileStatus_eqb (file_status this) expected
  then (true, {| file_name := file_name this; file_status := desired;
                 file_data := file_data this |})
  else (false, this).

(* the bytes at [data] are the list [data], [size] its length; the result
   is the value returned and local_data afterwards *)
Definition writeCallback (this : File) (local_data data : list Z)
    : Z * list Z :=
  if FileStatus_eqb (file_status this) DONE then (0, local_data)
  else (Z.of_nat (List.length data), local_data ++ data).

Definition setDownloading (this : File) : bool * File :=
  let '(exchanged, this1) := compare_exchange_strong this TODO DOWNLOADING in
  if exchanged then (true, this1)
  else if FileStatus_eqb (file_status this1) DOWNLOADING then (true, this1)
  else (false, this1).

Definition setFailed (this : File) : File :=
  snd (compare_exchange_strong this DOWNLOADING FAILED).

Section Download.

(* libcurl: the transfer of a URL through a write callback, which is
   given local_data and a chunk; its result code and local_data at the
   end; and the response code it then reports *)
Variable curl_easy_perform :
  string -> (list Z -> list Z -> Z * list Z) -> list Z -> Z * list Z.
Variable response_code : string -> Z.
Variable CURLE_OK : Z.

(* File::download, with no other thread at work on the file *)
Definition download (this : File) (baseUrl : string) : bool * File :=
  let '(started, this1) := setDownloading this in
  if negb started then (true, this1)
  else
    let url := (baseUrl ++ file_name this1)%string in
    let '(res, local_data) :=
      curl_easy_perform url (writeCallback this1) [] in
    if negb (res =? CURLE_OK) then (false, setFailed this1)
    else if negb (response_code url =? 200) then (false, setFailed this1)
    else
      (true,
       if FileStatus_eqb (file_status this1) DOWNLOADING
          || FileStatus_eqb (file_status this1) FAILED
       then {| file_name := file_name this1; file_status := DONE;
               file_data := local_data |}
       else this1).

(* one call on a file *)
Inductive File_call : Type :=
| call_setDownloading
| call_setFailed
| call_download (baseUrl : string).

Definition File_do (this : File) (c : File_call) : File :=
  match c with
  | call_setDownloading => snd (setDownloading this)
  | call_setFailed => setFailed this
  | call_download baseUrl => snd (download this baseUrl)
  end.

End Download.

(** * Repository list (configure test) *)

(* of repo_t, declared outside the sources, only [id] is read *)
Record repo_t : Type := mk_repo {
  repo_id : string
}.

(* [repo_list] is the array as it lies in memory, None a null entry; the
   result is None when the search runs past the end of the array *)
Fixpoint find_repo_in_list (repo_list : list (option repo_t)) (id : string)
    : option (option repo_t) :=
  match repo_list with
  | [] => None
  | None :: _ => Some None
  | Some repo :: rest =>
      if String.eqb (repo_id repo) id then Some (Some repo)
      else find_repo_in_list rest id
  end.

(** Concrete data for the image, sprite and download code: two BGRA
    pixels, a 2x2 image with a 1x1 texture, a field specification, two
    registered images, a sprite of an 8-byte spec format, a file. *)
Module SampleData.

Definition FORMAT_RGB565 : Z := 3.
Definition FORMAT_ARGB4444 : Z := 5.

Definition two_pixels : list Z :=
  [0x12; 0x34; 0x56; 0x78; 0x9A; 0xBC; 0xDE; 0xF0].

(* 16 bits per pixel *)
Definition bpp2 (format : Z) : Z := 2.
Definition image : png_image_ex :=
  {| img_width := 2; img_height := 2;
     png_buf := Some [1; 2; 3; 4; 5; 6; 7; 8] |}.
Definition texture : thtx_header_t :=
  {| thtx_format := FORMAT_RGB565; thtx_w := 1; thtx_h := 1; thtx_size := 2;
     thtx_data := [0; 0] |}.

(* a texture of the image's dimensions whose size field covers one
   pixel only *)
Definition texture_whole : thtx_header_t :=
  {| thtx_format := FORMAT_RGB565; thtx_w := 2; thtx_h := 2; thtx_size := 2;
     thtx_data := [0; 0; 0; 0; 0; 0; 0; 0] |}.

Definition hex_value (j : option json_t) : Z :=
  match j with
  | Some (JSON_INTEGER z) => z
  | _ => 0
  end.
(* the 16-bit field at offset 0x10 *)
Definition field : json_t :=
  JSON_OBJECT [("offset", JSON_INTEGER 0x10); ("size", JSON_INTEGER 2)].
Definition w_regs : world := {| w_mem := Sample.mem_regs; w_events := [] |}.

Definition img (fn : string) (higher : Z) : textimage_t :=
  {| ti_fn := fn; ti_priority := 0; ti_texture_slot := 0;
     ti_sprite_slot := 1; ti_sprite_w := 16; ti_sprite_h := 16;
     ti_script_buf := 0x9000; ti_sprite_count := 1;
     ti_specs := Some [1; 2; 3; 4; 5; 6; 7; 8];
     ti_lower := 0; ti_higher := higher |}.
Definition images : list textimage_t := [img "a.png" 0x5000; img "b.png" 0].

(* TH06 with specs of 8 bytes; the sprite in slot 1 *)
Definition TH06 : Z := 6.
Definition TH07 : Z := 7.
Definition SpriteSpecs : Z := 0x7000.
Definition SpriteScripts : Z := 0x8000.
Definition sprite : sprite_runtime_t :=
  {| sr_sprite_slot := 1; sr_active_ti := Some (img "b.png" 0);
     sr_active_sprite_on_ti := 0; sr_is_ours := false; sr_in_group := false;
     sr_spec_game := [0; 0; 0; 0; 0; 0; 0; 0]; sr_script_game := 0 |}.
Definition commits (flags : list bool) : M sprite_runtime_t :=
  commit_each TH06 TH06 TH07 8 12 SpriteSpecs SpriteScripts flags sprite.
(* the same sprite in TH07, with specs of 16 bytes *)
Definition commits07 (flags : list bool) : M sprite_runtime_t :=
  commit_each TH07 TH06 TH07 8 16 SpriteSpecs SpriteScripts flags sprite.

(* three sprites: a group of two, of which the second has no image, and
   one sprite on its own *)
Definition runtime_of (slot : Z) (ti : option textimage_t) (in_group : bool)
    : sprite_runtime_t :=
  {| sr_sprite_slot := slot; sr_active_ti := ti;
     sr_active_sprite_on_ti := 0; sr_is_ours := false;
     sr_in_group := in_group;
     sr_spec_game := [0; 0; 0; 0; 0; 0; 0; 0]; sr_script_game := 0 |}.
Definition runtime : runtime_map :=
  [(0x100, runtime_of 1 (Some (img "b.png" 0)) true);
   (0x200, runtime_of 2 None true);
   (0x300, runtime_of 3 (Some (img "b.png" 0)) false)].
Definition Groups : list (list Z) := [[0x100; 0x200]].
Definition commit_all : M runtime_map :=
  textimage_commit TH06 TH06 TH07 8 12 SpriteSpecs SpriteScripts Groups
    runtime.

(* a transfer that delivers nothing and succeeds *)
Definition perform (url : string)
    (callback : list Z -> list Z -> Z * list Z) (local_data : list Z)
    : Z * list Z := (0, local_data).
Definition code (url : string) : Z := 200.
Definition finished : File :=
  {| file_name := "thpatch/lang_en/patch.js"; file_status := DONE;
     file_data := [0x7B; 0x7D] |}.

End SampleData.

(** * Properties *)

(** ** Words and memory *)

Lemma wrap_range (x : Z) : 0 <= wrap x < 2 ^ 32.
Proof. unfold wrap. apply Z.mod_pos_bound. lia. Qed.

Lemma wrap_small (x : Z) : 0 <= x < 2 ^ 32 -> wrap x = x.
Proof. intros H. unfold wrap. apply Z.mod_small. exact H. Qed.

Lemma wrap_wrap (x : Z) : wrap (wrap x) = wrap x.
Proof. apply wrap_small, wrap_range. Qed.

Lemma wrap_add_l (x y : Z) : wrap (wrap x + y) = wrap (x + y).
Proof. unfold wrap. apply Zplus_mod_idemp_l. Qed.

Lemma wrap_add_r (x y : Z) : wrap (x + wrap y) = wrap (x + y).
Proof. unfold wrap. apply Zplus_mod_idemp_r. Qed.

Lemma wrap_eq_diff (x y : Z) :
  wrap x = wrap y -> exists k, x - y = 2 ^ 32 * k.
Proof.
  unfold wrap. intros H.
  exists (x / 2 ^ 32 - y / 2 ^ 32).
  pose proof (Z.div_mod x (2 ^ 32)). pose proof (Z.div_mod y (2 ^ 32)). lia.
Qed.

Lemma wrap_neq_offset (a i j : Z) :
  0 <= i < 2 ^ 32 -> 0 <= j < 2 ^ 32 -> i <> j -> wrap (a + i) <> wrap (a + j).
Proof.
  intros Hi Hj Hne Heq. apply wrap_eq_diff in Heq. destruct Heq as [k Hk]. lia.
Qed.

Lemma load8_range (m : memory) (a : Z) : 0 <= load8 m a < 256.
Proof. unfold load8. apply Z.mod_pos_bound. lia. Qed.

Lemma load8_wrap (m : memory) (a b : Z) : wrap a = wrap b -> load8 m a = load8 m b.
Proof. unfold load8. intros ->. reflexivity. Qed.

Lemma load8_store8_same (m : memory) (a b v : Z) :
  wrap b = wrap a -> load8 (store8 m a v) b = v mod 256.
Proof.
  intros H. unfold load8, store8. rewrite H, Z.eqb_refl.
  apply Z.mod_small, Z.mod_pos_bound. lia.
Qed.

Lemma load8_store8_other (m : memory) (a b v : Z) :
  wrap b <> wrap a -> load8 (store8 m a v) b = load8 m b.
Proof.
  intros H. unfold load8, store8.
  destruct (Z.eqb_spec (wrap b) (wrap a)); [contradiction | reflexivity].
Qed.

Lemma load8_store_bytes_out (bs : list Z) (m : memory) (a x : Z) :
  (forall i, 0 <= i < Z.of_nat (List.length bs) -> wrap (a + i) <> wrap x) ->
  load8 (store_bytes m a bs) x = load8 m x.
Proof.
  revert m a. induction bs as [|b rest IH]; intros m a H; simpl.
  - reflexivity.
  - rewrite IH.
    + apply load8_store8_other. intros E. apply (H 0).
      * simpl List.length. lia.
      * rewrite Z.add_0_r. symmetry. exact E.
    + intros i Hi. replace (a + 1 + i) with (a + (i + 1)) by lia.
      apply H. simpl List.length. lia.
Qed.

Lemma load8_store_bytes_in (bs : list Z) (m : memory) (a i : Z) :
  Z.of_nat (List.length bs) <= 2 ^ 32 ->
  0 <= i < Z.of_nat (List.length bs) ->
  load8 (store_bytes m a bs) (a + i) = nth (Z.to_nat i) bs 0 mod 256.
Proof.
  revert m a i. induction bs as [|b rest IH]; intros m a i Hlen Hi.
  - simpl in Hi. lia.
  - simpl List.length in *. simpl store_bytes.
    destruct (Z.eq_dec i 0) as [-> | Hnz].
    + rewrite Z.add_0_r. simpl. rewrite load8_store_bytes_out.
      * apply load8_store8_same. reflexivity.
      * intros j Hj. replace (a + 1 + j) with (a + (j + 1)) by lia.
        replace a with (a + 0) at 2 by lia.
        apply wrap_neq_offset; lia.
    + replace (a + i) with (a + 1 + (i - 1)) by lia.
      rewrite IH by lia.
      replace (Z.to_nat i) with (S (Z.to_nat (i - 1))) by lia.
      reflexivity.
Qed.

Lemma load_bytes_length (m : memory) (n : nat) (a : Z) :
  List.length (load_bytes m a n) = n.
Proof. revert a. induction n; intros a; simpl; [reflexivity | now rewrite IHn]. Qed.

Lemma load_bytes_nth (m : memory) (n : nat) (a i : Z) :
  0 <= i < Z.of_nat n ->
  nth (Z.to_nat i) (load_bytes m a n) 0 = load8 m (a + i).
Proof.
  revert a i. induction n as [|n IH]; intros a i Hi.
  - simpl in Hi. lia.
  - simpl load_bytes. destruct (Z.eq_dec i 0) as [-> | Hnz].
    + simpl. now rewrite Z.add_0_r.
    + replace (Z.to_nat i) with (S (Z.to_nat (i - 1))) by lia.
      simpl nth. rewrite IH by lia. f_equal. lia.
Qed.

(* memmove: the destination holds what the source held before *)
Lemma memmove_dst (m : memory) (dst src n i : Z) :
  n <= 2 ^ 32 -> 0 <= i < n ->
  load8 (memmove m dst src n) (dst + i) = load8 m (src + i).
Proof.
  intros Hn Hi. unfold memmove.
  rewrite load8_store_bytes_in; rewrite ?load_bytes_length; try lia.
  rewrite load_bytes_nth by lia.
  apply Z.mod_small, load8_range.
Qed.

Lemma memmove_other (m : memory) (dst src n x : Z) :
  (forall i, 0 <= i < n -> wrap (dst + i) <> wrap x) ->
  load8 (memmove m dst src n) x = load8 m x.
Proof.
  intros H. unfold memmove. apply load8_store_bytes_out.
  intros i Hi. rewrite load_bytes_length in Hi. apply H. lia.
Qed.

Lemma le32_sum (v : Z) :
  v mod 256 + 2 ^ 8 * ((v / 2 ^ 8) mod 256)
  + 2 ^ 16 * ((v / 2 ^ 16) mod 256) + 2 ^ 24 * ((v / 2 ^ 24) mod 256)
  = wrap v.
Proof.
  unfold wrap.
  change (2 ^ 16) with (2 ^ 8 * 2 ^ 8).
  change (2 ^ 24) with (2 ^ 8 * 2 ^ 8 * 2 ^ 8).
  change (2 ^ 32) with (2 ^ 8 * (2 ^ 8 * (2 ^ 8 * 2 ^ 8))).
  rewrite <- !Z.div_div by lia.
  rewrite !Z.rem_mul_r by lia.
  change (2 ^ 8) with 256. lia.
Qed.

Lemma load32_range (m : memory) (a : Z) : 0 <= load32 m a < 2 ^ 32.
Proof.
  unfold load32.
  pose proof (load8_range m a). pose proof (load8_range m (a + 1)).
  pose proof (load8_range m (a + 2)). pose proof (load8_range m (a + 3)). lia.
Qed.

Lemma load32_store32_same (m : memory) (a v : Z) :
  load32 (store32 m a v) a = wrap v.
Proof.
  unfold load32, store32.
  assert (L : forall i, 0 <= i < 4 ->
            load8 (store_bytes m a (le32 v)) (a + i)
            = nth (Z.to_nat i) (le32 v) 0 mod 256).
  { intros i Hi. apply load8_store_bytes_in; simpl; lia. }
  replace a with (a + 0) at 2 by lia.
  rewrite !L by lia.
  change (Z.to_nat 0) with 0%nat. change (Z.to_nat 1) with 1%nat.
  change (Z.to_nat 2) with 2%nat. change (Z.to_nat 3) with 3%nat.
  cbn [nth le32]. rewrite !Z.mod_mod by lia. apply le32_sum.
Qed.

Lemma load8_store32_other (m : memory) (a v x : Z) :
  (forall k, 0 <= k < 4 -> wrap (a + k) <> wrap x) ->
  load8 (store32 m a v) x = load8 m x.
Proof.
  intros H. unfold store32. apply load8_store_bytes_out.
  intros i Hi. apply H. simpl in Hi. lia.
Qed.

Lemma load32_store32_other (m : memory) (a v b : Z) :
  (forall k j, 0 <= k < 4 -> 0 <= j < 4 -> wrap (a + k) <> wrap (b + j)) ->
  load32 (store32 m a v) b = load32 m b.
Proof.
  intros H. unfold load32.
  rewrite !load8_store32_other; try reflexivity;
    intros k Hk; try (apply H; lia).
  replace b with (b + 0) by lia. apply H; lia.
Qed.

Lemma load32_memmove_dst (m : memory) (dst src n off : Z) :
  n <= 2 ^ 32 -> 0 <= off -> off + 4 <= n ->
  load32 (memmove m dst src n) (dst + off) = load32 m (src + off).
Proof.
  intros Hn H0 H4. unfold load32.
  replace (dst + off) with (dst + (off + 0)) at 1 by lia.
  replace (dst + off + 1) with (dst + (off + 1)) by lia.
  replace (dst + off + 2) with (dst + (off + 2)) by lia.
  replace (dst + off + 3) with (dst + (off + 3)) by lia.
  rewrite !memmove_dst by lia.
  rewrite Z.add_0_r, !Z.add_assoc. reflexivity.
Qed.

(** ** Relocation fix-up *)

(** C2.  When the first byte of the cave is 0xE8 or 0xE9, [cave_fix]
    rewrites the 32-bit displacement at offset 1 to
    old + originalAddress - caveAddress (mod 2^32), so the instruction
    reaches the same absolute target from its new place, and it leaves
    every byte outside that displacement as it was; for any other first
    byte the memory is returned unchanged. *)
Theorem cave_fix_relocates (m : memory) (cave bp_addr : Z) :
  (load8 m cave = x86_CALL_NEAR_REL32 \/ load8 m cave = x86_JMP_NEAR_REL32 ->
   let dist_old := load32 m (cave + 1) in
   let m' := cave_fix m cave bp_addr in
   load32 m' (cave + 1) = wrap (dist_old + bp_addr - cave)
   /\ wrap (cave + 5 + load32 m' (cave + 1)) = wrap (bp_addr + 5 + dist_old)
   /\ forall x, (forall k, 1 <= k <= 4 -> wrap (cave + k) <> wrap x) ->
                load8 m' x = load8 m x)
  /\ (load8 m cave <> x86_CALL_NEAR_REL32 ->
      load8 m cave <> x86_JMP_NEAR_REL32 ->
      cave_fix m cave bp_addr = m).
Proof.
  split.
  - intros Hop dist_old m'.
    assert (Hm' : m' = store32 m (cave + 1) (wrap (dist_old + bp_addr - cave))).
    { unfold m', cave_fix.
      destruct Hop as [-> | ->]; reflexivity. }
    assert (Hnew : load32 m' (cave + 1) = wrap (dist_old + bp_addr - cave)).
    { rewrite Hm', load32_store32_same. apply wrap_wrap. }
    split; [exact Hnew |]. split.
    + rewrite Hnew, wrap_add_r. f_equal. lia.
    + intros x Hx. rewrite Hm'. apply load8_store32_other.
      intros k Hk. replace (cave + 1 + k) with (cave + (k + 1)) by lia.
      apply Hx. lia.
  - intros H1 H2. unfold cave_fix.
    destruct (Z.eqb_spec (load8 m cave) x86_CALL_NEAR_REL32); [contradiction |].
    destruct (Z.eqb_spec (load8 m cave) x86_JMP_NEAR_REL32); [contradiction |].
    reflexivity.
Qed.

Lemma cave_fix_relocates_witness :
  load32 (cave_fix Sample.mem_call Sample.cave 0x401000) (Sample.cave + 1)
  = wrap (0x100 + 0x401000 - 0x5000)
  /\ cave_fix Sample.mem_push Sample.cave 0x401000 = Sample.mem_push.
Proof.
  split.
  - apply (cave_fix_relocates Sample.mem_call Sample.cave 0x401000).
    left. vm_compute. reflexivity.
  - apply (cave_fix_relocates Sample.mem_push Sample.cave 0x401000).
    + vm_compute. discriminate.
    + vm_compute. discriminate.
Defined.

(** ** Runtime dispatcher *)

Section DispatcherFacts.

Variable sizeof_x86_reg_t : Z.
Variable off_esp : Z.
Variable off_retaddr : Z.

(* esp and retaddr are two distinct pointer-sized fields of the struct *)
Hypothesis esp_in : 0 <= off_esp /\ off_esp + 4 <= sizeof_x86_reg_t.
Hypothesis retaddr_in : 0 <= off_retaddr /\ off_retaddr + 4 <= sizeof_x86_reg_t.
Hypothesis fields_apart : off_esp + 4 <= off_retaddr \/ off_retaddr + 4 <= off_esp.
Hypothesis size_fits : sizeof_x86_reg_t <= 2 ^ 32.

Let process := breakpoint_process sizeof_x86_reg_t off_esp off_retaddr.


Lemma esp_after_handler (cave_exec : Z) (m1 : memory) (cave_addr regs : Z) :
  load32 (after_handler off_retaddr cave_exec m1 cave_addr regs) (regs + off_esp)
  = load32 m1 (regs + off_esp).
Proof.
  unfold after_handler. destruct (cave_exec =? 0); [reflexivity |].
  apply load32_store32_other. intros k j Hk Hj.
  replace (regs + off_retaddr + k) with (regs + (off_retaddr + k)) by lia.
  replace (regs + off_esp + j) with (regs + (off_esp + j)) by lia.
  apply wrap_neq_offset; lia.
Qed.

Lemma process_unfold (bp : breakpoint_local_t) (f : BreakpointFunc_t)
    (cave_addr regs : Z) (m m1 : memory) (cave_exec : Z) :
  bp_func bp = Some f ->
  f m regs (bp_json_obj bp) = (cave_exec, m1) ->
  let m2 := after_handler off_retaddr cave_exec m1 cave_addr regs in
  let esp_prev := load32 m (regs + off_esp) in
  let esp := load32 m1 (regs + off_esp) in
  process bp cave_addr regs m
  = if esp_prev =? esp then Some (0, m2)
    else Some (wrap (esp - esp_prev),
               memmove m2 (regs + wrap (esp - esp_prev)) regs sizeof_x86_reg_t).
Proof.
  intros Hf Hrun m2 esp_prev esp.
  pose proof (esp_after_handler cave_exec m1 cave_addr regs) as Hesp.
  unfold process, breakpoint_process. rewrite Hf, Hrun.
  change (if cave_exec =? 0 then m1
          else store32 m1 (regs + off_retaddr) cave_addr) with m2.
  fold m2 in Hesp. rewrite !Hesp. reflexivity.
Qed.

(** C1.  The stack pointer is read before the handler runs.  If the
    handler leaves it equal, the dispatcher returns 0 and performs no
    move; otherwise it returns delta = new - old in machine words and
    the whole snapshot is found delta bytes further: byte i of the
    snapshot is at regs + delta + i, for every i below its size. *)
Theorem breakpoint_process_stack_adjust (bp : breakpoint_local_t)
    (f : BreakpointFunc_t) (cave_addr regs : Z) (m m1 : memory)
    (cave_exec : Z) :
  bp_func bp = Some f ->
  f m regs (bp_json_obj bp) = (cave_exec, m1) ->
  let m2 := after_handler off_retaddr cave_exec m1 cave_addr regs in
  let esp_prev := load32 m (regs + off_esp) in
  let esp := load32 m1 (regs + off_esp) in
  (esp = esp_prev -> process bp cave_addr regs m = Some (0, m2))
  /\ (esp <> esp_prev ->
      exists m',
        process bp cave_addr regs m = Some (wrap (esp - esp_prev), m')
        /\ (forall i, 0 <= i < sizeof_x86_reg_t ->
              load8 m' (regs + wrap (esp - esp_prev) + i) = load8 m2 (regs + i))
        /\ (forall x,
              (forall i, 0 <= i < sizeof_x86_reg_t ->
                 wrap (regs + wrap (esp - esp_prev) + i) <> wrap x) ->
              load8 m' x = load8 m2 x)).
Proof.
  intros Hf Hrun m2 esp_prev esp.
  pose proof (process_unfold bp f cave_addr regs m m1 cave_exec Hf Hrun) as E.
  cbv zeta in E. fold m2 esp_prev esp in E.
  split.
  - intros Heq. rewrite E, Heq, Z.eqb_refl. reflexivity.
  - intros Hne. rewrite E.
    destruct (Z.eqb_spec esp_prev esp) as [Heq | _]; [congruence |].
    eexists. split; [reflexivity |]. split.
    + intros i Hi. apply memmove_dst; lia.
    + intros x Hx. apply memmove_other. exact Hx.
Qed.

(** C3.  With a nonzero handler result the resume-address field of the
    snapshot, at the place the dispatcher leaves the snapshot, holds the
    source-cave address; with a zero result it holds what the handler
    left there. *)
Theorem breakpoint_process_retaddr (bp : breakpoint_local_t)
    (f : BreakpointFunc_t) (cave_addr regs : Z) (m m1 : memory)
    (cave_exec : Z) :
  bp_func bp = Some f ->
  f m regs (bp_json_obj bp) = (cave_exec, m1) ->
  exists esp_diff m',
    process bp cave_addr regs m = Some (esp_diff, m')
    /\ (cave_exec <> 0 ->
        load32 m' (regs + esp_diff + off_retaddr) = wrap cave_addr)
    /\ (cave_exec = 0 ->
        load32 m' (regs + esp_diff + off_retaddr)
        = load32 m1 (regs + off_retaddr)).
Proof.
  intros Hf Hrun.
  pose proof (process_unfold bp f cave_addr regs m m1 cave_exec Hf Hrun) as E.
  cbv zeta in E.
  set (m2 := after_handler off_retaddr cave_exec m1 cave_addr regs) in *.
  assert (Hm2 : (cave_exec <> 0 -> load32 m2 (regs + off_retaddr) = wrap cave_addr)
                /\ (cave_exec = 0 -> load32 m2 (regs + off_retaddr)
                                     = load32 m1 (regs + off_retaddr))).
  { unfold m2, after_handler. split; intros Hc.
    - destruct (Z.eqb_spec cave_exec 0); [contradiction |].
      apply load32_store32_same.
    - subst cave_exec. reflexivity. }
  destruct (load32 m (regs + off_esp) =? load32 m1 (regs + off_esp)).
  - exists 0, m2. split; [exact E |].
    replace (regs + 0 + off_retaddr) with (regs + off_retaddr) by lia.
    exact Hm2.
  - eexists _, _. split; [exact E |].
    set (d := wrap (load32 m1 (regs + off_esp) - load32 m (regs + off_esp))).
    assert (Hmove : load32 (memmove m2 (regs + d) regs sizeof_x86_reg_t)
                      (regs + d + off_retaddr)
                    = load32 m2 (regs + off_retaddr)).
    { apply load32_memmove_dst.
      - exact size_fits.
      - apply retaddr_in.
      - apply retaddr_in. }
    rewrite Hmove. exact Hm2.
Qed.

End DispatcherFacts.

Lemma breakpoint_process_stack_adjust_witness :
  exists m',
    breakpoint_process Sample.sizeof_x86_reg_t Sample.off_esp Sample.off_retaddr
      (Sample.bp_with Sample.push8) Sample.cave Sample.regs Sample.mem_regs
    = Some (wrap (0x1FF8 - 0x2000), m')
    /\ forall i, 0 <= i < Sample.sizeof_x86_reg_t ->
         load8 m' (Sample.regs + wrap (0x1FF8 - 0x2000) + i)
         = load8 (after_handler Sample.off_retaddr 1
                    (snd (Sample.push8 Sample.mem_regs Sample.regs (JSON_OBJECT [])))
                    Sample.cave Sample.regs)
                 (Sample.regs + i).
Proof.
  destruct (breakpoint_process_stack_adjust
              Sample.sizeof_x86_reg_t Sample.off_esp Sample.off_retaddr
              ltac:(vm_compute; split; discriminate)
              ltac:(vm_compute; split; discriminate)
              ltac:(left; vm_compute; discriminate)
              ltac:(vm_compute; discriminate)
              (Sample.bp_with Sample.push8) Sample.push8 Sample.cave Sample.regs
              Sample.mem_regs
              (snd (Sample.push8 Sample.mem_regs Sample.regs (JSON_OBJECT [])))
              1 eq_refl eq_refl) as [_ Hmove].
  destruct Hmove as [m' [Hrun [Hin _]]].
  - vm_compute. discriminate.
  - exists m'. split; [exact Hrun | exact Hin].
Defined.

Lemma breakpoint_process_retaddr_witness :
  exists esp_diff m',
    breakpoint_process Sample.sizeof_x86_reg_t Sample.off_esp Sample.off_retaddr
      (Sample.bp_with Sample.push8) Sample.cave Sample.regs Sample.mem_regs
    = Some (esp_diff, m')
    /\ load32 m' (Sample.regs + esp_diff + Sample.off_retaddr) = Sample.cave.
Proof.
  destruct (breakpoint_process_retaddr
              Sample.sizeof_x86_reg_t Sample.off_esp Sample.off_retaddr
              ltac:(vm_compute; split; discriminate)
              ltac:(vm_compute; split; discriminate)
              ltac:(left; vm_compute; discriminate)
              ltac:(vm_compute; discriminate)
              (Sample.bp_with Sample.push8) Sample.push8 Sample.cave Sample.regs
              Sample.mem_regs
              (snd (Sample.push8 Sample.mem_regs Sample.regs (JSON_OBJECT [])))
              1 eq_refl eq_refl) as [d [m' [Hrun [Hset _]]]].
  exists d, m'. split; [exact Hrun |].
  apply Hset. discriminate.
Defined.

(** ** Breakpoint registry model *)

Section RegistryFacts.

Variable eval_bool : option json_t -> string -> bool -> jeval_flags -> bool.
Variable eval_int : option json_t -> string -> jeval_flags -> jeval_error_t * Z.
Variable addrs_from_json : option json_t -> option (list hackpoint_addr_t).

Let from_json := breakpoint_from_json eval_bool eval_int addrs_from_json.

(* case analysis on the two guards that precede the cavesize switch *)
Ltac guards :=
  match goal with
  | |- context [json_is_object ?j] =>
      destruct (json_is_object j); simpl negb; cbv iota;
      [ match goal with
        | |- context [eval_bool ?a ?b ?c ?d] => destruct (eval_bool a b c d)
        end | ];
      try reflexivity
  end.

(** C9.  A configuration whose "ignore" key evaluates to true is
    rejected whatever its other fields hold, and [*out] is not written. *)
Theorem breakpoint_from_json_ignore (name : string) (in_ : option json_t)
    (out : breakpoint_local_t) :
  eval_bool in_ "ignore" false JEVAL_DEFAULT = true ->
  from_json name in_ out = (false, out).
Proof.
  intros Hign. unfold from_json, breakpoint_from_json.
  destruct (json_is_object in_); simpl; [| reflexivity].
  rewrite Hign. reflexivity.
Qed.

(** C4 (amended).  Construction fails, leaving [*out] untouched, when the
    configuration is not an object, when "ignore" evaluates to true,
    when no cavesize is present, when the cavesize has an invalid type,
    when it is below CALL_LEN, or when no address parses; in every other
    case it succeeds and stores the name, the cavesize, the configuration
    reference and the address list, with a null handler. *)
Theorem breakpoint_from_json_cases (name : string) (in_ : option json_t)
    (out : breakpoint_local_t) :
  let r := from_json name in_ out in
  let ev := eval_int in_ "cavesize" JEVAL_STRICT in
  let parsed := addrs_from_json (json_object_get in_ "addr") in
  (json_is_object in_ = false -> r = (false, out))
  /\ (eval_bool in_ "ignore" false JEVAL_DEFAULT = true -> r = (false, out))
  /\ (fst ev = JEVAL_NULL_PTR -> r = (false, out))
  /\ ((exists code, fst ev = JEVAL_OTHER code) -> r = (false, out))
  /\ (fst ev = JEVAL_SUCCESS -> wrap (snd ev) < CALL_LEN -> r = (false, out))
  /\ (parsed = None -> r = (false, out))
  /\ (forall obj addrs,
        in_ = Some obj ->
        json_is_object in_ = true ->
        eval_bool in_ "ignore" false JEVAL_DEFAULT = false ->
        fst ev = JEVAL_SUCCESS ->
        CALL_LEN <= wrap (snd ev) ->
        parsed = Some addrs ->
        r = (true, {| bp_name := name; bp_cavesize := wrap (snd ev);
                      bp_json_obj := obj; bp_func := None;
                      bp_addr := addrs |})).
Proof.
  intros r ev parsed. unfold r, from_json, breakpoint_from_json.
  fold ev. fold parsed.
  repeat split.
  - intros ->. reflexivity.
  - intros ->. destruct (json_is_object in_); reflexivity.
  - intros Hev. destruct ev as [e v]; simpl in Hev; subst e.
    guards; reflexivity.
  - intros [code Hev]. destruct ev as [e v]; simpl in Hev; subst e.
    guards; reflexivity.
  - intros Hev Hlt. destruct ev as [e v]; simpl in Hev, Hlt; subst e.
    apply Z.ltb_lt in Hlt. rewrite Hlt.
    guards; reflexivity.
  - intros ->.
    guards.
    destruct ev as [[| |code] v]; try reflexivity.
    destruct (wrap v <? CALL_LEN); reflexivity.
  - intros obj addrs Hin Hobj Hign Hev Hge Hparsed.
    rewrite Hobj, Hign, Hparsed. simpl negb. cbv iota.
    destruct ev as [e v]; simpl in Hev, Hge |- *; subst e.
    apply Z.ltb_ge in Hge. rewrite Hge, Hin. reflexivity.
Qed.

End RegistryFacts.

Lemma breakpoint_from_json_ignore_witness :
  breakpoint_from_json Sample.eval_bool_default Sample.eval_int
    Sample.addrs_from_json "th_hook" (Some Sample.cfg_ignored) Sample.out0
  = (false, Sample.out0).
Proof.
  apply (breakpoint_from_json_ignore Sample.eval_bool_default Sample.eval_int
           Sample.addrs_from_json "th_hook" (Some Sample.cfg_ignored) Sample.out0).
  reflexivity.
Defined.

(* The same description without the key is accepted. *)
Example breakpoint_from_json_accepts :
  breakpoint_from_json Sample.eval_bool_default Sample.eval_int
    Sample.addrs_from_json "th_hook" (Some Sample.cfg_ok) Sample.out0
  = (true, {| bp_name := "th_hook"; bp_cavesize := 6;
              bp_json_obj := Sample.cfg_ok; bp_func := None;
              bp_addr := [mk_addr RAW_ADDR 0x401000] |}).
Proof. reflexivity. Qed.

(** C4, as stated, fails: none of the five listed conditions holds for
    this configuration (it is an object, its cavesize is present, an
    integer and not below CALL_LEN, and an address parses), yet
    construction fails. *)
Lemma breakpoint_from_json_counterexample :
  let in_ := Some Sample.cfg_ignored in
  let ev := Sample.eval_int in_ "cavesize" JEVAL_STRICT in
  json_is_object in_ = true
  /\ fst ev = JEVAL_SUCCESS
  /\ ~ wrap (snd ev) < CALL_LEN
  /\ Sample.addrs_from_json (json_object_get in_ "addr") <> None
  /\ fst (breakpoint_from_json Sample.eval_bool_default Sample.eval_int
            Sample.addrs_from_json "th_hook" in_ Sample.out0) = false.
Proof.
  cbv zeta. repeat split; try reflexivity.
  - vm_compute. discriminate.
  - vm_compute. discriminate.
Qed.

(** ** Setup: the monad *)

Lemma bind_done {A B : Type} (c : M A) (k : A -> M B) (w w' : world) (a : A) :
  c w = Done a w' -> bind c k w = k a w'.
Proof. intros H. unfold bind. now rewrite H. Qed.

Lemma bind_fault {A B : Type} (c : M A) (k : A -> M B) (w w' : world) :
  c w = Fault w' -> bind c k w = Fault w'.
Proof. intros H. unfold bind. now rewrite H. Qed.

Lemma mem_store_done (p off : Z) (bs : list Z) (w : world) :
  is_null p = false ->
  mem_store p off bs w
  = Done tt (mk_world (store_bytes (w_mem w) (p + off) bs) (w_events w)).
Proof. intros H. unfold mem_store. rewrite H. reflexivity. Qed.

Lemma mem_store_null (p off : Z) (bs : list Z) (w : world) :
  is_null p = true -> mem_store p off bs w = Fault w.
Proof. intros H. unfold mem_store. rewrite H. reflexivity. Qed.

Lemma is_null_false (p : Z) : 0 < p < 2 ^ 32 -> is_null p = false.
Proof.
  intros H. unfold is_null. rewrite wrap_small by lia. apply Z.eqb_neq. lia.
Qed.

(** ** Alignment *)

Lemma land_high_mask (y : Z) :
  0 <= y < 2 ^ 32 -> Z.land y (wrap (- 16)) = 16 * (y / 16).
Proof.
  intros Hy.
  assert (Hmask : wrap (- 16) = Z.ldiff (Z.ones 32) (Z.ones 4)) by reflexivity.
  rewrite Hmask.
  assert (E : Z.land y (Z.ldiff (Z.ones 32) (Z.ones 4))
              = Z.ldiff (Z.land y (Z.ones 32)) (Z.ones 4)).
  { apply Z.bits_inj'. intros n Hn.
    rewrite Z.land_spec, !Z.ldiff_spec, Z.land_spec.
    destruct (Z.testbit y n), (Z.testbit (Z.ones 32) n),
      (Z.testbit (Z.ones 4) n); reflexivity. }
  rewrite E, Z.land_ones by lia.
  rewrite (Z.mod_small y (2 ^ 32)) by lia.
  rewrite Z.ldiff_ones_r by lia.
  rewrite Z.shiftl_mul_pow2, Z.shiftr_div_pow2 by lia.
  change (2 ^ 4) with 16. lia.
Qed.

Lemma align16_arith (x : Z) :
  0 <= x -> x + 15 < 2 ^ 32 ->
  AlignUpToMultipleOf2 x 16 = 16 * ((x + 15) / 16).
Proof.
  intros H0 H1. unfold AlignUpToMultipleOf2.
  change (16 - 1) with 15.
  rewrite (wrap_small (x + 15)) by lia.
  apply land_high_mask. lia.
Qed.

Lemma align16_bounds (x : Z) :
  0 <= x -> x + 15 < 2 ^ 32 ->
  x <= AlignUpToMultipleOf2 x 16 < x + 16
  /\ AlignUpToMultipleOf2 x 16 mod 16 = 0.
Proof.
  intros H0 H1. rewrite align16_arith by lia.
  pose proof (Z.div_mod (x + 15) 16 ltac:(lia)).
  pose proof (Z.mod_pos_bound (x + 15) 16 ltac:(lia)).
  split; [lia |].
  rewrite Z.mul_comm. apply Z.mod_mul. lia.
Qed.

Lemma align16_nonneg (x : Z) : 0 <= AlignUpToMultipleOf2 x 16.
Proof.
  unfold AlignUpToMultipleOf2. apply Z.land_nonneg. left. apply wrap_range.
Qed.

(** ** Setup: the layout pass *)

Section ApplyFacts.

Variable func_get : string -> option BreakpointFunc_t.
Variable VirtualCheckRegion : Z -> Z -> bool.
Variable VirtualAlloc_result : list event -> Z -> Z.
Variable bp_entry : list Z.
Variable bp_entry_cave : Z.
Variable bp_entry_local : Z.
Variable bp_entry_call : Z.
Variable breakpoint_process_addr : Z.
Variable bp_ptr : nat -> Z.
Variable BINHACK_BUFSIZE_MIN : Z.
Variable hMod : Z.

Local Abbreviation found := (handler_found func_get).
Local Abbreviation valid := (valid_addrs func_get VirtualCheckRegion).
Local Abbreviation active := (is_active func_get VirtualCheckRegion).
Local Abbreviation src_total := (source_total func_get VirtualCheckRegion).
Local Abbreviation addr_total := (valid_total func_get VirtualCheckRegion).
Local Abbreviation act_count := (active_count func_get VirtualCheckRegion).
Local Abbreviation the_plan := (plan func_get VirtualCheckRegion bp_entry).
Local Abbreviation entry_size := (bp_entry_size bp_entry).
Local Abbreviation laid_out := (laid_out func_get VirtualCheckRegion).
Local Abbreviation size_entry := (size_entry func_get VirtualCheckRegion).
Local Abbreviation advance := (advance func_get VirtualCheckRegion).
Local Abbreviation few_valid := (few_valid func_get VirtualCheckRegion).

Lemma eval_range (a : hackpoint_addr_t) : 0 <= eval_hackpoint_addr a < 2 ^ 32.
Proof.
  unfold eval_hackpoint_addr. destruct (addr_type a).
  - apply wrap_range.
  - lia.
Qed.

Lemma layout_addrs_spec (cavesize : Z) (addrs : list hackpoint_addr_t) :
  forall n t addrs' n' t',
    0 <= n < 2 ^ 32 -> 0 <= t < 2 ^ 32 ->
    layout_addrs VirtualCheckRegion hMod cavesize addrs n t = (addrs', n', t') ->
    n' = wrap (n + Z.of_nat (List.length
                               (filter (addr_valid VirtualCheckRegion cavesize) addrs)))
    /\ t' = wrap (t + Z.of_nat (List.length
                                 (filter (addr_valid VirtualCheckRegion cavesize) addrs))
                      * AlignUpToMultipleOf2 (wrap (cavesize + CALL_LEN)) 16)
    /\ filter nonnull addrs' = filter (addr_valid VirtualCheckRegion cavesize) addrs.
Proof.
  induction addrs as [|a rest IH]; intros n t addrs' n' t' Hn Ht E; simpl in E.
  - inversion E; subst. simpl. rewrite !Z.add_0_r, !wrap_small by lia. auto.
  - destruct (eval_hackpoint_addr a =? 0) eqn:E0.
    + destruct (layout_addrs _ _ _ rest n t) as [[r c] s] eqn:ER.
      inversion E; subst; clear E.
      assert (Hv : addr_valid VirtualCheckRegion cavesize a = false)
        by (unfold addr_valid; rewrite E0; reflexivity).
      assert (Hnn : nonnull a = false) by (unfold nonnull; rewrite E0; reflexivity).
      simpl filter. rewrite Hv, Hnn. apply (IH _ _ _ _ _ Hn Ht ER).
    + destruct (VirtualCheckRegion (eval_hackpoint_addr a) cavesize) eqn:EV;
        simpl negb in E; cbv iota in E.
      * destruct (layout_addrs _ _ _ rest _ _) as [[r c] s] eqn:ER.
        inversion E; subst; clear E.
        assert (Hv : addr_valid VirtualCheckRegion cavesize a = true)
          by (unfold addr_valid; rewrite E0, EV; reflexivity).
        assert (Hnn : nonnull a = true) by (unfold nonnull; rewrite E0; reflexivity).
        simpl filter. rewrite Hv, Hnn.
        destruct (IH _ _ _ _ _ (wrap_range _) (wrap_range _) ER) as [Hc [Hs Hf]].
        simpl List.length. rewrite Hc, Hs, Hf.
        rewrite !wrap_add_l. repeat split; f_equal; lia.
      * destruct (layout_addrs _ _ _ rest n t) as [[r c] s] eqn:ER.
        inversion E; subst; clear E.
        assert (Hv : addr_valid VirtualCheckRegion cavesize a = false)
          by (unfold addr_valid; rewrite E0, EV; reflexivity).
        simpl filter. rewrite Hv.
        apply (IH _ _ _ _ _ Hn Ht ER).
Qed.

Lemma breakpoint_local_init_done (bp : breakpoint_local_t) (w : world) :
  name_fits bp ->
  breakpoint_local_init func_get bp w
  = Done (found bp,
          {| bp_name := bp_name bp; bp_cavesize := bp_cavesize bp;
             bp_json_obj := bp_json_obj bp;
             bp_func := match breakpoint_key (bp_name bp) with
                        | Some key => func_get key
                        | None => None
                        end;
             bp_addr := bp_addr bp |}) w.
Proof.
  unfold name_fits, breakpoint_local_init, handler_found. intros H.
  destruct (breakpoint_key (bp_name bp)) as [key|]; [| contradiction].
  reflexivity.
Qed.

Lemma breakpoint_local_init_fault (bp : breakpoint_local_t) (w : world) :
  breakpoint_key (bp_name bp) = None ->
  breakpoint_local_init func_get bp w = Fault w.
Proof. unfold breakpoint_local_init. intros ->. reflexivity. Qed.

Lemma valid_length_le (bp : breakpoint_local_t) :
  (List.length (valid bp) <= List.length (bp_addr bp))%nat.
Proof.
  unfold valid_addrs. destruct (found bp); simpl; [| lia].
  rewrite length_map. apply filter_length_le.
Qed.

Lemma short_few (bps : list breakpoint_local_t) :
  Forall short_addrs bps -> Forall few_valid bps.
Proof.
  apply Forall_impl. intros bp H. unfold few_valid, short_addrs in *.
  pose proof (valid_length_le bp). lia.
Qed.

Lemma advance_in_range (lay : layout_t) (bps : list breakpoint_local_t) :
  in_range (advance lay bps).
Proof. unfold in_range, advance; simpl. auto using wrap_range. Qed.

Lemma layout_step_spec (bp : breakpoint_local_t) (lay : layout_t) (w : world) :
  name_fits bp -> few_valid bp -> in_range lay ->
  exists bp',
    layout_step func_get VirtualCheckRegion hMod bp lay w
    = Done (bp', size_entry bp, advance lay [bp]) w
    /\ laid_out bp bp'.
Proof.
  intros Hfit Hshort (Hs & Hc & Ht).
  unfold layout_step.
  rewrite (bind_done _ _ _ _ _ (breakpoint_local_init_done bp w Hfit)).
  cbv beta iota.
  unfold few_valid in Hshort.
  unfold size_entry, advance, laid_out.
  simpl source_total. simpl active_count. simpl valid_total.
  unfold is_active, valid_addrs in *.
  destruct (found bp) eqn:Ef; cbn [negb].
  - cbn [bp_cavesize bp_addr bp_name bp_json_obj bp_func].
    destruct (layout_addrs _ _ _ _ _ _) as [[addrs' n'] t'] eqn:EL.
    assert (H00 : 0 <= 0 < 2 ^ 32) by lia.
    destruct (layout_addrs_spec _ _ _ _ _ _ _ H00 Hs EL) as [Hn [Htot Hfil]].
    rewrite Z.add_0_l in Hn.
    rewrite length_map in *.
    set (V := filter (addr_valid VirtualCheckRegion (bp_cavesize bp)) (bp_addr bp)) in *.
    rewrite wrap_small in Hn by lia.
    destruct V as [|v V'] eqn:EV.
    + simpl in Hn. subst n'. rewrite Z.eqb_refl.
      eexists. split.
      * unfold ret. f_equal. f_equal. simpl map. simpl List.length.
        simpl in Htot. rewrite Htot.
        f_equal; rewrite ?Z.add_0_r; try reflexivity;
          symmetry; apply wrap_small; assumption.
      * simpl. split; [reflexivity |]. intros _. rewrite Hfil. reflexivity.
    + assert (Hnz : (n' =? 0) = false).
      { apply Z.eqb_neq. rewrite Hn. simpl List.length. lia. }
      rewrite Hnz. eexists. split.
      * unfold ret. f_equal. f_equal. simpl map.
        rewrite Htot, Hn. unfold slot_size. simpl List.length.
        f_equal; f_equal; lia.
      * simpl. split; [reflexivity |]. intros _. rewrite Hfil. reflexivity.
  - eexists. split.
    + unfold ret. f_equal. f_equal. simpl. destruct lay; simpl in *.
      f_equal; rewrite Z.add_0_r; symmetry; apply wrap_small; assumption.
    + simpl. split; [reflexivity | discriminate].
Qed.

Lemma advance_cons (lay : layout_t) (bp : breakpoint_local_t)
    (rest : list breakpoint_local_t) :
  advance (advance lay [bp]) rest = advance lay (bp :: rest).
Proof.
  unfold advance; simpl. rewrite !wrap_add_l. f_equal; f_equal; lia.
Qed.

Lemma layout_loop_spec (bps : list breakpoint_local_t) :
  forall lay w,
    Forall name_fits bps -> Forall few_valid bps -> in_range lay ->
    exists bps',
      layout_loop func_get VirtualCheckRegion hMod bps lay w
      = Done (bps', map size_entry bps, advance lay bps) w
      /\ Forall2 laid_out bps bps'.
Proof.
  induction bps as [|bp rest IH]; intros lay w Hfit Hshort Hr.
  - exists []. split; [| constructor].
    simpl. unfold ret. f_equal. f_equal.
    destruct lay as [s c t]. destruct Hr as (Hs & Hc & Ht). simpl in *.
    unfold advance. simpl. rewrite !Z.add_0_r, !wrap_small by lia. reflexivity.
  - inversion Hfit as [|? ? Hfit1 Hfit2]; subst.
    inversion Hshort as [|? ? Hsh1 Hsh2]; subst.
    destruct (layout_step_spec bp lay w Hfit1 Hsh1 Hr) as [bp' [E1 L1]].
    destruct (IH (advance lay [bp]) w Hfit2 Hsh2 (advance_in_range _ _))
      as [rest' [E2 L2]].
    exists (bp' :: rest'). split; [| constructor; assumption].
    simpl layout_loop.
    rewrite (bind_done _ _ _ _ _ E1). cbv beta iota.
    rewrite (bind_done _ _ _ _ _ E2). cbv beta iota.
    rewrite advance_cons. reflexivity.
Qed.

(** ** Setup: the patch buffer *)

Local Abbreviation shape := (asm_buf_shape BINHACK_BUFSIZE_MIN).

Lemma buf_write_ok (buf : list Z) (off : Z) (bs : list Z) :
  0 <= off -> off + Z.of_nat (List.length bs) <= Z.of_nat (List.length buf) ->
  buf_write buf off bs
  = Some (firstn (Z.to_nat off) buf ++ bs
          ++ skipn (Z.to_nat off + List.length bs) buf).
Proof.
  intros H0 H1. unfold buf_write.
  destruct (Z.leb_spec 0 off); [| lia].
  destruct (Z.leb_spec (off + Z.of_nat (List.length bs)) (Z.of_nat (List.length buf)));
    [reflexivity | lia].
Qed.

Lemma buf_memset_ok (buf : list Z) (off c n : Z) :
  0 <= off -> 0 <= n -> off + n <= Z.of_nat (List.length buf) ->
  buf_memset buf off c n
  = Some (firstn (Z.to_nat off) buf ++ repeat c (Z.to_nat n)
          ++ skipn (Z.to_nat off + Z.to_nat n) buf).
Proof.
  intros H0 Hn H1. unfold buf_memset.
  destruct (Z.leb_spec 0 off); [| lia].
  destruct (Z.leb_spec (off + n) (Z.of_nat (List.length buf))); [| lia].
  simpl andb. cbv iota.
  rewrite buf_write_ok; rewrite ?repeat_length; try lia.
  reflexivity.
Qed.

Lemma buf_memset_overrun (buf : list Z) (off c n : Z) :
  Z.of_nat (List.length buf) < off + n -> buf_memset buf off c n = None.
Proof.
  intros H. unfold buf_memset.
  destruct (Z.leb_spec (off + n) (Z.of_nat (List.length buf))); [lia |].
  now rewrite andb_false_r.
Qed.

Lemma firstn_repeat {A : Type} (x : A) (j k : nat) :
  (j <= k)%nat -> firstn j (repeat x k) = repeat x j.
Proof.
  revert k. induction j as [|j IH]; intros k H; [reflexivity |].
  destruct k as [|k]; [lia |]. simpl. f_equal. apply IH. lia.
Qed.

Lemma skipn_repeat_all {A : Type} (x : A) (k : nat) : skipn k (repeat x k) = [].
Proof. apply skipn_all2. rewrite repeat_length. lia. Qed.

Lemma shape_length (d : list Z) :
  List.length d = 4%nat -> CALL_LEN <= BINHACK_BUFSIZE_MIN ->
  Z.of_nat (List.length (shape d)) = BINHACK_BUFSIZE_MIN.
Proof.
  intros Hd Hmin. unfold asm_buf_shape. simpl List.length.
  rewrite length_app, repeat_length, Hd. unfold CALL_LEN, ptr_size in *. lia.
Qed.

Lemma asm_buf_init_done (w : world) :
  CALL_LEN <= BINHACK_BUFSIZE_MIN ->
  asm_buf_init BINHACK_BUFSIZE_MIN w = Done (shape [0; 0; 0; 0]) w.
Proof.
  intros Hmin. unfold asm_buf_init, asm_buf_shape.
  unfold CALL_LEN, ptr_size in *. change (4 + 1) with 5 in *.
  set (k := Z.to_nat (BINHACK_BUFSIZE_MIN - 5)).
  assert (Hk : Z.to_nat BINHACK_BUFSIZE_MIN = (5 + k)%nat) by (unfold k; lia).
  rewrite Hk. cbn [repeat Nat.add].
  rewrite buf_write_ok by (simpl List.length; lia).
  change (Z.to_nat 0) with 0%nat. cbn [firstn skipn List.length Nat.add app lift].
  rewrite (bind_done _ _ _ _ _ (eq_refl : ret _ w = Done _ w)).
  destruct (Z.gtb_spec BINHACK_BUFSIZE_MIN 5) as [Hgt | Hle].
  - rewrite buf_memset_ok; try lia.
    + change (Z.to_nat 5) with 5%nat. fold k.
      cbn [firstn].
      change (skipn (5 + k)
                (x86_CALL_NEAR_REL32 :: 0 :: 0 :: 0 :: 0 :: repeat 0 k))
        with (skipn k (repeat 0 k)).
      rewrite skipn_repeat_all, app_nil_r. reflexivity.
    + simpl List.length. rewrite repeat_length. lia.
  - assert (k = 0%nat) by (unfold k; lia). subst k. rewrite H. reflexivity.
Qed.

Lemma shape_write_disp (d : list Z) (x : Z) :
  List.length d = 4%nat ->
  buf_write (shape d) 1 (le32 x) = Some (shape (le32 x)).
Proof.
  intros Hd.
  destruct d as [|a [|b [|c [|e [|f d]]]]]; try discriminate.
  unfold asm_buf_shape.
  rewrite buf_write_ok.
  - reflexivity.
  - lia.
  - simpl List.length. lia.
Qed.

Lemma shape_read (x cavesize : Z) :
  CALL_LEN <= cavesize <= BINHACK_BUFSIZE_MIN ->
  buf_read (shape (le32 x)) cavesize
  = Some (x86_CALL_NEAR_REL32 :: le32 x
          ++ repeat x86_NOP (Z.to_nat (cavesize - CALL_LEN))).
Proof.
  intros Hc. unfold buf_read.
  rewrite shape_length by (reflexivity || lia).
  destruct (Z.leb_spec cavesize BINHACK_BUFSIZE_MIN); [| lia].
  unfold asm_buf_shape, CALL_LEN, ptr_size in *. change (4 + 1) with 5 in *.
  replace (Z.to_nat cavesize) with (5 + Z.to_nat (cavesize - 5))%nat by lia.
  cbn [le32 firstn Nat.add app]. rewrite firstn_repeat by lia. reflexivity.
Qed.

Lemma asm_buf_grow_skip (cavesize : Z) (st : render_t) (w : world) :
  cavesize <= current_asm_buf_size st ->
  asm_buf_grow cavesize st w = Done st w.
Proof.
  intros H. unfold asm_buf_grow.
  destruct (Z.gtb_spec cavesize (current_asm_buf_size st)); [lia | reflexivity].
Qed.

(* the slip in the grow branch: the fill length is
   current_asm_buf_size - cavesize, a wrapped negative number *)
Lemma asm_buf_grow_fault (cavesize : Z) (st : render_t) (w : world) :
  current_asm_buf_size st = Z.of_nat (List.length (asm_buf st)) ->
  current_asm_buf_size st < cavesize ->
  cavesize - current_asm_buf_size st < 2 ^ 31 ->
  asm_buf_grow cavesize st w = Fault w.
Proof.
  intros Hlen Hgt Hsmall. unfold asm_buf_grow.
  destruct (Z.gtb_spec cavesize (current_asm_buf_size st)); [| lia].
  rewrite buf_memset_overrun; [reflexivity |].
  rewrite length_app, repeat_length.
  assert (Hw : wrap (current_asm_buf_size st - cavesize)
               = current_asm_buf_size st - cavesize + 2 ^ 32).
  { unfold wrap. symmetry. apply Z.mod_unique with (q := -1); lia. }
  rewrite Hw. lia.
Qed.

(** ** Setup: code generation *)

Local Abbreviation r_site :=
  (render_site bp_entry bp_entry_cave bp_entry_local bp_entry_call
     breakpoint_process_addr bp_ptr).
Local Abbreviation r_addrs :=
  (render_addrs bp_entry bp_entry_cave bp_entry_local bp_entry_call
     breakpoint_process_addr bp_ptr hMod).
Local Abbreviation r_loop :=
  (render_loop bp_entry bp_entry_cave bp_entry_local bp_entry_call
     breakpoint_process_addr bp_ptr hMod).
Local Abbreviation ready := (buf_ready BINHACK_BUFSIZE_MIN).

Lemma memcpy_done (dst src n : Z) (w : world) :
  is_null src = false -> is_null dst = false ->
  exists m', memcpy dst src n w = Done tt (mk_world m' (w_events w)).
Proof.
  intros Hs Hd. unfold memcpy. rewrite Hs, mem_store_done by exact Hd.
  eexists. reflexivity.
Qed.

Lemma mem_store_run (p off : Z) (bs : list Z) (w : world) :
  is_null p = false ->
  exists m', mem_store p off bs w = Done tt (mk_world m' (w_events w)).
Proof. intros H. rewrite mem_store_done by exact H. eexists. reflexivity. Qed.

(* One rendered address: the stub fields, the cave and the patch. *)
Lemma render_site_done (i : nat) (cur : breakpoint_local_t) (size addr : Z)
    (st : render_t) (w : world) :
  CALL_LEN <= bp_cavesize cur <= BINHACK_BUFSIZE_MIN ->
  ready st ->
  is_null addr = false ->
  is_null (sourcecave_p st) = false ->
  is_null (callcave_p st) = false ->
  let s := {| ps_addr := addr; ps_index := i; ps_cavesize := bp_cavesize cur;
              ps_sourcecave := sourcecave_p st; ps_callcave := callcave_p st;
              ps_slot_size := size |} in
  exists st' m',
    r_site i cur size addr st w
    = Done st' (mk_world m' (w_events w ++ [patch_event s]))
    /\ rendered st' = rendered st ++ [s]
    /\ sourcecave_p st' = wrap (sourcecave_p st + size)
    /\ callcave_p st' = wrap (callcave_p st + entry_size)
    /\ ready st'.
Proof.
  intros Hcs [[d [Hd Hbuf]] Hsize] Haddr Hsp Hcp s.
  unfold render_site.
  destruct (mem_store_run (callcave_p st) bp_entry_cave
              (le32 (sourcecave_p st)) w Hcp) as [m1 E1].
  rewrite (bind_done _ _ _ _ _ E1).
  destruct (mem_store_run (callcave_p st) bp_entry_local
              (le32 (bp_ptr i)) (mk_world m1 (w_events w)) Hcp) as [m2 E2].
  rewrite (bind_done _ _ _ _ _ E2).
  destruct (mem_store_run (callcave_p st) bp_entry_call
              (le32 (wrap (breakpoint_process_addr
                           - wrap (callcave_p st + bp_entry_call) - ptr_size)))
              (mk_world m2 (w_events w)) Hcp) as [m3 E3].
  rewrite (bind_done _ _ _ _ _ E3).
  rewrite Hbuf, shape_write_disp by exact Hd.
  cbn [lift]. unfold bind at 1. unfold ret at 1.
  destruct (memcpy_done (sourcecave_p st) addr (bp_cavesize cur)
              (mk_world m3 (w_events w)) Haddr Hsp) as [m4 E4].
  rewrite (bind_done _ _ _ _ _ E4).
  unfold bind at 1. unfold modify_mem at 1. cbn [w_mem w_events].
  destruct (mem_store_run (sourcecave_p st) (bp_cavesize cur)
              [x86_JMP_NEAR_REL32]
              (mk_world (cave_fix m4 (sourcecave_p st) addr) (w_events w)) Hsp)
    as [m5 E5].
  rewrite (bind_done _ _ _ _ _ E5).
  destruct (mem_store_run (sourcecave_p st) (bp_cavesize cur + 1)
              (le32 (wrap (addr - (sourcecave_p st + CALL_LEN))))
              (mk_world m5 (w_events w)) Hsp) as [m6 E6].
  rewrite (bind_done _ _ _ _ _ E6).
  rewrite shape_read by exact Hcs.
  cbn [lift]. unfold bind at 1. unfold ret at 1.
  unfold bind, PatchRegion, ret. cbn [w_mem w_events].
  eexists _, _. split; [reflexivity |].
  cbn [rendered sourcecave_p callcave_p asm_buf current_asm_buf_size].
  repeat split; try reflexivity.
  - exists (le32 (wrap (callcave_p st - (addr + CALL_LEN)))).
    split; reflexivity.
  - exact Hsize.
Qed.

Lemma plan_addrs_same_cavesize (i : nat) (bp cur : breakpoint_local_t)
    (addrs : list Z) :
  bp_cavesize cur = bp_cavesize bp ->
  forall sp cp,
    plan_addrs bp_entry i cur addrs sp cp = plan_addrs bp_entry i bp addrs sp cp.
Proof.
  intros Hc. induction addrs as [|a rest IH]; intros sp cp; simpl.
  - reflexivity.
  - unfold slot_size. rewrite Hc. f_equal. apply IH.
Qed.

Lemma eval_nonnull (a : hackpoint_addr_t) :
  (eval_hackpoint_addr a =? 0) = false -> is_null (eval_hackpoint_addr a) = false.
Proof.
  intros H. unfold is_null. rewrite wrap_small by apply eval_range. exact H.
Qed.

Lemma sites_nonnull_cons (s : patch_site) (rest : list patch_site) :
  sites_nonnull (s :: rest) ->
  (is_null (ps_sourcecave s) = false /\ is_null (ps_callcave s) = false)
  /\ sites_nonnull rest.
Proof.
  intros H. split.
  - apply H. now left.
  - intros x Hx. apply H. now right.
Qed.

Lemma sites_nonnull_app (l1 l2 : list patch_site) :
  sites_nonnull (l1 ++ l2) -> sites_nonnull l1 /\ sites_nonnull l2.
Proof.
  intros H. split; intros x Hx; apply H; apply in_or_app; auto.
Qed.

Lemma render_addrs_spec (i : nat) (cur : breakpoint_local_t)
    (addrs : list hackpoint_addr_t) :
  CALL_LEN <= bp_cavesize cur <= BINHACK_BUFSIZE_MIN ->
  forall st w,
    ready st ->
    0 <= sourcecave_p st < 2 ^ 32 -> 0 <= callcave_p st < 2 ^ 32 ->
    sites_nonnull
      (plan_addrs bp_entry i cur
         (map eval_hackpoint_addr (filter nonnull addrs))
         (sourcecave_p st) (callcave_p st)) ->
    exists st' m',
      r_addrs i cur (slot_size cur) addrs st w
      = Done st'
          (mk_world m'
             (w_events w
              ++ map patch_event
                   (plan_addrs bp_entry i cur
                      (map eval_hackpoint_addr (filter nonnull addrs))
                      (sourcecave_p st) (callcave_p st))))
      /\ rendered st'
         = rendered st
           ++ plan_addrs bp_entry i cur
                (map eval_hackpoint_addr (filter nonnull addrs))
                (sourcecave_p st) (callcave_p st)
      /\ sourcecave_p st'
         = wrap (sourcecave_p st
                 + Z.of_nat (List.length (filter nonnull addrs)) * slot_size cur)
      /\ callcave_p st'
         = wrap (callcave_p st
                 + Z.of_nat (List.length (filter nonnull addrs)) * entry_size)
      /\ ready st'.
Proof.
  intros Hcs. induction addrs as [|a rest IH]; intros st w Hready Hsp Hcp Hnn.
  - exists st, (w_mem w). simpl. rewrite !app_nil_r, !Z.add_0_r.
    rewrite !wrap_small by assumption. destruct w. auto.
  - cbn [render_addrs filter] in Hnn |- *.
    destruct (eval_hackpoint_addr a =? 0) eqn:E0.
    + assert (Hn : nonnull a = false) by (unfold nonnull; rewrite E0; reflexivity).
      rewrite Hn in Hnn |- *. apply IH; assumption.
    + assert (Hn : nonnull a = true) by (unfold nonnull; rewrite E0; reflexivity).
      rewrite Hn in Hnn |- *.
      cbn [map plan_addrs] in Hnn |- *.
      apply sites_nonnull_cons in Hnn. destruct Hnn as [[Hs0 Hc0] Hrest].
      cbn [ps_sourcecave ps_callcave] in Hs0, Hc0.
      destruct (render_site_done i cur (slot_size cur) (eval_hackpoint_addr a)
                  st w Hcs Hready (eval_nonnull a E0) Hs0 Hc0)
        as (st1 & m1 & E1 & Hr1 & Hsp1 & Hcp1 & Hready1).
      rewrite (bind_done _ _ _ _ _ E1).
      rewrite <- Hsp1, <- Hcp1 in Hrest.
      assert (Hsp1r : 0 <= sourcecave_p st1 < 2 ^ 32)
        by (rewrite Hsp1; apply wrap_range).
      assert (Hcp1r : 0 <= callcave_p st1 < 2 ^ 32)
        by (rewrite Hcp1; apply wrap_range).
      match type of E1 with
      | _ = Done _ ?w1 =>
          destruct (IH st1 w1 Hready1 Hsp1r Hcp1r Hrest)
            as (st' & m' & E & Hr & Hsp' & Hcp' & Hready')
      end.
      exists st', m'. rewrite E. cbn [w_events].
      rewrite Hr, Hr1, Hsp', Hcp', Hsp1, Hcp1.
      rewrite <- !app_assoc. cbn [app map List.length].
      rewrite !wrap_add_l, Nat2Z.inj_succ.
      split; [reflexivity |]. split; [reflexivity |].
      split; [f_equal; lia |]. split; [f_equal; lia | exact Hready'].
Qed.

Lemma plan_same_length (bps : list breakpoint_local_t) :
  forall i sp cp,
    Z.of_nat (List.length (the_plan i bps sp cp)) = addr_total bps.
Proof.
  assert (Hpa : forall i bp addrs sp cp,
             List.length (plan_addrs bp_entry i bp addrs sp cp) = List.length addrs).
  { intros i bp addrs. induction addrs; intros; simpl; [reflexivity | now rewrite IHaddrs]. }
  induction bps as [|bp rest IH]; intros i sp cp; simpl.
  - reflexivity.
  - rewrite length_app, Hpa, Nat2Z.inj_add, IH. reflexivity.
Qed.

Local Abbreviation cave_fits := (cave_fits BINHACK_BUFSIZE_MIN).

Lemma slot_size_bounds (bp : breakpoint_local_t) :
  cave_fits bp -> BINHACK_BUFSIZE_MIN + 20 < 2 ^ 32 ->
  bp_cavesize bp + CALL_LEN <= slot_size bp < bp_cavesize bp + CALL_LEN + 16.
Proof.
  unfold cave_fits, slot_size, CALL_LEN, ptr_size. intros Hc Hmin.
  rewrite wrap_small by lia. apply align16_bounds; lia.
Qed.

Lemma active_found (bp : breakpoint_local_t) : active bp = true -> found bp = true.
Proof.
  unfold is_active, valid_addrs. destruct (found bp); [reflexivity | discriminate].
Qed.

Lemma inactive_no_addrs (bp : breakpoint_local_t) : active bp = false -> valid bp = [].
Proof. unfold is_active. destruct (valid bp); [reflexivity | discriminate]. Qed.

Lemma render_loop_spec (bps bps' : list breakpoint_local_t) :
  Forall2 laid_out bps bps' ->
  Forall cave_fits bps ->
  BINHACK_BUFSIZE_MIN + 20 < 2 ^ 32 ->
  forall i st w,
    ready st ->
    0 <= sourcecave_p st < 2 ^ 32 -> 0 <= callcave_p st < 2 ^ 32 ->
    sites_nonnull (the_plan i bps (sourcecave_p st) (callcave_p st)) ->
    exists st' m',
      r_loop i bps' (map size_entry bps) st w
      = Done st'
          (mk_world m'
             (w_events w
              ++ map patch_event
                   (the_plan i bps (sourcecave_p st) (callcave_p st))))
      /\ rendered st'
         = rendered st ++ the_plan i bps (sourcecave_p st) (callcave_p st)
      /\ sourcecave_p st' = wrap (sourcecave_p st + src_total bps)
      /\ callcave_p st' = wrap (callcave_p st + addr_total bps * entry_size)
      /\ ready st'.
Proof.
  intros Hlaid Hfits Hmin.
  induction Hlaid as [|bp bp' rest rest' [Hcs Haddrs] Hrest IH];
    intros i st w Hready Hsp Hcp Hnn.
  - exists st, (w_mem w). simpl. rewrite !app_nil_r, !Z.add_0_r.
    rewrite !wrap_small by assumption. destruct w. auto.
  - inversion Hfits as [|? ? Hfit1 Hfit2]; subst.
    cbn [render_loop map plan source_total valid_total] in Hnn |- *.
    destruct (active bp) eqn:Eact.
    + assert (Hse : size_entry bp = slot_size bp)
        by (unfold size_entry; now rewrite Eact).
      rewrite Hse.
      pose proof (slot_size_bounds bp Hfit1 Hmin) as Hsz.
      assert (Hnz : (slot_size bp =? 0) = false).
      { apply Z.eqb_neq. unfold cave_fits, CALL_LEN, ptr_size in *. lia. }
      rewrite Hnz.
      assert (Hss : slot_size bp' = slot_size bp)
        by (unfold slot_size; now rewrite Hcs).
      (* the grow branch is not taken *)
      assert (Hgrow : asm_buf_grow (bp_cavesize bp') st w = Done st w).
      { apply asm_buf_grow_skip. destruct Hready as [_ ->].
        rewrite Hcs. apply Hfit1. }
      rewrite (bind_done _ _ _ _ _ Hgrow).
      specialize (Haddrs (active_found bp Eact)).
      apply sites_nonnull_app in Hnn. destruct Hnn as [Hnn1 Hnn2].
      assert (Hfits' : CALL_LEN <= bp_cavesize bp' <= BINHACK_BUFSIZE_MIN)
        by (rewrite Hcs; exact Hfit1).
      destruct (render_addrs_spec i bp' (bp_addr bp') Hfits' st w Hready Hsp Hcp)
        as (st1 & m1 & E1 & Hr1 & Hsp1 & Hcp1 & Hready1).
      { rewrite Haddrs, (plan_addrs_same_cavesize i bp bp') by exact Hcs.
        exact Hnn1. }
      rewrite Haddrs, (plan_addrs_same_cavesize i bp bp') in E1, Hr1 by exact Hcs.
      assert (Hlen : List.length (filter nonnull (bp_addr bp'))
                     = List.length (valid bp)).
      { rewrite <- Haddrs. now rewrite length_map. }
      rewrite Hlen in Hsp1, Hcp1. rewrite Hss in Hsp1.
      rewrite <- Hss, (bind_done _ _ _ _ _ E1), Hss.
      rewrite <- Hsp1, <- Hcp1 in Hnn2.
      assert (Hsp1r : 0 <= sourcecave_p st1 < 2 ^ 32)
        by (rewrite Hsp1; apply wrap_range).
      assert (Hcp1r : 0 <= callcave_p st1 < 2 ^ 32)
        by (rewrite Hcp1; apply wrap_range).
      match type of E1 with
      | _ = Done _ ?w1 =>
          destruct (IH Hfit2 (S i) st1 w1 Hready1 Hsp1r Hcp1r Hnn2)
            as (st' & m' & E & Hr & Hsp' & Hcp' & Hready')
      end.
      exists st', m'. rewrite E. cbn [w_events].
      rewrite Hr, Hr1, Hsp', Hcp'.
      rewrite <- Hsp1, <- Hcp1, map_app, <- !app_assoc.
      split; [reflexivity |]. split; [reflexivity |].
      rewrite Hsp1, Hcp1, !wrap_add_l.
      split; [f_equal; lia |]. split; [f_equal; lia | exact Hready'].
    + assert (Hse : size_entry bp = 0)
        by (unfold size_entry; now rewrite Eact).
      rewrite Hse, Z.eqb_refl.
      rewrite (inactive_no_addrs bp Eact) in Hnn |- *.
      cbn [plan_addrs app List.length] in Hnn |- *.
      change (Z.of_nat 0) with 0 in Hnn |- *.
      rewrite ?Z.mul_0_l, ?Z.add_0_l, ?Z.add_0_r in Hnn |- *.
      rewrite (wrap_small (sourcecave_p st)) in Hnn |- * by assumption.
      rewrite (wrap_small (callcave_p st)) in Hnn |- * by assumption.
      apply IH; assumption.
Qed.

(** ** Setup: slots of a plan inside the allocated regions *)

Lemma slot_size_nonneg (bp : breakpoint_local_t) : 0 <= slot_size bp.
Proof. apply align16_nonneg. Qed.

Lemma entry_size_nonneg : 0 <= entry_size.
Proof. apply wrap_range. Qed.

Lemma source_total_nonneg (bps : list breakpoint_local_t) : 0 <= src_total bps.
Proof.
  induction bps as [|bp rest IH]; simpl; [lia |].
  pose proof (slot_size_nonneg bp). nia.
Qed.

Lemma valid_total_nonneg (bps : list breakpoint_local_t) : 0 <= addr_total bps.
Proof. induction bps as [|bp rest IH]; simpl; lia. Qed.

Lemma active_count_bounds (bps : list breakpoint_local_t) :
  0 <= act_count bps <= Z.of_nat (List.length bps).
Proof.
  induction bps as [|bp rest IH]; simpl List.length; simpl active_count; [lia |].
  destruct (active bp); lia.
Qed.

Lemma plan_addrs_nonnull (i : nat) (bp : breakpoint_local_t) (addrs : list Z) :
  forall sp cp,
    0 < sp -> sp + Z.of_nat (List.length addrs) * slot_size bp < 2 ^ 32 ->
    0 < cp -> cp + Z.of_nat (List.length addrs) * entry_size < 2 ^ 32 ->
    sites_nonnull (plan_addrs bp_entry i bp addrs sp cp).
Proof.
  pose proof (slot_size_nonneg bp) as Hs. pose proof entry_size_nonneg as He.
  induction addrs as [|a rest IH]; intros sp cp Hsp Hsp' Hcp Hcp'.
  - intros s [].
  - simpl List.length in *. rewrite Nat2Z.inj_succ in *.
    intros s [<- | Hin].
    + simpl. split; apply is_null_false; nia.
    + revert s Hin. cbn [plan_addrs].
      rewrite !wrap_small by nia. apply IH; nia.
Qed.

Lemma plan_nonnull (bps : list breakpoint_local_t) :
  forall i sp cp,
    0 < sp -> sp + src_total bps < 2 ^ 32 ->
    0 < cp -> cp + addr_total bps * entry_size < 2 ^ 32 ->
    sites_nonnull (the_plan i bps sp cp).
Proof.
  pose proof entry_size_nonneg as He.
  induction bps as [|bp rest IH]; intros i sp cp Hsp Hsp' Hcp Hcp'.
  - intros s [].
  - simpl in Hsp', Hcp' |- *.
    pose proof (slot_size_nonneg bp) as Hs.
    pose proof (source_total_nonneg rest) as Hsr.
    pose proof (valid_total_nonneg rest) as Hvr.
    intros s Hin. apply in_app_or in Hin. destruct Hin as [Hin | Hin].
    + revert s Hin. apply plan_addrs_nonnull; nia.
    + revert s Hin. rewrite !wrap_small by nia. apply IH; nia.
Qed.

(** ** Setup: the stub-fill loop *)

Lemma callcave_fill_done (fuel : nat) :
  forall p w,
    0 < p -> p + Z.of_nat fuel * entry_size < 2 ^ 32 ->
    exists m',
      callcave_fill_loop bp_entry fuel p (p + Z.of_nat fuel * entry_size) w
      = Done tt (mk_world m' (w_events w)).
Proof.
  pose proof entry_size_nonneg as He.
  induction fuel as [|k IH]; intros p w Hp Hend.
  - simpl. rewrite Z.add_0_r, Z.ltb_irrefl. exists (w_mem w). now destruct w.
  - cbn [callcave_fill_loop]. rewrite Nat2Z.inj_succ in *.
    destruct (Z.ltb_spec p (p + Z.succ (Z.of_nat k) * entry_size)).
    + destruct (mem_store_run p 0 bp_entry w (is_null_false p ltac:(nia)))
        as [m1 E1].
      rewrite (bind_done _ _ _ _ _ E1).
      rewrite wrap_small by nia.
      destruct (IH (p + entry_size) (mk_world m1 (w_events w))
                  ltac:(nia) ltac:(nia)) as [m' E].
      exists m'.
      replace (p + Z.succ (Z.of_nat k) * entry_size)
        with (p + entry_size + Z.of_nat k * entry_size) by lia.
      exact E.
    + exists (w_mem w). now destruct w.
Qed.

(** ** Setup: a complete run *)

Local Abbreviation apply :=
  (breakpoints_apply func_get VirtualCheckRegion VirtualAlloc_result bp_entry
     bp_entry_cave bp_entry_local bp_entry_call breakpoint_process_addr
     bp_ptr BINHACK_BUFSIZE_MIN).
Local Abbreviation l_pass := (layout_pass func_get VirtualCheckRegion hMod).
Local Abbreviation r_pass :=
  (render_pass bp_entry bp_entry_cave bp_entry_local bp_entry_call
     breakpoint_process_addr bp_ptr BINHACK_BUFSIZE_MIN hMod).
Local Abbreviation alloc := (VirtualAlloc VirtualAlloc_result).

Lemma wrap_sub (a b : Z) : wrap (wrap a - wrap b) = wrap (a - b).
Proof. unfold wrap. now rewrite Zminus_mod_idemp_l, Zminus_mod_idemp_r. Qed.

Lemma layout_pass_spec (bps : list breakpoint_local_t) (w : world) :
  Forall name_fits bps -> Forall few_valid bps ->
  exists bps',
    l_pass bps w
    = Done (bps', map size_entry bps,
            {| sourcecaves_total_size := wrap (src_total bps);
               valid_breakpoint_count := wrap (act_count bps);
               total_valid_addrs := wrap (addr_total bps) |}) w
    /\ Forall2 laid_out bps bps'.
Proof.
  intros Hfit Hfew. unfold layout_pass.
  destruct (layout_loop_spec bps (mk_layout 0 0 0) w Hfit Hfew) as [bps' [E L]].
  { unfold in_range. simpl. lia. }
  exists bps'. split; [exact E | exact L].
Qed.

Lemma alloc_done (size : Z) (w : world) :
  let p := wrap (VirtualAlloc_result (w_events w) size) in
  p <> 0 ->
  alloc size w = Done p (mk_world (w_mem w) (w_events w ++ [EvAlloc p size])).
Proof.
  intros p Hp. unfold VirtualAlloc. fold p.
  destruct (Z.eqb_spec p 0); [contradiction | reflexivity].
Qed.

Lemma alloc_null (size : Z) (w : world) :
  wrap (VirtualAlloc_result (w_events w) size) = 0 ->
  alloc size w = Done 0 w.
Proof. intros Hp. unfold VirtualAlloc. rewrite Hp. reflexivity. Qed.

Lemma render_pass_spec (bps bps' : list breakpoint_local_t) (p1 p2 : Z)
    (w : world) :
  Forall2 laid_out bps bps' ->
  Forall cave_fits bps ->
  CALL_LEN <= BINHACK_BUFSIZE_MIN ->
  BINHACK_BUFSIZE_MIN + 20 < 2 ^ 32 ->
  0 < p1 -> p1 + src_total bps < 2 ^ 32 ->
  0 < p2 -> p2 + addr_total bps * entry_size < 2 ^ 32 ->
  exists st m',
    r_pass bps' (map size_entry bps) p1 p2 w
    = Done st (mk_world m' (w_events w
                             ++ map patch_event (the_plan 0%nat bps p1 p2)))
    /\ rendered st = the_plan 0%nat bps p1 p2
    /\ sourcecave_p st = p1 + src_total bps
    /\ callcave_p st = p2 + addr_total bps * entry_size.
Proof.
  intros Hlaid Hfits Hmin0 Hmin Hp1 Hp1' Hp2 Hp2'.
  pose proof (source_total_nonneg bps) as Hs.
  pose proof (valid_total_nonneg bps) as Hv.
  pose proof entry_size_nonneg as He.
  unfold render_pass.
  rewrite (bind_done _ _ _ _ _ (asm_buf_init_done w Hmin0)).
  destruct (render_loop_spec bps bps' Hlaid Hfits Hmin 0%nat
              {| sourcecave_p := p1; callcave_p := p2;
                 asm_buf := shape [0; 0; 0; 0];
                 current_asm_buf_size := BINHACK_BUFSIZE_MIN;
                 rendered := [] |} w)
    as (st & m' & E & Hr & Hsp & Hcp & _).
  - split; [| reflexivity]. exists [0; 0; 0; 0]. split; reflexivity.
  - simpl. lia.
  - simpl. nia.
  - simpl. apply plan_nonnull; assumption.
  - cbn [sourcecave_p callcave_p rendered app] in E, Hr, Hsp, Hcp.
    exists st, m'. rewrite E, Hr, Hsp, Hcp.
    rewrite !wrap_small by nia. auto.
Qed.

(* A run in which both regions are obtained and every cave fits the
   patch buffer. *)
Lemma breakpoints_apply_run (bps : list breakpoint_local_t) (w : world) :
  Forall name_fits bps -> Forall few_valid bps -> Forall cave_fits bps ->
  BINHACK_BUFSIZE_MIN + 20 < 2 ^ 32 ->
  0 < addr_total bps < 2 ^ 32 ->
  let S := src_total bps in
  let T := addr_total bps * entry_size in
  let p1 := wrap (VirtualAlloc_result (w_events w) S) in
  let p2 := wrap (VirtualAlloc_result (w_events w ++ [EvAlloc p1 S]) T) in
  0 < p1 -> p1 + S < 2 ^ 32 -> 0 < p2 -> p2 + T < 2 ^ 32 ->
  exists m',
    apply (Some bps) hMod w
    = Done (to_int (wrap (Z.of_nat (List.length bps) - act_count bps)))
        (mk_world m'
           (w_events w
            ++ [EvAlloc p1 S; EvAlloc p2 T]
            ++ map patch_event (the_plan 0%nat bps p1 p2)
            ++ [EvProtect p1 S; EvProtect p2 T])).
Proof.
  intros Hfit Hfew Hfits Hmin Htotal S T p1 p2 Hp1 Hp1' Hp2 Hp2'.
  destruct bps as [|bp0 rest0]; [simpl in Htotal; lia |].
  unfold breakpoints_apply. cbv beta iota.
  set (bps := bp0 :: rest0) in *. clearbody bps. clear bp0 rest0.
  pose proof (source_total_nonneg bps) as Hs.
  pose proof entry_size_nonneg as He.
  assert (HS : wrap S = S) by (apply wrap_small; unfold S; lia).
  assert (HA : wrap (addr_total bps) = addr_total bps) by (apply wrap_small; lia).
  assert (HT : wrap T = T) by (apply wrap_small; unfold T in *; nia).
  assert (Hmin0 : CALL_LEN <= BINHACK_BUFSIZE_MIN).
  { destruct bps as [|bp rest]; [simpl in Htotal; lia |].
    inversion Hfits as [|? ? Hc _]; subst. unfold cave_fits in Hc. lia. }
  destruct (layout_pass_spec bps w Hfit Hfew) as [bps' [EL Hlaid]].
  rewrite (bind_done _ _ _ _ _ EL). cbv beta iota.
  cbn [total_valid_addrs sourcecaves_total_size valid_breakpoint_count].
  rewrite HA. change (src_total bps) with S.
  change (addr_total bps * entry_size) with T. rewrite HS, HT.
  destruct (Z.eqb_spec (addr_total bps) 0) as [H0 | _]; [lia |].
  assert (Hp1nz : p1 <> 0) by lia.
  rewrite (bind_done _ _ _ _ _ (alloc_done S w Hp1nz)).
  change (wrap (VirtualAlloc_result (w_events w) S)) with p1.
  destruct (mem_store_run p1 0 (repeat x86_INT3 (Z.to_nat S))
              (mk_world (w_mem w) (w_events w ++ [EvAlloc p1 S]))
              (is_null_false p1 ltac:(lia))) as [m1 E1].
  unfold memset. rewrite (bind_done _ _ _ _ _ E1).
  assert (Hp2nz : p2 <> 0) by lia.
  rewrite (bind_done _ _ _ _ _
             (alloc_done T (mk_world m1 (w_events w ++ [EvAlloc p1 S])) Hp2nz)).
  cbn [w_events w_mem].
  change (wrap (VirtualAlloc_result (w_events w ++ [EvAlloc p1 S]) T)) with p2.
  rewrite (wrap_small (p2 + T)) by (unfold T in *; nia).
  destruct (callcave_fill_done (Z.to_nat (addr_total bps)) p2
              (mk_world m1 ((w_events w ++ [EvAlloc p1 S]) ++ [EvAlloc p2 T])))
    as [m2 E2].
  { lia. }
  { rewrite Z2Nat.id by lia. exact Hp2'. }
  rewrite Z2Nat.id in E2 by lia.
  change (addr_total bps * entry_size) with T in E2.
  rewrite (bind_done _ _ _ _ _ E2). cbn [w_events].
  destruct (render_pass_spec bps bps' p1 p2
              (mk_world m2 ((w_events w ++ [EvAlloc p1 S]) ++ [EvAlloc p2 T]))
              Hlaid Hfits Hmin0 Hmin Hp1 Hp1' Hp2 Hp2')
    as (st & m3 & E3 & _).
  rewrite (bind_done _ _ _ _ _ E3). cbn [w_events].
  unfold bind, VirtualProtect, ret. cbn [w_mem w_events].
  exists m3. f_equal.
  - f_equal. apply wrap_sub.
  - f_equal. rewrite <- !app_assoc. reflexivity.
Qed.

(** ** Setup: the claims about [breakpoints_apply] *)

Lemma plan_addrs_contiguous (i : nat) (bp : breakpoint_local_t) (addrs : list Z) :
  forall sp cp tail,
    contiguous (wrap (sp + Z.of_nat (List.length addrs) * slot_size bp)) tail ->
    0 <= sp < 2 ^ 32 ->
    contiguous sp (plan_addrs bp_entry i bp addrs sp cp ++ tail).
Proof.
  induction addrs as [|a rest IH]; intros sp cp tail Htail Hsp.
  - simpl in *. rewrite Z.add_0_r, wrap_small in Htail by assumption. exact Htail.
  - cbn [plan_addrs app contiguous ps_sourcecave ps_slot_size ps_cavesize].
    split; [reflexivity |]. split; [reflexivity |].
    apply IH; [| apply wrap_range].
    rewrite wrap_add_l. simpl List.length in Htail.
    rewrite Nat2Z.inj_succ in Htail.
    replace (sp + slot_size bp + Z.of_nat (List.length rest) * slot_size bp)
      with (sp + Z.succ (Z.of_nat (List.length rest)) * slot_size bp) by lia.
    exact Htail.
Qed.

Lemma plan_contiguous (bps : list breakpoint_local_t) :
  forall i sp cp, 0 <= sp < 2 ^ 32 -> contiguous sp (the_plan i bps sp cp).
Proof.
  induction bps as [|bp rest IH]; intros i sp cp Hsp.
  - exact I.
  - cbn [plan]. apply plan_addrs_contiguous; [| exact Hsp].
    apply IH. apply wrap_range.
Qed.

Lemma valid_addrs_spec (bp : breakpoint_local_t) (a : Z) :
  In a (valid bp) <->
  found bp = true
  /\ exists e, In e (bp_addr bp) /\ eval_hackpoint_addr e = a
               /\ a <> 0 /\ VirtualCheckRegion a (bp_cavesize bp) = true.
Proof.
  unfold valid_addrs. destruct (found bp).
  - rewrite in_map_iff. split.
    + intros (e & He & Hin). apply filter_In in Hin. destruct Hin as [Hin Hv].
      unfold addr_valid in Hv. apply andb_true_iff in Hv. destruct Hv as [Hn Hc].
      apply negb_true_iff, Z.eqb_neq in Hn. subst a.
      split; [reflexivity |]. exists e. auto.
    + intros (_ & e & Hin & He & Hn & Hc). exists e. split; [exact He |].
      apply filter_In. split; [exact Hin |].
      unfold addr_valid. rewrite He, Hc.
      apply Z.eqb_neq in Hn. now rewrite Hn.
  - split; [intros [] | intros [H _]; discriminate].
Qed.

(** C5 (amended).  A pair is valid exactly when the handler of its
    description is registered, its address is non-null and the region
    check succeeds for cavesize bytes.  The layout pass completes (null
    addresses are skipped) and computes the source-cave size as the sum of
    align16(cavesize + CALL_LEN) over the valid pairs and the call-cave
    size as their number times bp_entry_size, in [size_t] arithmetic;
    the second pass gives each valid pair a slot of that size, the first
    at the start of the region and each next one where the previous
    ends. *)
Theorem layout_sizes_and_slots (bps : list breakpoint_local_t) (w : world) :
  Forall name_fits bps -> Forall short_addrs bps ->
  (forall bp a,
      In a (valid bp) <->
      found bp = true
      /\ exists e, In e (bp_addr bp) /\ eval_hackpoint_addr e = a
                   /\ a <> 0 /\ VirtualCheckRegion a (bp_cavesize bp) = true)
  /\ exists bps' lay,
      l_pass bps w = Done (bps', map size_entry bps, lay) w
      /\ sourcecaves_total_size lay = wrap (src_total bps)
      /\ wrap (total_valid_addrs lay * entry_size)
         = wrap (addr_total bps * entry_size)
      /\ forall p1 p2 w1,
          Forall cave_fits bps ->
          CALL_LEN <= BINHACK_BUFSIZE_MIN ->
          BINHACK_BUFSIZE_MIN + 20 < 2 ^ 32 ->
          0 < p1 -> p1 + src_total bps < 2 ^ 32 ->
          0 < p2 -> p2 + addr_total bps * entry_size < 2 ^ 32 ->
          exists st w2,
            r_pass bps' (map size_entry bps) p1 p2 w1 = Done st w2
            /\ rendered st = the_plan 0%nat bps p1 p2
            /\ Z.of_nat (List.length (rendered st)) = addr_total bps
            /\ contiguous p1 (rendered st)
            /\ sourcecave_p st = p1 + src_total bps.
Proof.
  intros Hfit Hshort. split; [apply valid_addrs_spec |].
  destruct (layout_pass_spec bps w Hfit (short_few bps Hshort)) as [bps' [E L]].
  eexists bps', _. split; [exact E |]. cbn [sourcecaves_total_size total_valid_addrs].
  split; [reflexivity |]. split.
  { unfold wrap. apply Zmult_mod_idemp_l. }
  intros p1 p2 w1 Hfits Hmin0 Hmin Hp1 Hp1' Hp2 Hp2'.
  destruct (render_pass_spec bps bps' p1 p2 w1 L Hfits Hmin0 Hmin Hp1 Hp1' Hp2 Hp2')
    as (st & m' & Er & Hr & Hsp & _).
  exists st. eexists. split; [exact Er |]. split; [exact Hr |].
  rewrite Hr. split; [apply plan_same_length |].
  split; [| exact Hsp].
  pose proof (source_total_nonneg bps).
  apply plan_contiguous. lia.
Qed.

(* the first pass leaves the world alone: a step returns in the world
   it began in, or overruns the key buffer *)
Lemma layout_step_world (bp : breakpoint_local_t) (lay : layout_t) (w : world) :
  name_fits bp ->
  exists r, layout_step func_get VirtualCheckRegion hMod bp lay w = Done r w.
Proof.
  intros Hfit. unfold layout_step.
  rewrite (bind_done _ _ _ _ _ (breakpoint_local_init_done bp w Hfit)).
  cbv beta iota.
  destruct (negb (found bp)); [eexists; reflexivity |].
  destruct (layout_addrs _ _ _ _ _ _) as [[addrs n] t].
  destruct (n =? 0); eexists; reflexivity.
Qed.

(* a handler key that overruns its buffer stops the first pass *)
Lemma layout_loop_overrun (bps : list breakpoint_local_t) :
  ~ Forall name_fits bps ->
  forall lay w,
    layout_loop func_get VirtualCheckRegion hMod bps lay w = Fault w.
Proof.
  induction bps as [|bp rest IH]; intros Hbad lay w.
  - exfalso. apply Hbad. constructor.
  - cbn [layout_loop].
    destruct (breakpoint_key (bp_name bp)) as [key |] eqn:Ek.
    + assert (Hfit : name_fits bp) by (unfold name_fits; congruence).
      destruct (layout_step_world bp lay w Hfit) as [[[cur size_i] lay1] E].
      rewrite (bind_done _ _ _ _ _ E). cbv beta iota.
      apply bind_fault. apply IH.
      intros Hrest. apply Hbad. constructor; assumption.
    + apply bind_fault. unfold layout_step. apply bind_fault.
      unfold breakpoint_local_init. apply bind_fault.
      rewrite Ek. reflexivity.
Qed.

(* lines 1138-1141 *)
Lemma breakpoints_apply_none_valid (bps : list breakpoint_local_t) (w : world) :
  Forall name_fits bps -> Forall few_valid bps ->
  addr_total bps = 0 ->
  apply (Some bps) hMod w = Done 0 w.
Proof.
  intros Hfit Hfew Hzero.
  destruct (layout_pass_spec bps w Hfit Hfew) as [bps' [EL _]].
  destruct bps as [|bp0 rest0]; [reflexivity |].
  unfold breakpoints_apply. cbv beta iota.
  rewrite (bind_done _ _ _ _ _ EL). cbv beta iota.
  cbn [total_valid_addrs]. rewrite Hzero. reflexivity.
Qed.

(** C8 (amended).  For descriptions whose handler keys fit their buffer
    and whose address arrays are shorter than 2^32: when no address is
    valid, [breakpoints_apply] returns 0; when at least one address is
    valid, both regions are obtained and every cave fits the patch
    buffer, it returns the input count minus the number of descriptions
    that have a registered handler and at least one valid address, and
    it installs one patch per valid pair, each with its own source-cave
    and call-cave slot. *)
Theorem breakpoints_apply_count (bps : list breakpoint_local_t) (w : world) :
  Forall name_fits bps -> Forall short_addrs bps ->
  (addr_total bps = 0 -> apply (Some bps) hMod w = Done 0 w)
  /\ (Forall cave_fits bps ->
      BINHACK_BUFSIZE_MIN + 20 < 2 ^ 32 ->
      Z.of_nat (List.length bps) < 2 ^ 31 ->
      0 < addr_total bps < 2 ^ 32 ->
      let S := src_total bps in
      let T := addr_total bps * entry_size in
      let p1 := wrap (VirtualAlloc_result (w_events w) S) in
      let p2 := wrap (VirtualAlloc_result (w_events w ++ [EvAlloc p1 S]) T) in
      0 < p1 -> p1 + S < 2 ^ 32 -> 0 < p2 -> p2 + T < 2 ^ 32 ->
      exists w',
        apply (Some bps) hMod w
        = Done (Z.of_nat (List.length bps) - act_count bps) w'
        /\ w_events w'
           = w_events w
             ++ [EvAlloc p1 S; EvAlloc p2 T]
             ++ map patch_event (the_plan 0%nat bps p1 p2)
             ++ [EvProtect p1 S; EvProtect p2 T]
        /\ Z.of_nat (List.length (the_plan 0%nat bps p1 p2)) = addr_total bps).
Proof.
  intros Hfit Hshort. split.
  - exact (breakpoints_apply_none_valid bps w Hfit (short_few bps Hshort)).
  - intros Hfits Hmin Hlen Htotal S T p1 p2 Hp1 Hp1' Hp2 Hp2'.
    destruct (breakpoints_apply_run bps w Hfit (short_few bps Hshort) Hfits
                Hmin Htotal Hp1 Hp1' Hp2 Hp2') as [m' E].
    assert (Hret : to_int (wrap (Z.of_nat (List.length bps) - act_count bps))
                   = Z.of_nat (List.length bps) - act_count bps).
    { pose proof (active_count_bounds bps) as Hact.
      rewrite wrap_small by lia. unfold to_int.
      destruct (Z.ltb_spec (Z.of_nat (List.length bps) - act_count bps)
                  (2 ^ 31));
        [reflexivity | lia]. }
    rewrite Hret in E.
    eexists. split; [exact E |]. split; [reflexivity | apply plan_same_length].
Qed.

(** C7 (amended).  Neither allocation result is tested.  When the first
    allocation returns null, the memset through it faults with the world
    untouched; when the second returns null, the stub fill through it
    faults after the first region has been allocated and filled.  In both
    cases setup does not return and no patch has been installed. *)
Theorem breakpoints_apply_alloc_failure (bps : list breakpoint_local_t)
    (w : world) :
  Forall name_fits bps -> Forall short_addrs bps ->
  wrap (addr_total bps) <> 0 ->
  let S := wrap (src_total bps) in
  let T := wrap (wrap (addr_total bps) * entry_size) in
  let p1 := wrap (VirtualAlloc_result (w_events w) S) in
  let p2 := wrap (VirtualAlloc_result (w_events w ++ [EvAlloc p1 S]) T) in
  (p1 = 0 -> apply (Some bps) hMod w = Fault w)
  /\ (p1 <> 0 -> p2 = 0 -> T <> 0 ->
      exists m',
        apply (Some bps) hMod w
        = Fault (mk_world m' (w_events w ++ [EvAlloc p1 S]))).
Proof.
  intros Hfit Hshort Htotal S T p1 p2.
  destruct (layout_pass_spec bps w Hfit (short_few bps Hshort)) as [bps' [EL _]].
  destruct bps as [|bp0 rest0]; [exfalso; apply Htotal; reflexivity |].
  unfold breakpoints_apply. cbv beta iota.
  set (bps := bp0 :: rest0) in *. clearbody bps. clear bp0 rest0.
  rewrite (bind_done _ _ _ _ _ EL). cbv beta iota.
  cbn [total_valid_addrs sourcecaves_total_size valid_breakpoint_count].
  destruct (Z.eqb_spec (wrap (addr_total bps)) 0) as [H0 | _]; [contradiction |].
  change (wrap (src_total bps)) with S.
  change (wrap (wrap (addr_total bps) * entry_size)) with T.
  split.
  - intros Hnull.
    rewrite (bind_done _ _ _ _ _ (alloc_null S w Hnull)).
    unfold memset. rewrite (bind_fault _ _ _ _ (mem_store_null 0 _ _ w eq_refl)).
    reflexivity.
  - intros Hp1 Hp2 HT.
    rewrite (bind_done _ _ _ _ _ (alloc_done S w Hp1)).
    change (wrap (VirtualAlloc_result (w_events w) S)) with p1.
    assert (Hnn : is_null p1 = false).
    { unfold is_null, p1. rewrite wrap_wrap. apply Z.eqb_neq. exact Hp1. }
    destruct (mem_store_run p1 0 (repeat x86_INT3 (Z.to_nat S))
                (mk_world (w_mem w) (w_events w ++ [EvAlloc p1 S])) Hnn)
      as [m1 E1].
    unfold memset. rewrite (bind_done _ _ _ _ _ E1).
    rewrite (bind_done _ _ _ _ _
               (alloc_null T (mk_world m1 (w_events w ++ [EvAlloc p1 S])) Hp2)).
    exists m1. apply bind_fault.
    pose proof (wrap_range (addr_total bps)) as Hr.
    destruct (Z.to_nat (wrap (addr_total bps))) as [|fuel] eqn:Ef; [lia |].
    cbn [callcave_fill_loop].
    rewrite Z.add_0_l.
    assert (HT' : wrap T = T) by (apply wrap_wrap).
    rewrite HT'.
    pose proof (wrap_range (wrap (addr_total bps) * entry_size)) as HTr.
    fold T in HTr.
    destruct (Z.ltb_spec 0 T); [| lia].
    apply bind_fault. apply mem_store_null. reflexivity.
Qed.

(** C10.  With a null array, with no description, or when no description
    has a valid address and every handler key fits the buffer it is
    built in, [breakpoints_apply] returns 0 and leaves the world as it
    was: nothing is allocated and nothing is patched.  When the key of
    some description overruns its buffer, whether or not an address is
    valid, the call does not return: it stops in breakpoint_local_init
    with the world as it was. *)
Theorem breakpoints_apply_nothing (w : world) :
  apply None hMod w = Done 0 w
  /\ apply (Some []) hMod w = Done 0 w
  /\ (forall bps,
        Forall name_fits bps ->
        Forall (fun bp => valid bp = []) bps ->
        apply (Some bps) hMod w = Done 0 w)
  /\ (forall bps,
        ~ Forall name_fits bps ->
        apply (Some bps) hMod w = Fault w).
Proof.
  split; [reflexivity |]. split; [reflexivity |]. split.
  - intros bps Hfit Hnone.
    assert (Hfew : Forall few_valid bps).
    { revert Hnone. apply Forall_impl. intros bp H.
      unfold few_valid. rewrite H. simpl. lia. }
    assert (Hzero : addr_total bps = 0).
    { clear Hfit Hfew.
      induction Hnone as [|bp rest H _ IH]; simpl; [reflexivity |].
      rewrite H, IH. reflexivity. }
    exact (breakpoints_apply_none_valid bps w Hfit Hfew Hzero).
  - intros bps Hbad.
    destruct bps as [|bp0 rest0]; [exfalso; apply Hbad; constructor |].
    unfold breakpoints_apply. cbv beta iota.
    apply bind_fault. unfold layout_pass.
    apply layout_loop_overrun. exact Hbad.
Qed.

(* The grow branch faults for every cave that outgrows the buffer by
   less than 2^31 bytes. *)
Lemma render_loop_grow_fault (i : nat) (cur : breakpoint_local_t)
    (rest : list breakpoint_local_t) (size_i : Z) (sizes : list Z)
    (st : render_t) (w : world) :
  size_i <> 0 ->
  current_asm_buf_size st = Z.of_nat (List.length (asm_buf st)) ->
  current_asm_buf_size st < bp_cavesize cur ->
  bp_cavesize cur - current_asm_buf_size st < 2 ^ 31 ->
  r_loop i (cur :: rest) (size_i :: sizes) st w = Fault w.
Proof.
  intros Hnz Hlen Hgt Hsmall. cbn [render_loop].
  destruct (Z.eqb_spec size_i 0); [contradiction |].
  apply bind_fault. apply asm_buf_grow_fault; assumption.
Qed.

(** C6.  The patch is the call followed by NOPs only while the cave fits
    the initial patch buffer (lemma [breakpoints_apply_run]).  When the
    first active description has a cave larger than the buffer, the
    memset of the grow branch is given the length
    current_asm_buf_size - cavesize in [size_t], which runs past the
    reallocated buffer: setup faults after the two allocations and
    installs no patch. *)
Theorem breakpoints_apply_grow_fault (bp : breakpoint_local_t)
    (rest : list breakpoint_local_t) (w : world) :
  let bps := bp :: rest in
  Forall name_fits bps -> Forall short_addrs bps ->
  active bp = true -> slot_size bp <> 0 ->
  CALL_LEN <= BINHACK_BUFSIZE_MIN ->
  BINHACK_BUFSIZE_MIN < bp_cavesize bp ->
  bp_cavesize bp - BINHACK_BUFSIZE_MIN < 2 ^ 31 ->
  addr_total bps < 2 ^ 32 ->
  let S := wrap (src_total bps) in
  let T := addr_total bps * entry_size in
  let p1 := wrap (VirtualAlloc_result (w_events w) S) in
  let p2 := wrap (VirtualAlloc_result (w_events w ++ [EvAlloc p1 S]) T) in
  p1 <> 0 -> 0 < p2 -> p2 + T < 2 ^ 32 ->
  exists m',
    apply (Some bps) hMod w
    = Fault (mk_world m' (w_events w ++ [EvAlloc p1 S; EvAlloc p2 T])).
Proof.
  intros bps Hfit Hshort Hact Hsz Hmin0 Hbig Hsmall Hlt S T p1 p2 Hp1 Hp2 Hp2'.
  pose proof entry_size_nonneg as He.
  assert (Htotal : 0 < addr_total bps).
  { pose proof (valid_total_nonneg rest). unfold bps. simpl.
    unfold is_active in Hact. destruct (valid bp); [discriminate |].
    simpl List.length. lia. }
  assert (HA : wrap (addr_total bps) = addr_total bps) by (apply wrap_small; lia).
  assert (HT : wrap T = T) by (apply wrap_small; unfold T in *; nia).
  destruct (layout_pass_spec bps w Hfit (short_few bps Hshort)) as [bps' [EL Hlaid]].
  unfold bps at 1. unfold breakpoints_apply. cbv beta iota. fold bps.
  rewrite (bind_done _ _ _ _ _ EL). cbv beta iota.
  cbn [total_valid_addrs sourcecaves_total_size valid_breakpoint_count].
  rewrite HA. change (wrap (src_total bps)) with S.
  change (addr_total bps * entry_size) with T. rewrite HT.
  destruct (Z.eqb_spec (addr_total bps) 0) as [H0 | _]; [lia |].
  rewrite (bind_done _ _ _ _ _ (alloc_done S w Hp1)).
  change (wrap (VirtualAlloc_result (w_events w) S)) with p1.
  assert (Hnn : is_null p1 = false).
  { unfold is_null, p1. rewrite wrap_wrap. apply Z.eqb_neq. exact Hp1. }
  destruct (mem_store_run p1 0 (repeat x86_INT3 (Z.to_nat S))
              (mk_world (w_mem w) (w_events w ++ [EvAlloc p1 S])) Hnn) as [m1 E1].
  unfold memset. rewrite (bind_done _ _ _ _ _ E1).
  assert (Hp2nz : p2 <> 0) by lia.
  rewrite (bind_done _ _ _ _ _
             (alloc_done T (mk_world m1 (w_events w ++ [EvAlloc p1 S])) Hp2nz)).
  cbn [w_events w_mem].
  change (wrap (VirtualAlloc_result (w_events w ++ [EvAlloc p1 S]) T)) with p2.
  rewrite (wrap_small (p2 + T)) by (unfold T in *; nia).
  destruct (callcave_fill_done (Z.to_nat (addr_total bps)) p2
              (mk_world m1 ((w_events w ++ [EvAlloc p1 S]) ++ [EvAlloc p2 T])))
    as [m2 E2].
  { lia. }
  { rewrite Z2Nat.id by lia. exact Hp2'. }
  rewrite Z2Nat.id in E2 by lia.
  change (addr_total bps * entry_size) with T in E2.
  rewrite (bind_done _ _ _ _ _ E2). cbn [w_events].
  exists m2. rewrite <- app_assoc. apply bind_fault.
  unfold render_pass.
  rewrite (bind_done _ _ _ _ _ (asm_buf_init_done _ Hmin0)).
  unfold bps in Hlaid |- *.
  inversion Hlaid as [|? bp' ? rest' [Hcs _] _]; subst.
  cbn [map].
  apply render_loop_grow_fault; cbn [current_asm_buf_size asm_buf].
  - unfold size_entry. rewrite Hact. exact Hsz.
  - symmetry. apply shape_length; [reflexivity | exact Hmin0].
  - rewrite Hcs. exact Hbig.
  - rewrite Hcs. exact Hsmall.
Qed.

(** ** Setup: further properties *)

Local Abbreviation windows := (valid_windows func_get VirtualCheckRegion).

Lemma patch_windows_app (l1 l2 : list event) :
  patch_windows (l1 ++ l2) = patch_windows l1 ++ patch_windows l2.
Proof.
  induction l1 as [|e rest IH]; [reflexivity |].
  destruct e; simpl; rewrite IH; reflexivity.
Qed.

Lemma patch_bytes_length (s : patch_site) :
  CALL_LEN <= ps_cavesize s ->
  Z.of_nat (List.length (patch_bytes s)) = ps_cavesize s.
Proof.
  intros H. unfold patch_bytes. simpl List.length. rewrite repeat_length.
  unfold CALL_LEN, ptr_size in *. lia.
Qed.

Lemma plan_addrs_windows (i : nat) (bp : breakpoint_local_t) (addrs : list Z) :
  CALL_LEN <= bp_cavesize bp ->
  forall sp cp,
    patch_windows (map patch_event (plan_addrs bp_entry i bp addrs sp cp))
    = map (fun a => (a, bp_cavesize bp)) addrs.
Proof.
  intros Hc. induction addrs as [|a rest IH]; intros sp cp; [reflexivity |].
  cbn [plan_addrs map patch_windows patch_event]. rewrite IH.
  rewrite patch_bytes_length by exact Hc. reflexivity.
Qed.

Lemma plan_windows (bps : list breakpoint_local_t) :
  Forall cave_fits bps ->
  forall i sp cp,
    patch_windows (map patch_event (the_plan i bps sp cp)) = flat_map windows bps.
Proof.
  induction 1 as [|bp rest Hfit _ IH]; intros i sp cp; [reflexivity |].
  cbn [plan flat_map]. rewrite map_app, patch_windows_app, IH.
  rewrite plan_addrs_windows by apply Hfit. reflexivity.
Qed.

(** X1.  A completed setup writes through PatchRegion exactly the windows
    of the valid pairs: cavesize bytes at each valid address, in
    description order and address order, and nothing else. *)
Theorem breakpoints_apply_windows (bps : list breakpoint_local_t) (w : world) :
  Forall name_fits bps -> Forall short_addrs bps -> Forall cave_fits bps ->
  BINHACK_BUFSIZE_MIN + 20 < 2 ^ 32 ->
  0 < addr_total bps < 2 ^ 32 ->
  let S := src_total bps in
  let T := addr_total bps * entry_size in
  let p1 := wrap (VirtualAlloc_result (w_events w) S) in
  let p2 := wrap (VirtualAlloc_result (w_events w ++ [EvAlloc p1 S]) T) in
  0 < p1 -> p1 + S < 2 ^ 32 -> 0 < p2 -> p2 + T < 2 ^ 32 ->
  exists r w',
    apply (Some bps) hMod w = Done r w'
    /\ patch_windows (w_events w')
       = patch_windows (w_events w) ++ flat_map windows bps.
Proof.
  intros Hfit Hshort Hfits Hmin Htotal S T p1 p2 Hp1 Hp1' Hp2 Hp2'.
  destruct (breakpoints_apply_run bps w Hfit (short_few bps Hshort) Hfits Hmin
              Htotal Hp1 Hp1' Hp2 Hp2') as [m' E].
  eexists _, _. split; [exact E |].
  cbn [w_events]. rewrite !patch_windows_app, plan_windows by exact Hfits.
  cbn [patch_windows]. rewrite app_nil_r. reflexivity.
Qed.

Lemma plan_addrs_inside (i : nat) (bp : breakpoint_local_t) (addrs : list Z)
    (p1 S p2 T : Z) :
  bp_cavesize bp + CALL_LEN <= slot_size bp ->
  forall sp cp,
    p1 <= sp -> 0 <= sp ->
    sp + Z.of_nat (List.length addrs) * slot_size bp <= p1 + S ->
    p1 + S < 2 ^ 32 ->
    p2 <= cp -> 0 <= cp ->
    cp + Z.of_nat (List.length addrs) * entry_size <= p2 + T ->
    p2 + T < 2 ^ 32 ->
    Forall (slot_inside p1 S p2 T entry_size)
      (plan_addrs bp_entry i bp addrs sp cp).
Proof.
  intros Hsz.
  pose proof (slot_size_nonneg bp) as Hs. pose proof entry_size_nonneg as He.
  induction addrs as [|a rest IH]; intros sp cp H1 H1' H2 H3 H4 H4' H5 H6.
  - constructor.
  - simpl List.length in *. rewrite Nat2Z.inj_succ in *.
    cbn [plan_addrs]. constructor.
    + unfold slot_inside. simpl. nia.
    + rewrite !wrap_small by nia. apply IH; nia.
Qed.

Lemma plan_inside (bps : list breakpoint_local_t) (p1 S p2 T : Z) :
  Forall cave_fits bps -> BINHACK_BUFSIZE_MIN + 20 < 2 ^ 32 ->
  forall i sp cp,
    p1 <= sp -> 0 <= sp -> sp + src_total bps <= p1 + S -> p1 + S < 2 ^ 32 ->
    p2 <= cp -> 0 <= cp -> cp + addr_total bps * entry_size <= p2 + T ->
    p2 + T < 2 ^ 32 ->
    Forall (slot_inside p1 S p2 T entry_size) (the_plan i bps sp cp).
Proof.
  intros Hfits Hmin. pose proof entry_size_nonneg as He.
  induction Hfits as [|bp rest Hfit _ IH]; intros i sp cp H1 H1' H2 H3 H4 H4' H5 H6.
  - constructor.
  - simpl in H2, H5 |- *.
    pose proof (slot_size_nonneg bp) as Hs.
    pose proof (source_total_nonneg rest) as Hsr.
    pose proof (valid_total_nonneg rest) as Hvr.
    apply Forall_app. split.
    + apply plan_addrs_inside; try nia.
      apply (slot_size_bounds bp Hfit Hmin).
    + rewrite !wrap_small by nia. apply IH; nia.
Qed.

(** X2.  In the second pass every slot pair lies inside the two allocated
    regions, and a source-cave slot is large enough for the copied bytes
    and the jump back: no slot reaches into its neighbour or past the end
    of its region. *)
Theorem render_slots_inside (bps : list breakpoint_local_t) (w : world) :
  Forall name_fits bps -> Forall short_addrs bps ->
  exists bps' lay,
    l_pass bps w = Done (bps', map size_entry bps, lay) w
    /\ forall p1 p2 w1,
        Forall cave_fits bps ->
        CALL_LEN <= BINHACK_BUFSIZE_MIN ->
        BINHACK_BUFSIZE_MIN + 20 < 2 ^ 32 ->
        0 < p1 -> p1 + src_total bps < 2 ^ 32 ->
        0 < p2 -> p2 + addr_total bps * entry_size < 2 ^ 32 ->
        exists st w2,
          r_pass bps' (map size_entry bps) p1 p2 w1 = Done st w2
          /\ Forall (slot_inside p1 (src_total bps) p2
                       (addr_total bps * entry_size) entry_size)
               (rendered st).
Proof.
  intros Hfit Hshort.
  destruct (layout_pass_spec bps w Hfit (short_few bps Hshort)) as [bps' [E L]].
  eexists bps', _. split; [exact E |].
  intros p1 p2 w1 Hfits Hmin0 Hmin Hp1 Hp1' Hp2 Hp2'.
  destruct (render_pass_spec bps bps' p1 p2 w1 L Hfits Hmin0 Hmin Hp1 Hp1' Hp2 Hp2')
    as (st & m' & Er & Hr & _).
  exists st. eexists. split; [exact Er |]. rewrite Hr.
  apply plan_inside; try assumption; lia.
Qed.

Lemma bind_inv {A B : Type} (c : M A) (k : A -> M B) (w w' : world) (b : B) :
  bind c k w = Done b w' ->
  exists a w1, c w = Done a w1 /\ k a w1 = Done b w'.
Proof.
  unfold bind. destruct (c w) as [a w1 | w1 | w1]; intros H;
    [eauto | discriminate | discriminate].
Qed.

(* one description raises valid_breakpoint_count by at most one *)
Lemma layout_step_count (bp bp' : breakpoint_local_t) (lay lay' : layout_t)
    (size_i : Z) (w w' : world) :
  layout_step func_get VirtualCheckRegion hMod bp lay w
  = Done (bp', size_i, lay') w' ->
  valid_breakpoint_count lay' = valid_breakpoint_count lay
  \/ valid_breakpoint_count lay' = wrap (valid_breakpoint_count lay + 1).
Proof.
  unfold layout_step. intros H.
  apply bind_inv in H. destruct H as ([fnd cur] & w1 & _ & H).
  destruct (negb fnd).
  - inversion H; subst. now left.
  - destruct (layout_addrs _ _ _ _ _ _) as [[addrs n] t].
    destruct (n =? 0); inversion H; subst; simpl; auto.
Qed.

Lemma layout_loop_count (bps : list breakpoint_local_t) :
  forall lay w bps' sizes lay' w',
    layout_loop func_get VirtualCheckRegion hMod bps lay w
    = Done (bps', sizes, lay') w' ->
    0 <= valid_breakpoint_count lay ->
    valid_breakpoint_count lay + Z.of_nat (List.length bps) < 2 ^ 32 ->
    valid_breakpoint_count lay <= valid_breakpoint_count lay'
    <= valid_breakpoint_count lay + Z.of_nat (List.length bps).
Proof.
  induction bps as [|bp rest IH]; intros lay w bps' sizes lay' w' H H0 Hlt.
  - inversion H; subst. simpl. lia.
  - simpl List.length in *. rewrite Nat2Z.inj_succ in *.
    cbn [layout_loop] in H.
    apply bind_inv in H. destruct H as ([[cur size_i] lay1] & w1 & Hstep & H).
    apply bind_inv in H. destruct H as ([[rest' sizes'] lay2] & w2 & Hrest & H).
    pose proof (IH _ _ _ _ _ _ Hrest) as IH'.
    inversion H; subst.
    apply layout_step_count in Hstep.
    assert (Hc : valid_breakpoint_count lay1 = valid_breakpoint_count lay
                 \/ valid_breakpoint_count lay1 = valid_breakpoint_count lay + 1).
    { destruct Hstep as [-> | ->]; [now left | right].
      apply wrap_small. lia. }
    destruct Hc as [Hc | Hc]; rewrite Hc in IH'; lia.
Qed.

(** X3.  Whenever [breakpoints_apply] returns, its result lies between 0
    and the number of descriptions it was given. *)
Theorem breakpoints_apply_result_bounds (bps : list breakpoint_local_t)
    (w w' : world) (r : Z) :
  Z.of_nat (List.length bps) < 2 ^ 31 ->
  apply (Some bps) hMod w = Done r w' ->
  0 <= r <= Z.of_nat (List.length bps).
Proof.
  intros Hlen H.
  destruct bps as [|bp0 rest0]; [inversion H; simpl; lia |].
  unfold breakpoints_apply in H. cbv beta iota in H.
  set (bps := bp0 :: rest0) in *. clearbody bps. clear bp0 rest0.
  apply bind_inv in H. destruct H as ([[bps' sizes] lay] & w1 & Hlay & H).
  unfold layout_pass in Hlay.
  pose proof (layout_loop_count _ _ _ _ _ _ _ Hlay) as Hcount.
  cbn [valid_breakpoint_count] in Hcount.
  specialize (Hcount ltac:(lia) ltac:(lia)).
  destruct (total_valid_addrs lay =? 0).
  - inversion H; subst. lia.
  - apply bind_inv in H. destruct H as (cave_source & w2 & _ & H).
    apply bind_inv in H. destruct H as (u1 & w3 & _ & H).
    apply bind_inv in H. destruct H as (cave_call & w4 & _ & H).
    apply bind_inv in H. destruct H as (u2 & w5 & _ & H).
    apply bind_inv in H. destruct H as (st & w6 & _ & H).
    apply bind_inv in H. destruct H as (u3 & w7 & _ & H).
    apply bind_inv in H. destruct H as (u4 & w8 & _ & H).
    inversion H; subst.
    rewrite (wrap_small (Z.of_nat (List.length bps))) by lia.
    rewrite wrap_small by lia.
    unfold to_int.
    destruct (Z.ltb_spec (Z.of_nat (List.length bps) - valid_breakpoint_count lay)
                (2 ^ 31)); lia.
Qed.

(* The last three writes of one rendered address: the jump opcode, its
   displacement, and the patch. *)
Lemma render_site_mem (i : nat) (cur : breakpoint_local_t) (size addr : Z)
    (st : render_t) (w : world) :
  CALL_LEN <= bp_cavesize cur <= BINHACK_BUFSIZE_MIN ->
  ready st ->
  is_null addr = false ->
  is_null (sourcecave_p st) = false ->
  is_null (callcave_p st) = false ->
  let s := {| ps_addr := addr; ps_index := i; ps_cavesize := bp_cavesize cur;
              ps_sourcecave := sourcecave_p st; ps_callcave := callcave_p st;
              ps_slot_size := size |} in
  exists st' m4,
    r_site i cur size addr st w
    = Done st'
        (mk_world
           (store_bytes
              (store_bytes
                 (store_bytes m4 (sourcecave_p st + bp_cavesize cur)
                    [x86_JMP_NEAR_REL32])
                 (sourcecave_p st + (bp_cavesize cur + 1))
                 (le32 (wrap (addr - (sourcecave_p st + CALL_LEN)))))
              addr (patch_bytes s))
           (w_events w ++ [patch_event s])).
Proof.
  intros Hcs [[d [Hd Hbuf]] Hsize] Haddr Hsp Hcp s.
  unfold render_site.
  destruct (mem_store_run (callcave_p st) bp_entry_cave
              (le32 (sourcecave_p st)) w Hcp) as [m1 E1].
  rewrite (bind_done _ _ _ _ _ E1).
  destruct (mem_store_run (callcave_p st) bp_entry_local
              (le32 (bp_ptr i)) (mk_world m1 (w_events w)) Hcp) as [m2 E2].
  rewrite (bind_done _ _ _ _ _ E2).
  destruct (mem_store_run (callcave_p st) bp_entry_call
              (le32 (wrap (breakpoint_process_addr
                           - wrap (callcave_p st + bp_entry_call) - ptr_size)))
              (mk_world m2 (w_events w)) Hcp) as [m3 E3].
  rewrite (bind_done _ _ _ _ _ E3).
  rewrite Hbuf, shape_write_disp by exact Hd.
  cbn [lift]. unfold bind at 1. unfold ret at 1.
  destruct (memcpy_done (sourcecave_p st) addr (bp_cavesize cur)
              (mk_world m3 (w_events w)) Haddr Hsp) as [m4 E4].
  rewrite (bind_done _ _ _ _ _ E4).
  unfold bind at 1. unfold modify_mem at 1. cbn [w_mem w_events].
  rewrite (bind_done _ _ _ _ _ (mem_store_done _ _ _ _ Hsp)).
  rewrite (bind_done _ _ _ _ _ (mem_store_done _ _ _ _ Hsp)).
  cbn [w_mem w_events].
  rewrite shape_read by exact Hcs.
  cbn [lift]. unfold bind at 1. unfold ret at 1.
  unfold bind, PatchRegion, ret. cbn [w_mem w_events].
  eexists _, _. reflexivity.
Qed.

Lemma load32_store_le32 (m : memory) (a v : Z) :
  load32 (store_bytes m a (le32 v)) a = wrap v.
Proof. apply (load32_store32_same m a v). Qed.

Lemma nth_repeat_lt {A : Type} (x d : A) (k n : nat) :
  (k < n)%nat -> nth k (repeat x n) d = x.
Proof.
  revert k. induction n as [|n IH]; intros k H; [lia |].
  destruct k; simpl; [reflexivity | apply IH; lia].
Qed.

Lemma load32_store_bytes_out (m : memory) (a b : Z) (bs : list Z) :
  (forall k j, 0 <= k < Z.of_nat (List.length bs) -> 0 <= j < 4 ->
     wrap (a + k) <> wrap (b + j)) ->
  load32 (store_bytes m a bs) b = load32 m b.
Proof.
  intros H. unfold load32.
  rewrite !load8_store_bytes_out; try reflexivity;
    intros k Hk; try (apply H; lia).
  replace b with (b + 0) by lia. apply H; lia.
Qed.

(** X4.  After one address is rendered, the patched site holds a near
    call that lands on this address's call-cave slot, followed by NOPs up
    to cavesize. *)
Theorem render_site_call (i : nat) (cur : breakpoint_local_t) (size addr : Z)
    (st : render_t) (w : world) :
  CALL_LEN <= bp_cavesize cur <= BINHACK_BUFSIZE_MIN ->
  BINHACK_BUFSIZE_MIN < 2 ^ 32 ->
  ready st ->
  is_null addr = false ->
  is_null (sourcecave_p st) = false ->
  is_null (callcave_p st) = false ->
  exists st' w',
    r_site i cur size addr st w = Done st' w'
    /\ load8 (w_mem w') addr = x86_CALL_NEAR_REL32
    /\ wrap (addr + CALL_LEN + load32 (w_mem w') (addr + 1))
       = wrap (callcave_p st)
    /\ forall k, CALL_LEN <= k < bp_cavesize cur ->
         load8 (w_mem w') (addr + k) = x86_NOP.
Proof.
  intros Hcs Hmin Hready Haddr Hsp Hcp.
  destruct (render_site_mem i cur size addr st w Hcs Hready Haddr Hsp Hcp)
    as (st' & m4 & E).
  eexists _, _. split; [exact E |]. cbn [w_mem].
  set (s := {| ps_addr := addr; ps_index := i; ps_cavesize := bp_cavesize cur;
               ps_sourcecave := sourcecave_p st; ps_callcave := callcave_p st;
               ps_slot_size := size |}).
  set (m6 := store_bytes _ (sourcecave_p st + (bp_cavesize cur + 1)) _).
  assert (Hlen : Z.of_nat (List.length (patch_bytes s)) = bp_cavesize cur)
    by (apply patch_bytes_length; apply Hcs).
  assert (Hbyte : forall k, 0 <= k < bp_cavesize cur ->
            load8 (store_bytes m6 addr (patch_bytes s)) (addr + k)
            = nth (Z.to_nat k) (patch_bytes s) 0 mod 256).
  { intros k Hk. apply load8_store_bytes_in; lia. }
  unfold CALL_LEN, ptr_size in *. change (4 + 1) with 5 in *.
  set (d := wrap (callcave_p st - (addr + 5))).
  assert (Hpatch : patch_bytes s
                   = x86_CALL_NEAR_REL32 :: d mod 256 :: (d / 2 ^ 8) mod 256
                     :: (d / 2 ^ 16) mod 256 :: (d / 2 ^ 24) mod 256
                     :: repeat x86_NOP (Z.to_nat (bp_cavesize cur - 5)))
    by reflexivity.
  split; [| split].
  - replace addr with (addr + 0) at 2 by lia.
    rewrite Hbyte by lia. rewrite Hpatch. reflexivity.
  - unfold load32.
    replace (addr + 1 + 1) with (addr + 2) by lia.
    replace (addr + 1 + 2) with (addr + 3) by lia.
    replace (addr + 1 + 3) with (addr + 4) by lia.
    rewrite !Hbyte by lia. rewrite Hpatch.
    change (Z.to_nat 1) with 1%nat. change (Z.to_nat 2) with 2%nat.
    change (Z.to_nat 3) with 3%nat. change (Z.to_nat 4) with 4%nat.
    cbn [nth]. rewrite !Z.mod_mod by lia. rewrite le32_sum.
    unfold d. rewrite wrap_wrap, wrap_add_r. f_equal. lia.
  - intros k Hk. rewrite Hbyte by lia. rewrite Hpatch.
    replace (Z.to_nat k) with (5 + Z.to_nat (k - 5))%nat by lia.
    cbn [nth Nat.add]. rewrite nth_repeat_lt by lia. reflexivity.
Qed.

(** X5.  The source cave of a rendered address ends in a near jump that
    returns to the instruction after the patched bytes, addr + cavesize,
    provided the patched window does not cover those five bytes. *)
Theorem render_site_jump_back (i : nat) (cur : breakpoint_local_t)
    (size addr : Z) (st : render_t) (w : world) :
  CALL_LEN <= bp_cavesize cur <= BINHACK_BUFSIZE_MIN ->
  BINHACK_BUFSIZE_MIN < 2 ^ 32 ->
  ready st ->
  is_null addr = false ->
  is_null (sourcecave_p st) = false ->
  is_null (callcave_p st) = false ->
  (forall k j, 0 <= k < bp_cavesize cur -> 0 <= j < CALL_LEN ->
     wrap (addr + k) <> wrap (sourcecave_p st + bp_cavesize cur + j)) ->
  exists st' w',
    r_site i cur size addr st w = Done st' w'
    /\ load8 (w_mem w') (sourcecave_p st + bp_cavesize cur) = x86_JMP_NEAR_REL32
    /\ wrap (sourcecave_p st + bp_cavesize cur + CALL_LEN
             + load32 (w_mem w') (sourcecave_p st + bp_cavesize cur + 1))
       = wrap (addr + bp_cavesize cur).
Proof.
  intros Hcs Hmin Hready Haddr Hsp Hcp Hapart.
  destruct (render_site_mem i cur size addr st w Hcs Hready Haddr Hsp Hcp)
    as (st' & m4 & E).
  eexists _, _. split; [exact E |]. cbn [w_mem].
  set (s := {| ps_addr := addr; ps_index := i; ps_cavesize := bp_cavesize cur;
               ps_sourcecave := sourcecave_p st; ps_callcave := callcave_p st;
               ps_slot_size := size |}).
  assert (Hlen : Z.of_nat (List.length (patch_bytes s)) = bp_cavesize cur)
    by (apply patch_bytes_length; apply Hcs).
  unfold CALL_LEN, ptr_size in *. change (4 + 1) with 5 in *.
  set (sp := sourcecave_p st) in *. set (cs := bp_cavesize cur) in *.
  split.
  - rewrite load8_store_bytes_out.
    2: { intros k Hk. replace (sp + cs) with (sp + cs + 0) by lia.
         apply Hapart; lia. }
    rewrite load8_store_bytes_out.
    2: { intros k Hk. simpl in Hk.
         replace (sp + (cs + 1) + k) with (sp + cs + (k + 1)) by lia.
         replace (sp + cs) with (sp + cs + 0) at 2 by lia.
         apply wrap_neq_offset; lia. }
    replace (sp + cs) with (sp + cs + 0) at 2 by lia.
    rewrite load8_store_bytes_in by (simpl; lia). reflexivity.
  - rewrite load32_store_bytes_out.
    2: { intros k j Hk Hj.
         replace (sp + cs + 1 + j) with (sp + cs + (j + 1)) by lia.
         apply Hapart; lia. }
    replace (sp + (cs + 1)) with (sp + cs + 1) by lia.
    rewrite load32_store_le32, wrap_wrap, wrap_add_r. f_equal. lia.
Qed.

Lemma apart_neq (a n b k i j : Z) :
  in_space a n -> in_space b k -> apart a n b k ->
  0 <= i < n -> 0 <= j < k -> wrap (a + i) <> wrap (b + j).
Proof.
  unfold in_space, apart. intros Ha Hb Hab Hi Hj.
  rewrite !wrap_small by lia. lia.
Qed.

(* the memory one rendered address leaves, written out *)
Lemma render_site_mem_full (i : nat) (cur : breakpoint_local_t)
    (size addr : Z) (st : render_t) (w : world) :
  CALL_LEN <= bp_cavesize cur <= BINHACK_BUFSIZE_MIN ->
  ready st ->
  is_null addr = false ->
  is_null (sourcecave_p st) = false ->
  is_null (callcave_p st) = false ->
  let sp := sourcecave_p st in
  let cp := callcave_p st in
  let cs := bp_cavesize cur in
  let s := {| ps_addr := addr; ps_index := i; ps_cavesize := cs;
              ps_sourcecave := sp; ps_callcave := cp;
              ps_slot_size := size |} in
  let m1 := store_bytes (w_mem w) (cp + bp_entry_cave) (le32 sp) in
  let m2 := store_bytes m1 (cp + bp_entry_local) (le32 (bp_ptr i)) in
  let m3 := store_bytes m2 (cp + bp_entry_call)
              (le32 (wrap (breakpoint_process_addr
                           - wrap (cp + bp_entry_call) - ptr_size))) in
  let m4 := cave_fix (memmove m3 sp addr cs) sp addr in
  exists st',
    r_site i cur size addr st w
    = Done st'
        (mk_world
           (store_bytes
              (store_bytes
                 (store_bytes m4 (sp + cs) [x86_JMP_NEAR_REL32])
                 (sp + (cs + 1))
                 (le32 (wrap (addr - (sp + CALL_LEN)))))
              addr (patch_bytes s))
           (w_events w ++ [patch_event s])).
Proof.
  intros Hcs [[d [Hd Hbuf]] Hsize] Haddr Hsp Hcp sp cp cs s m1 m2 m3 m4.
  unfold render_site.
  rewrite (bind_done _ _ _ _ _ (mem_store_done _ _ _ _ Hcp)).
  rewrite (bind_done _ _ _ _ _ (mem_store_done _ _ _ _ Hcp)).
  rewrite (bind_done _ _ _ _ _ (mem_store_done _ _ _ _ Hcp)).
  cbn [w_mem w_events].
  rewrite Hbuf, shape_write_disp by exact Hd.
  cbn [lift]. unfold bind at 1. unfold ret at 1.
  assert (E4 : memcpy (sourcecave_p st) addr (bp_cavesize cur)
                 (mk_world m3 (w_events w))
               = Done tt (mk_world (memmove m3 sp addr cs) (w_events w))).
  { unfold memcpy. rewrite Haddr, mem_store_done by exact Hsp.
    cbn [w_mem w_events]. rewrite Z.add_0_r. reflexivity. }
  fold cp. fold m1. fold m2. fold m3.
  rewrite (bind_done _ _ _ _ _ E4).
  unfold bind at 1. unfold modify_mem at 1. cbn [w_mem w_events].
  rewrite (bind_done _ _ _ _ _ (mem_store_done _ _ _ _ Hsp)).
  rewrite (bind_done _ _ _ _ _ (mem_store_done _ _ _ _ Hsp)).
  cbn [w_mem w_events].
  rewrite shape_read by exact Hcs.
  cbn [lift]. unfold bind at 1. unfold ret at 1.
  unfold bind, PatchRegion, ret. cbn [w_mem w_events].
  eexists. reflexivity.
Qed.

Lemma fields_clear_load8 (cp : Z) (offs : list Z) (a n off v j : Z)
    (m : memory) :
  fields_clear cp offs a n -> In off offs -> in_space a n -> 0 <= j < n ->
  load8 (store_bytes m (cp + off) (le32 v)) (a + j) = load8 m (a + j).
Proof.
  intros Hf Hin Ha Hj. unfold fields_clear in Hf.
  rewrite Forall_forall in Hf. destruct (Hf off Hin) as [Hs Hap].
  apply load8_store_bytes_out. intros k Hk. simpl in Hk.
  apply (apart_neq (cp + off) ptr_size a n); assumption.
Qed.

(** X6.  The source-cave slot of a rendered address starts with the
    code that stood at the address: every copied byte is the original
    one, except the displacement of a leading near call or jump, which
    is rewritten so that it still reaches its original target. *)
Theorem render_site_keeps_code (i : nat) (cur : breakpoint_local_t)
    (size addr : Z) (st : render_t) (w : world) :
  CALL_LEN <= bp_cavesize cur <= BINHACK_BUFSIZE_MIN ->
  ready st ->
  is_null addr = false ->
  is_null (sourcecave_p st) = false ->
  is_null (callcave_p st) = false ->
  in_space addr (bp_cavesize cur) ->
  in_space (sourcecave_p st) (bp_cavesize cur + CALL_LEN) ->
  apart addr (bp_cavesize cur) (sourcecave_p st) (bp_cavesize cur + CALL_LEN) ->
  fields_clear (callcave_p st) [bp_entry_cave; bp_entry_local; bp_entry_call]
    addr (bp_cavesize cur) ->
  let relative := (load8 (w_mem w) addr =? x86_CALL_NEAR_REL32)
                  || (load8 (w_mem w) addr =? x86_JMP_NEAR_REL32) in
  exists st' w',
    r_site i cur size addr st w = Done st' w'
    /\ (forall k, 0 <= k < bp_cavesize cur ->
          k = 0 \/ CALL_LEN <= k \/ relative = false ->
          load8 (w_mem w') (sourcecave_p st + k) = load8 (w_mem w) (addr + k))
    /\ (relative = true ->
        wrap (sourcecave_p st + CALL_LEN
              + load32 (w_mem w') (sourcecave_p st + 1))
        = wrap (addr + CALL_LEN + load32 (w_mem w) (addr + 1))).
Proof.
  intros Hcs Hready Haddr Hsp Hcp Hsa Hss Hap Hf relative.
  destruct (render_site_mem_full i cur size addr st w Hcs Hready Haddr Hsp Hcp)
    as (st' & E).
  eexists _, _. split; [exact E |]. cbn [w_mem]. clear E.
  set (sp := sourcecave_p st) in *. set (cp := callcave_p st) in *.
  set (cs := bp_cavesize cur) in *.
  set (s := {| ps_addr := addr; ps_index := i; ps_cavesize := cs;
               ps_sourcecave := sp; ps_callcave := cp;
               ps_slot_size := size |}).
  set (m3 := store_bytes _ (cp + bp_entry_call) _).
  assert (Hlen : Z.of_nat (List.length (patch_bytes s)) = cs)
    by (apply patch_bytes_length; apply Hcs).
  unfold CALL_LEN, ptr_size in Hcs, Hss, Hap |- *.
  change (4 + 1) with 5 in *.
  assert (Hcs32 : cs <= 2 ^ 32) by (unfold in_space in Hsa; lia).
  assert (Hm3 : forall j, 0 <= j < cs ->
            load8 m3 (addr + j) = load8 (w_mem w) (addr + j)).
  { intros j Hj. unfold m3.
    rewrite (fields_clear_load8 cp _ addr cs bp_entry_call)
      by first [exact Hf | exact Hsa | exact Hj
               | right; right; left; reflexivity].
    rewrite (fields_clear_load8 cp _ addr cs bp_entry_local)
      by first [exact Hf | exact Hsa | exact Hj
               | right; left; reflexivity].
    rewrite (fields_clear_load8 cp _ addr cs bp_entry_cave)
      by first [exact Hf | exact Hsa | exact Hj | left; reflexivity].
    reflexivity. }
  assert (Hop : load8 (memmove m3 sp addr cs) sp = load8 (w_mem w) addr).
  { replace sp with (sp + 0) at 2 by lia.
    rewrite memmove_dst by lia.
    rewrite Hm3 by lia. f_equal. lia. }
  (* the three later stores leave the copied bytes alone *)
  assert (Hlate : forall m k, 0 <= k < cs ->
            load8 (store_bytes
                     (store_bytes (store_bytes m (sp + cs) [x86_JMP_NEAR_REL32])
                        (sp + (cs + 1)) (le32 (wrap (addr - (sp + 5)))))
                     addr (patch_bytes s)) (sp + k)
            = load8 m (sp + k)).
  { intros m k Hk.
    rewrite load8_store_bytes_out.
    2: { intros j Hj. apply (apart_neq addr cs sp (cs + 5)); try assumption; lia. }
    rewrite load8_store_bytes_out.
    2: { intros j Hj. simpl in Hj.
         replace (sp + (cs + 1) + j) with (sp + (cs + 1 + j)) by lia.
         unfold in_space in Hss. apply wrap_neq_offset; lia. }
    rewrite load8_store_bytes_out.
    2: { intros j Hj. simpl in Hj.
         replace (sp + cs + j) with (sp + (cs + j)) by lia.
         unfold in_space in Hss. apply wrap_neq_offset; lia. }
    reflexivity. }
  split.
  - intros k Hk Hcase. rewrite Hlate by exact Hk.
    unfold cave_fix. rewrite Hop. fold relative.
    destruct relative eqn:Hrel.
    + unfold store32. rewrite load8_store_bytes_out.
      2: { intros j Hj. simpl in Hj.
           replace (sp + 1 + j) with (sp + (1 + j)) by lia.
           unfold in_space in Hss. apply wrap_neq_offset; try lia.
           all: destruct Hcase as [-> | [H5 | Hno]]; [lia | lia | discriminate]. }
      rewrite memmove_dst by lia. apply Hm3. exact Hk.
    + rewrite memmove_dst by lia. apply Hm3. exact Hk.
  - intros Hrel.
    assert (H32 : forall m,
              load32 (store_bytes
                        (store_bytes (store_bytes m (sp + cs) [x86_JMP_NEAR_REL32])
                           (sp + (cs + 1)) (le32 (wrap (addr - (sp + 5)))))
                        addr (patch_bytes s)) (sp + 1)
              = load32 m (sp + 1)).
    { intros m. unfold load32.
      replace (sp + 1) with (sp + (0 + 1)) at 1 by lia.
      replace (sp + 1 + 1) with (sp + 2) by lia.
      replace (sp + 1 + 2) with (sp + 3) by lia.
      replace (sp + 1 + 3) with (sp + 4) by lia.
      rewrite !Hlate by lia. reflexivity. }
    rewrite H32. unfold cave_fix. rewrite Hop. fold relative. rewrite Hrel.
    rewrite load32_store32_same, wrap_wrap.
    replace (sp + 1) with (sp + (0 + 1)) at 2 by lia.
    rewrite (load32_memmove_dst m3 sp addr cs 1) by lia.
    assert (Hd : load32 m3 (addr + 1) = load32 (w_mem w) (addr + 1)).
    { unfold load32.
      replace (addr + 1 + 1) with (addr + 2) by lia.
      replace (addr + 1 + 2) with (addr + 3) by lia.
      replace (addr + 1 + 3) with (addr + 4) by lia.
      rewrite !Hm3 by lia. reflexivity. }
    rewrite Hd, wrap_add_r. f_equal. lia.
Qed.

Lemma load32_store_clear (m : memory) (a : Z) (bs : list Z) (b A N : Z) :
  in_space b ptr_size -> in_space A N -> apart b ptr_size A N ->
  A <= a -> a + Z.of_nat (List.length bs) <= A + N ->
  load32 (store_bytes m a bs) b = load32 m b.
Proof.
  unfold in_space, apart, ptr_size. intros Hb HA Hap Hlo Hhi.
  apply load32_store_bytes_out. intros k j Hk Hj.
  rewrite !wrap_small by lia. lia.
Qed.

(** X7.  After one address is rendered, its call-cave stub holds the
    address of the source-cave slot and of the breakpoint description in
    its two pointer fields, and its call displacement reaches
    breakpoint_process. *)
Theorem render_site_stub (i : nat) (cur : breakpoint_local_t)
    (size addr : Z) (st : render_t) (w : world) :
  CALL_LEN <= bp_cavesize cur <= BINHACK_BUFSIZE_MIN ->
  ready st ->
  is_null addr = false ->
  is_null (sourcecave_p st) = false ->
  is_null (callcave_p st) = false ->
  in_space addr (bp_cavesize cur) ->
  in_space (sourcecave_p st) (bp_cavesize cur + CALL_LEN) ->
  fields_clear (callcave_p st) [bp_entry_cave; bp_entry_local; bp_entry_call]
    addr (bp_cavesize cur) ->
  fields_clear (callcave_p st) [bp_entry_cave; bp_entry_local; bp_entry_call]
    (sourcecave_p st) (bp_cavesize cur + CALL_LEN) ->
  apart (callcave_p st + bp_entry_cave) ptr_size
        (callcave_p st + bp_entry_local) ptr_size ->
  apart (callcave_p st + bp_entry_cave) ptr_size
        (callcave_p st + bp_entry_call) ptr_size ->
  apart (callcave_p st + bp_entry_local) ptr_size
        (callcave_p st + bp_entry_call) ptr_size ->
  exists st' w',
    r_site i cur size addr st w = Done st' w'
    /\ load32 (w_mem w') (callcave_p st + bp_entry_cave)
       = wrap (sourcecave_p st)
    /\ load32 (w_mem w') (callcave_p st + bp_entry_local) = wrap (bp_ptr i)
    /\ wrap (callcave_p st + bp_entry_call + ptr_size
             + load32 (w_mem w') (callcave_p st + bp_entry_call))
       = wrap breakpoint_process_addr.
Proof.
  intros Hcs Hready Haddr Hsp Hcp Hsa Hss Hf1 Hf2 Hcl Hck Hlk.
  destruct (render_site_mem_full i cur size addr st w Hcs Hready Haddr Hsp Hcp)
    as (st' & E).
  eexists _, _. split; [exact E |]. cbn [w_mem]. clear E.
  set (sp := sourcecave_p st) in *. set (cp := callcave_p st) in *.
  set (cs := bp_cavesize cur) in *.
  set (s := {| ps_addr := addr; ps_index := i; ps_cavesize := cs;
               ps_sourcecave := sp; ps_callcave := cp;
               ps_slot_size := size |}).
  assert (Hlen : Z.of_nat (List.length (patch_bytes s)) = cs)
    by (apply patch_bytes_length; apply Hcs).
  unfold fields_clear in Hf1, Hf2.
  apply Forall_cons_iff in Hf1. destruct Hf1 as [[Hc Hc1] Hf1].
  apply Forall_cons_iff in Hf1. destruct Hf1 as [[Hl Hl1] Hf1].
  apply Forall_cons_iff in Hf1. destruct Hf1 as [[Hk Hk1] _].
  apply Forall_cons_iff in Hf2. destruct Hf2 as [[_ Hc2] Hf2].
  apply Forall_cons_iff in Hf2. destruct Hf2 as [[_ Hl2] Hf2].
  apply Forall_cons_iff in Hf2. destruct Hf2 as [[_ Hk2] _].
  assert (H5 : CALL_LEN = 5) by reflexivity. rewrite H5 in *.
  (* a stub field is out of reach of everything written after the stub *)
  assert (Hlate : forall f m3,
            in_space (cp + f) ptr_size ->
            apart (cp + f) ptr_size addr cs ->
            apart (cp + f) ptr_size sp (cs + 5) ->
            load32
              (store_bytes
                 (store_bytes
                    (store_bytes (cave_fix (memmove m3 sp addr cs) sp addr)
                       (sp + cs) [x86_JMP_NEAR_REL32])
                    (sp + (cs + 1)) (le32 (wrap (addr - (sp + 5)))))
                 addr (patch_bytes s)) (cp + f)
            = load32 m3 (cp + f)).
  { intros f m3 Hin Ha1 Ha2.
    rewrite (load32_store_clear _ addr _ _ addr cs) by (assumption || lia).
    rewrite (load32_store_clear _ _ _ _ sp (cs + 5))
      by (assumption || (simpl List.length; lia)).
    rewrite (load32_store_clear _ _ _ _ sp (cs + 5))
      by (assumption || (simpl List.length; lia)).
    assert (Hmm : load32 (memmove m3 sp addr cs) (cp + f) = load32 m3 (cp + f)).
    { unfold memmove.
      apply (load32_store_clear _ _ _ _ sp (cs + 5)); try assumption; try lia.
      rewrite load_bytes_length. lia. }
    unfold cave_fix.
    destruct (_ || _); [| exact Hmm].
    unfold store32.
    rewrite (load32_store_clear _ _ _ _ sp (cs + 5))
      by (assumption || (simpl List.length; lia)).
    exact Hmm. }
  assert (Hsym : forall a b, apart a ptr_size b ptr_size ->
                             apart b ptr_size a ptr_size)
    by (unfold apart; intros; lia).
  split; [| split].
  - rewrite Hlate by assumption.
    rewrite (load32_store_clear _ _ _ _ (cp + bp_entry_call) ptr_size)
      by (assumption || (simpl List.length; unfold ptr_size; lia)).
    rewrite (load32_store_clear _ _ _ _ (cp + bp_entry_local) ptr_size)
      by (assumption || (simpl List.length; unfold ptr_size; lia)).
    apply load32_store_le32.
  - rewrite Hlate by assumption.
    rewrite (load32_store_clear _ _ _ _ (cp + bp_entry_call) ptr_size)
      by (assumption || (simpl List.length; unfold ptr_size; lia)).
    apply load32_store_le32.
  - rewrite Hlate by assumption.
    rewrite load32_store_le32, wrap_wrap, wrap_add_r.
    rewrite (wrap_small (cp + bp_entry_call))
      by (unfold in_space, ptr_size in Hk; lia).
    f_equal. lia.
Qed.

(** X10.  The fill loop puts one full copy of the stub template in each
    of the [n] call-cave slots and writes nothing outside them. *)
Theorem callcave_fill_copies (n : nat) (p : Z) (w : world) :
  0 < p -> p + Z.of_nat n * entry_size < 2 ^ 32 ->
  Z.of_nat (List.length bp_entry) < 2 ^ 32 ->
  exists m',
    callcave_fill_loop bp_entry n p (p + Z.of_nat n * entry_size) w
    = Done tt (mk_world m' (w_events w))
    /\ (forall t k, 0 <= t < Z.of_nat n -> 0 <= k < entry_size ->
          load8 m' (p + t * entry_size + k)
          = nth (Z.to_nat k) bp_entry 0 mod 256)
    /\ (forall x, (forall j, 0 <= j < Z.of_nat n * entry_size ->
                     wrap (p + j) <> wrap x) ->
          load8 m' x = load8 (w_mem w) x).
Proof.
  intros Hp Hend Hlen.
  assert (He : entry_size = Z.of_nat (List.length bp_entry)).
  { unfold bp_entry_size. apply wrap_small. lia. }
  revert p w Hp Hend.
  induction n as [|n IH]; intros p w Hp Hend.
  - simpl. rewrite Z.add_0_r, Z.ltb_irrefl. exists (w_mem w).
    split; [now destruct w |]. split; [intros; lia | reflexivity].
  - cbn [callcave_fill_loop]. rewrite Nat2Z.inj_succ in *.
    destruct (Z.ltb_spec p (p + Z.succ (Z.of_nat n) * entry_size)) as [Hlt | Hge].
    + assert (Hpos : 0 < entry_size) by nia.
      rewrite (bind_done _ _ _ _ _
                 (mem_store_done p 0 bp_entry w (is_null_false p ltac:(nia)))).
      rewrite wrap_small by nia. rewrite Z.add_0_r.
      destruct (IH (p + entry_size)
                  (mk_world (store_bytes (w_mem w) p bp_entry) (w_events w))
                  ltac:(nia) ltac:(nia)) as (m' & E & Hslots & Hframe).
      exists m'.
      replace (p + Z.succ (Z.of_nat n) * entry_size)
        with (p + entry_size + Z.of_nat n * entry_size) by lia.
      split; [exact E |]. cbn [w_mem] in Hframe. split.
      * intros t k Ht Hk.
        destruct (Z.eq_dec t 0) as [-> | Hnz].
        -- rewrite Hframe.
           ++ replace (p + 0 * entry_size + k) with (p + k) by lia.
              apply load8_store_bytes_in; lia.
           ++ intros j Hj.
              replace (p + entry_size + j) with (p + (entry_size + j)) by lia.
              replace (p + 0 * entry_size + k) with (p + k) by lia.
              apply wrap_neq_offset; nia.
        -- replace (p + t * entry_size + k)
             with (p + entry_size + (t - 1) * entry_size + k) by lia.
           apply Hslots; lia.
      * intros x Hx. rewrite Hframe.
        -- apply load8_store_bytes_out. intros j Hj. apply Hx. nia.
        -- intros j Hj.
           replace (p + entry_size + j) with (p + (entry_size + j)) by lia.
           apply Hx. nia.
    + exists (w_mem w). split; [now destruct w |].
      split; [intros; nia | reflexivity].
Qed.

(** ** Setup: what is written where *)

Local Abbreviation regions_of :=
  (site_regions bp_entry_cave bp_entry_local bp_entry_call).

Lemma same_outside_refl (R : list (Z * Z)) (m : memory) : same_outside R m m.
Proof. intros x _. reflexivity. Qed.

Lemma touched_incl (R R' : list (Z * Z)) (x : Z) :
  incl R R' -> touched R x -> touched R' x.
Proof.
  intros Hi (a & n & k & Hin & Hk & E). exists a, n, k. auto.
Qed.

Lemma same_outside_trans (R1 R2 : list (Z * Z)) (m m1 m2 : memory) :
  same_outside R1 m m1 -> same_outside R2 m1 m2 ->
  same_outside (R1 ++ R2) m m2.
Proof.
  intros H1 H2 x Hx. rewrite H2, H1; [reflexivity | |];
    intros Ht; apply Hx; revert Ht; apply touched_incl;
    [apply incl_appl | apply incl_appr]; apply incl_refl.
Qed.

Lemma same_outside_store (R : list (Z * Z)) (m m1 : memory) (a : Z)
    (bs : list Z) (a0 n0 : Z) :
  In (a0, n0) R -> a0 <= a -> a + Z.of_nat (List.length bs) <= a0 + n0 ->
  same_outside R m m1 ->
  same_outside R m (store_bytes m1 a bs).
Proof.
  intros Hin Hlo Hhi H x Hx. rewrite load8_store_bytes_out; [apply H, Hx |].
  intros i Hi E. apply Hx. exists a0, n0, (a - a0 + i).
  split; [exact Hin |]. split; [lia |].
  rewrite <- E. f_equal. lia.
Qed.

Lemma same_outside_cave_fix (R : list (Z * Z)) (m m1 : memory)
    (cave src n0 : Z) :
  In (cave, n0) R -> CALL_LEN <= n0 ->
  same_outside R m m1 ->
  same_outside R m (cave_fix m1 cave src).
Proof.
  intros Hin Hn H. unfold cave_fix.
  destruct (_ || _); [| exact H].
  unfold store32.
  apply (same_outside_store R m m1 _ _ cave n0); try assumption;
    unfold CALL_LEN, ptr_size in *; simpl List.length; lia.
Qed.

Lemma buf_read_length (buf out : list Z) (n : Z) :
  0 <= n -> buf_read buf n = Some out -> Z.of_nat (List.length out) = n.
Proof.
  intros Hn. unfold buf_read.
  destruct (Z.leb_spec n (Z.of_nat (List.length buf))) as [Hle | Hgt];
    [| discriminate].
  intros E. inversion E; subst. rewrite length_firstn. lia.
Qed.

Lemma Done_inj {A : Type} (a a' : A) (w w' : world) :
  Done a w = Done a' w' -> a = a' /\ w = w'.
Proof. intros H. inversion H. split; reflexivity. Qed.

(* one rendered address writes to its own ranges only *)
Lemma render_site_frame (i : nat) (cur : breakpoint_local_t) (size addr : Z)
    (st st' : render_t) (w w' : world) :
  0 <= bp_cavesize cur ->
  r_site i cur size addr st w = Done st' w' ->
  exists s,
    rendered st' = rendered st ++ [s]
    /\ same_outside (regions_of s) (w_mem w) (w_mem w').
Proof.
  intros Hcs H. unfold render_site in H.
  destruct (is_null (callcave_p st)) eqn:Hcp.
  { rewrite (bind_fault _ _ _ _ (mem_store_null _ _ _ _ Hcp)) in H.
    discriminate H. }
  rewrite (bind_done _ _ _ _ _ (mem_store_done _ _ _ _ Hcp)) in H.
  rewrite (bind_done _ _ _ _ _ (mem_store_done _ _ _ _ Hcp)) in H.
  rewrite (bind_done _ _ _ _ _ (mem_store_done _ _ _ _ Hcp)) in H.
  cbn [w_mem w_events] in H.
  apply bind_inv in H. destruct H as (buf & w1 & Hbuf & H).
  destruct (buf_write (asm_buf st) 1 _) as [buf' |]; [| discriminate Hbuf].
  cbn [lift] in Hbuf. unfold ret in Hbuf.
  apply Done_inj in Hbuf. destruct Hbuf as [Eb Ew]. subst buf' w1.
  apply bind_inv in H. destruct H as ([] & w2 & Hcpy & H).
  unfold memcpy in Hcpy.
  destruct (is_null addr); [discriminate Hcpy |].
  destruct (is_null (sourcecave_p st)) eqn:Hsp.
  { rewrite mem_store_null in Hcpy by exact Hsp. discriminate Hcpy. }
  rewrite mem_store_done in Hcpy by exact Hsp.
  apply Done_inj in Hcpy. destruct Hcpy as [_ Ew]. subst w2. cbn [w_mem w_events] in H.
  unfold bind at 1 in H. unfold modify_mem at 1 in H. cbn [w_mem w_events] in H.
  rewrite (bind_done _ _ _ _ _ (mem_store_done _ _ _ _ Hsp)) in H.
  rewrite (bind_done _ _ _ _ _ (mem_store_done _ _ _ _ Hsp)) in H.
  cbn [w_mem w_events] in H.
  apply bind_inv in H. destruct H as (patch & w3 & Hpatch & H).
  destruct (buf_read buf (bp_cavesize cur)) as [patch' |] eqn:Hread;
    [| discriminate Hpatch].
  cbn [lift] in Hpatch. unfold ret in Hpatch.
  apply Done_inj in Hpatch. destruct Hpatch as [Ep Ew]. subst patch' w3.
  unfold bind, PatchRegion, ret in H. cbn [w_mem w_events] in H.
  apply Done_inj in H. destruct H as [Est Ew]. subst st' w'.
  eexists. cbn [rendered w_mem]. split; [reflexivity |].
  pose proof (buf_read_length _ _ _ Hcs Hread) as Hlen.
  unfold site_regions.
  cbn [ps_addr ps_cavesize ps_sourcecave ps_callcave].
  set (R := [_; _; _; _; _]).
  assert (H1 : In (callcave_p st + bp_entry_cave, ptr_size) R) by (simpl; auto).
  assert (H2 : In (callcave_p st + bp_entry_local, ptr_size) R) by (simpl; auto).
  assert (H3 : In (callcave_p st + bp_entry_call, ptr_size) R) by (simpl; auto).
  assert (H4 : In (sourcecave_p st, bp_cavesize cur + CALL_LEN) R)
    by (simpl; auto).
  assert (H5 : In (addr, bp_cavesize cur) R) by (simpl; auto 6).
  apply (same_outside_store R _ _ _ _ _ _ H5);
    [lia | lia |].
  apply (same_outside_store R _ _ _ _ _ _ H4);
    [lia | unfold CALL_LEN, ptr_size; simpl List.length; lia |].
  apply (same_outside_store R _ _ _ _ _ _ H4);
    [lia | unfold CALL_LEN, ptr_size; simpl List.length; lia |].
  apply (same_outside_cave_fix R _ _ _ _ _ H4); [lia |].
  apply (same_outside_store R _ _ _ _ _ _ H4);
    [lia | rewrite load_bytes_length; unfold CALL_LEN, ptr_size; lia |].
  apply (same_outside_store R _ _ _ _ _ _ H3);
    [lia | unfold ptr_size; simpl List.length; lia |].
  apply (same_outside_store R _ _ _ _ _ _ H2);
    [lia | unfold ptr_size; simpl List.length; lia |].
  apply (same_outside_store R _ _ _ _ _ _ H1);
    [lia | unfold ptr_size; simpl List.length; lia |].
  apply same_outside_refl.
Qed.

Lemma render_addrs_frame (i : nat) (cur : breakpoint_local_t) (size : Z)
    (addrs : list hackpoint_addr_t) :
  0 <= bp_cavesize cur ->
  forall st w st' w',
    r_addrs i cur size addrs st w = Done st' w' ->
    exists new,
      rendered st' = rendered st ++ new
      /\ same_outside (flat_map regions_of new) (w_mem w) (w_mem w').
Proof.
  intros Hcs. induction addrs as [|a rest IH]; intros st w st' w' H.
  - apply Done_inj in H. destruct H as [<- <-]. exists [].
    rewrite app_nil_r. split; [reflexivity | apply same_outside_refl].
  - cbn [render_addrs] in H.
    destruct (eval_hackpoint_addr a =? 0); [apply IH; exact H |].
    apply bind_inv in H. destruct H as (st1 & w1 & H1 & H).
    destruct (render_site_frame _ _ _ _ _ _ _ _ Hcs H1) as (s & Hr1 & Hf1).
    destruct (IH _ _ _ _ H) as (new & Hr & Hf).
    exists (s :: new). split.
    + rewrite Hr, Hr1, <- app_assoc. reflexivity.
    + cbn [flat_map]. exact (same_outside_trans _ _ _ _ _ Hf1 Hf).
Qed.

Lemma lift_inv {A : Type} (o : option A) (a : A) (w w' : world) :
  lift o w = Done a w' -> o = Some a /\ w' = w.
Proof.
  destruct o as [a0 |]; cbn [lift]; intros H; [| discriminate H].
  apply Done_inj in H. destruct H as [-> ->]. split; reflexivity.
Qed.

Lemma asm_buf_grow_frame (cavesize : Z) (st st' : render_t) (w w' : world) :
  asm_buf_grow cavesize st w = Done st' w' ->
  rendered st' = rendered st /\ w' = w.
Proof.
  unfold asm_buf_grow. destruct (cavesize >? current_asm_buf_size st).
  - intros H. apply bind_inv in H. destruct H as (buf & w1 & Hb & H).
    apply lift_inv in Hb. destruct Hb as [_ ->].
    apply Done_inj in H. destruct H as [<- <-]. split; reflexivity.
  - intros H. apply Done_inj in H. destruct H as [<- <-]. split; reflexivity.
Qed.

Lemma render_loop_frame (bps' : list breakpoint_local_t) :
  Forall (fun bp => 0 <= bp_cavesize bp) bps' ->
  forall sizes i st w st' w',
    r_loop i bps' sizes st w = Done st' w' ->
    exists new,
      rendered st' = rendered st ++ new
      /\ same_outside (flat_map regions_of new) (w_mem w) (w_mem w').
Proof.
  induction 1 as [|cur rest Hcs _ IH]; intros sizes i st w st' w' H.
  - apply Done_inj in H. destruct H as [<- <-]. exists [].
    rewrite app_nil_r. split; [reflexivity | apply same_outside_refl].
  - destruct sizes as [|size_i sizes].
    { apply Done_inj in H. destruct H as [<- <-]. exists [].
      rewrite app_nil_r. split; [reflexivity | apply same_outside_refl]. }
    cbn [render_loop] in H.
    destruct (size_i =? 0); [apply (IH _ _ _ _ _ _ H) |].
    apply bind_inv in H. destruct H as (st1 & w1 & Hg & H).
    apply asm_buf_grow_frame in Hg. destruct Hg as [Hr0 ->].
    apply bind_inv in H. destruct H as (st2 & w2 & Ha & H).
    destruct (render_addrs_frame _ _ _ _ Hcs _ _ _ _ Ha) as (new1 & Hr1 & Hf1).
    destruct (IH _ _ _ _ _ _ H) as (new2 & Hr2 & Hf2).
    exists (new1 ++ new2). split.
    + rewrite Hr2, Hr1, Hr0, <- app_assoc. reflexivity.
    + rewrite flat_map_app. exact (same_outside_trans _ _ _ _ _ Hf1 Hf2).
Qed.

Lemma asm_buf_init_frame (buf : list Z) (w w' : world) :
  asm_buf_init BINHACK_BUFSIZE_MIN w = Done buf w' -> w' = w.
Proof.
  unfold asm_buf_init. intros H.
  apply bind_inv in H. destruct H as (buf1 & w1 & Hb & H).
  apply lift_inv in Hb. destruct Hb as [_ ->].
  destruct (BINHACK_BUFSIZE_MIN >? CALL_LEN).
  - apply lift_inv in H. apply H.
  - apply Done_inj in H. symmetry. apply H.
Qed.

(* the second pass writes to the ranges of the rendered addresses only *)
Lemma render_pass_frame (bps' : list breakpoint_local_t) (sizes : list Z)
    (p1 p2 : Z) (st : render_t) (w w' : world) :
  Forall (fun bp => 0 <= bp_cavesize bp) bps' ->
  r_pass bps' sizes p1 p2 w = Done st w' ->
  same_outside (flat_map regions_of (rendered st)) (w_mem w) (w_mem w').
Proof.
  intros Hcs H. unfold render_pass in H.
  apply bind_inv in H. destruct H as (buf & w1 & Hb & H).
  apply asm_buf_init_frame in Hb. subst w1.
  destruct (render_loop_frame bps' Hcs _ _ _ _ _ _ H) as (new & Hr & Hf).
  cbn [rendered app] in Hr. rewrite Hr. exact Hf.
Qed.

Lemma plan_addrs_site (i : nat) (bp : breakpoint_local_t) (addrs : list Z)
    (s : patch_site) :
  forall sp cp,
    In s (plan_addrs bp_entry i bp addrs sp cp) ->
    In (ps_addr s) addrs /\ ps_cavesize s = bp_cavesize bp.
Proof.
  induction addrs as [|a rest IH]; intros sp cp H; [destruct H |].
  cbn [plan_addrs] in H. destruct H as [<- | H].
  - split; [left |]; reflexivity.
  - destruct (IH _ _ H) as [Hin Hc]. split; [right |]; assumption.
Qed.

Lemma plan_site_window (bps : list breakpoint_local_t) (s : patch_site) :
  forall i sp cp,
    In s (the_plan i bps sp cp) ->
    In (ps_addr s, ps_cavesize s) (flat_map windows bps).
Proof.
  induction bps as [|bp rest IH]; intros i sp cp H; [destruct H |].
  cbn [plan flat_map] in H |- *. apply in_or_app.
  apply in_app_or in H. destruct H as [H | H].
  - left. apply plan_addrs_site in H. destruct H as [Hin ->].
    unfold valid_windows. apply in_map_iff. exists (ps_addr s). auto.
  - right. exact (IH _ _ _ H).
Qed.

(* a contained range adds nothing to what is touched *)
Lemma touched_inside (R : list (Z * Z)) (a n a0 n0 x : Z) :
  In (a0, n0) R -> a0 <= a -> a + n <= a0 + n0 ->
  touched [(a, n)] x -> touched R x.
Proof.
  intros Hin Hlo Hhi (a' & n' & k & [E | []] & Hk & Ex).
  inversion E; subst a' n'.
  exists a0, n0, (a - a0 + k). split; [exact Hin |]. split; [lia |].
  rewrite <- Ex. f_equal. lia.
Qed.

Lemma touched_cons (r : Z * Z) (R : list (Z * Z)) (x : Z) :
  touched (r :: R) x -> touched [r] x \/ touched R x.
Proof.
  intros (a & n & k & [E | Hin] & Hk & Ex).
  - left. exists a, n, k. split; [left; exact E | auto].
  - right. exists a, n, k. auto.
Qed.

Lemma touched_app (R1 R2 : list (Z * Z)) (x : Z) :
  touched (R1 ++ R2) x -> touched R1 x \/ touched R2 x.
Proof.
  intros (a & n & k & Hin & Hk & Ex). apply in_app_or in Hin.
  destruct Hin; [left | right]; exists a, n, k; auto.
Qed.

(* the callcave fill loop writes inside its region only *)
Lemma callcave_fill_frame (n : nat) :
  Z.of_nat (List.length bp_entry) < 2 ^ 32 ->
  forall p w P T,
    0 < p -> p + Z.of_nat n * entry_size < 2 ^ 32 ->
    P <= p -> p + Z.of_nat n * entry_size <= P + T ->
    exists m',
      callcave_fill_loop bp_entry n p (p + Z.of_nat n * entry_size) w
      = Done tt (mk_world m' (w_events w))
      /\ same_outside [(P, T)] (w_mem w) m'.
Proof.
  intros Hlen.
  assert (He : entry_size = Z.of_nat (List.length bp_entry)).
  { unfold bp_entry_size. apply wrap_small. lia. }
  induction n as [|n IH]; intros p w P T Hp Hend HP HT.
  - simpl. rewrite Z.add_0_r, Z.ltb_irrefl. exists (w_mem w).
    split; [now destruct w | apply same_outside_refl].
  - cbn [callcave_fill_loop]. rewrite Nat2Z.inj_succ in *.
    destruct (Z.ltb_spec p (p + Z.succ (Z.of_nat n) * entry_size)) as [Hlt | Hge].
    + assert (Hpos : 0 < entry_size) by nia.
      rewrite (bind_done _ _ _ _ _
                 (mem_store_done p 0 bp_entry w (is_null_false p ltac:(nia)))).
      rewrite wrap_small by nia. rewrite Z.add_0_r.
      destruct (IH (p + entry_size)
                  (mk_world (store_bytes (w_mem w) p bp_entry) (w_events w))
                  P T ltac:(nia) ltac:(nia) ltac:(nia) ltac:(nia))
        as (m' & E & Hf).
      exists m'.
      replace (p + Z.succ (Z.of_nat n) * entry_size)
        with (p + entry_size + Z.of_nat n * entry_size) by lia.
      split; [exact E |]. cbn [w_mem] in Hf.
      intros x Hx. rewrite (Hf x Hx).
      apply (same_outside_store [(P, T)] (w_mem w) (w_mem w) p bp_entry P T);
        [left; reflexivity | lia | nia | apply same_outside_refl | exact Hx].
    + exists (w_mem w). split; [now destruct w | apply same_outside_refl].
Qed.

Lemma laid_out_cavesize (bps bps' : list breakpoint_local_t) :
  Forall2 laid_out bps bps' -> Forall cave_fits bps ->
  Forall (fun bp => 0 <= bp_cavesize bp) bps'.
Proof.
  induction 1 as [|bp bp' rest rest' [Hc _] _ IH]; intros Hfits;
    [constructor |].
  inversion Hfits as [|? ? Hfit Hrest]; subst. constructor.
  - rewrite Hc. unfold cave_fits, CALL_LEN, ptr_size in Hfit. lia.
  - apply IH. exact Hrest.
Qed.

(* the ranges of slots that lie inside the two regions are covered by
   the regions and the patched windows *)
Lemma plan_regions_touched (sites : list patch_site) (W : list (Z * Z))
    (p1 S p2 T x : Z) :
  Forall (slot_inside p1 S p2 T entry_size) sites ->
  (forall s, In s sites -> In (ps_addr s, ps_cavesize s) W) ->
  Forall (fun off => 0 <= off /\ off + ptr_size <= entry_size)
    [bp_entry_cave; bp_entry_local; bp_entry_call] ->
  touched (flat_map regions_of sites) x ->
  touched ((p1, S) :: (p2, T) :: W) x.
Proof.
  intros Hin HW Hoff (a & n & k & Hr & Hk & Ex).
  apply in_flat_map in Hr. destruct Hr as (s & Hs & Hr).
  rewrite Forall_forall in Hin. specialize (Hin s Hs).
  destruct Hin as (I1 & I2 & I3 & I4 & I5).
  apply Forall_cons_iff in Hoff. destruct Hoff as [Oc Hoff].
  apply Forall_cons_iff in Hoff. destruct Hoff as [Ol Hoff].
  apply Forall_cons_iff in Hoff. destruct Hoff as [Ok _].
  assert (Hstub : forall off, 0 <= off /\ off + ptr_size <= entry_size ->
            (a, n) = (ps_callcave s + off, ptr_size) ->
            touched ((p1, S) :: (p2, T) :: W) x).
  { intros off Ho E. inversion E; subst a n.
    exists p2, T, (ps_callcave s + off - p2 + k).
    split; [right; left; reflexivity |]. split; [lia |].
    rewrite <- Ex. f_equal. lia. }
  unfold site_regions in Hr.
  destruct Hr as [E | [E | [E | [E | [E | []]]]]]; symmetry in E.
  - exact (Hstub _ Oc E).
  - exact (Hstub _ Ol E).
  - exact (Hstub _ Ok E).
  - inversion E; subst a n.
    exists p1, S, (ps_sourcecave s - p1 + k).
    split; [left; reflexivity |]. split; [lia |].
    rewrite <- Ex. f_equal. lia.
  - inversion E; subst a n.
    exists (ps_addr s), (ps_cavesize s), k.
    split; [right; right; exact (HW s Hs) | auto].
Qed.

(* a first pass that returns has met no key too long for its buffer *)
Lemma layout_pass_done_fits (bps : list breakpoint_local_t) (w0 w1 : world)
    (r : list breakpoint_local_t * list Z * layout_t) :
  l_pass bps w0 = Done r w1 -> Forall name_fits bps.
Proof.
  intros H.
  assert (D : forall bp, {name_fits bp} + {~ name_fits bp}).
  { intros bp. unfold name_fits.
    destruct (breakpoint_key (bp_name bp));
      [left; discriminate | right; intros Hn; apply Hn; reflexivity]. }
  destruct (Forall_dec name_fits D bps) as [Hfit | Hbad]; [exact Hfit |].
  unfold layout_pass in H. rewrite (layout_loop_overrun bps Hbad) in H.
  discriminate H.
Qed.

(** X11.  The second pass, run on the descriptions and slot sizes that
    the first pass returns and on two regions of the planned sizes,
    completes and leaves every byte of memory as it was, except inside
    the two regions and inside the cavesize windows at the valid
    addresses.  (The first pass writes into the descriptions themselves,
    cur->func and cur_addr->type, which are kept as values here; the
    second pass only reads them.) *)
Theorem render_pass_keeps_memory (bps bps' : list breakpoint_local_t)
    (sizes : list Z) (lay : layout_t) (w0 w1 w : world) (p1 p2 : Z) :
  l_pass bps w0 = Done (bps', sizes, lay) w1 ->
  Forall short_addrs bps -> Forall cave_fits bps ->
  CALL_LEN <= BINHACK_BUFSIZE_MIN ->
  BINHACK_BUFSIZE_MIN + 20 < 2 ^ 32 ->
  Z.of_nat (List.length bp_entry) < 2 ^ 32 ->
  Forall (fun off => 0 <= off /\ off + ptr_size <= entry_size)
    [bp_entry_cave; bp_entry_local; bp_entry_call] ->
  let S := src_total bps in
  let T := addr_total bps * entry_size in
  0 < p1 -> p1 + S < 2 ^ 32 -> 0 < p2 -> p2 + T < 2 ^ 32 ->
  exists st w',
    r_pass bps' sizes p1 p2 w = Done st w'
    /\ rendered st = the_plan 0%nat bps p1 p2
    /\ same_outside ((p1, S) :: (p2, T) :: flat_map windows bps)
         (w_mem w) (w_mem w').
Proof.
  intros Hlay Hshort Hfits Hmin0 Hmin Hlen Hoff S T Hp1 Hp1' Hp2 Hp2'.
  pose proof (layout_pass_done_fits _ _ _ _ Hlay) as Hfit.
  destruct (layout_pass_spec bps w0 Hfit (short_few bps Hshort))
    as [bps0 [EL Hlaid]].
  rewrite EL in Hlay. apply Done_inj in Hlay. destruct Hlay as [Hres _].
  inversion Hres; subst bps0 sizes. clear Hres.
  pose proof (source_total_nonneg bps) as Hs.
  pose proof (valid_total_nonneg bps) as Hv.
  pose proof entry_size_nonneg as He.
  destruct (render_pass_spec bps bps' p1 p2 w Hlaid Hfits Hmin0 Hmin
              Hp1 Hp1' Hp2 Hp2')
    as (st & m3 & E3 & Hr & _).
  pose proof (render_pass_frame _ _ _ _ _ _ _
                (laid_out_cavesize _ _ Hlaid Hfits) E3) as F3.
  cbn [w_mem] in F3. rewrite Hr in F3.
  exists st. eexists. split; [exact E3 |]. split; [exact Hr |].
  cbn [w_mem]. intros x Hx. apply F3.
  intros Ht. apply Hx.
  apply (plan_regions_touched (the_plan 0%nat bps p1 p2)); try assumption.
  - apply plan_inside; try assumption; unfold S, T in *; lia.
  - intros s Hs0. exact (plan_site_window bps s _ _ _ Hs0).
Qed.
End ApplyFacts.

(** ** The statements at concrete inputs *)

(* discharge a closed side condition by evaluation *)
Ltac by_eval :=
  repeat constructor; vm_compute;
  repeat split; try reflexivity; try discriminate;
  try (intro; discriminate).

Lemma breakpoint_from_json_cases_witness :
  breakpoint_from_json Sample.eval_bool_default Sample.eval_int
    Sample.addrs_from_json "th_hook" (Some Sample.cfg_ok) Sample.out0
  = (true, {| bp_name := "th_hook"; bp_cavesize := 6;
              bp_json_obj := Sample.cfg_ok; bp_func := None;
              bp_addr := [mk_addr RAW_ADDR 0x401000] |}).
Proof.
  apply (breakpoint_from_json_cases Sample.eval_bool_default Sample.eval_int
           Sample.addrs_from_json "th_hook" (Some Sample.cfg_ok) Sample.out0);
    by_eval.
Defined.

(** C5, as stated, fails: the address of this description is non-null and
    passes the region check for its cavesize, so the claim counts one slot
    of align16(6 + CALL_LEN) = 16 bytes; its handler is not registered and
    the layout pass counts nothing. *)
Lemma layout_counterexample :
  addr_valid Sample.VirtualCheckRegion 6 (mk_addr RAW_ADDR 0x401000) = true
  /\ AlignUpToMultipleOf2 (wrap (6 + CALL_LEN)) 16 = 16
  /\ match layout_pass Sample.func_get Sample.VirtualCheckRegion 0x400000
             Sample.unregistered Sample.w0 with
     | Done (_, sizes, lay) _ =>
         sizes = [0] /\ sourcecaves_total_size lay = 0
         /\ total_valid_addrs lay = 0
     | _ => False
     end.
Proof. vm_compute. repeat split; reflexivity. Qed.

Lemma layout_sizes_and_slots_witness :
  exists bps' lay,
    layout_pass Sample.func_get Sample.VirtualCheckRegion 0x400000
      Sample.three Sample.w0
    = Done (bps', [16; 0; 16], lay) Sample.w0
    /\ sourcecaves_total_size lay = 32
    /\ wrap (total_valid_addrs lay * bp_entry_size Sample.bp_entry) = 32.
Proof.
  destruct (layout_sizes_and_slots Sample.func_get Sample.VirtualCheckRegion
              Sample.bp_entry Sample.bp_entry_cave Sample.bp_entry_local
              Sample.bp_entry_call Sample.breakpoint_process_addr Sample.bp_ptr
              Sample.BINHACK_BUFSIZE_MIN 0x400000 Sample.three Sample.w0
              ltac:(by_eval) ltac:(by_eval))
    as [_ (bps' & lay & E & Hs & Hc & _)].
  exists bps', lay. split; [exact E |]. split; [exact Hs | exact Hc].
Defined.

(** C8, as stated, fails: one description, none of its addresses valid, so
    one description did not become active; the call returns 0. *)
Lemma breakpoints_apply_count_counterexample :
  Z.of_nat (List.length Sample.none_valid)
  - active_count Sample.func_get Sample.VirtualCheckRegion Sample.none_valid = 1
  /\ match Sample.apply Sample.VirtualAlloc_result (Some Sample.none_valid)
             Sample.w0 with
     | Done r _ => r = 0
     | _ => False
     end.
Proof. vm_compute. split; reflexivity. Qed.

(* three descriptions, the second without a valid address: the call
   returns 1, two slots are allocated in each region, two patches are
   installed; the second description alone: the call returns 0 *)
Lemma breakpoints_apply_count_witness :
  Sample.apply Sample.VirtualAlloc_result (Some Sample.none_valid) Sample.w0
  = Done 0 Sample.w0
  /\ exists w',
       Sample.apply Sample.VirtualAlloc_result (Some Sample.three) Sample.w0
       = Done 1 w'
       /\ w_events w'
          = [EvAlloc 0x10000000 32; EvAlloc 0x20000000 32;
             EvPatch 0x401000 [0xE8; 0xFB; 0xEF; 0xBF; 0x1F; 0x90];
             EvPatch 0x402000 [0xE8; 0x0B; 0xE0; 0xBF; 0x1F; 0x90; 0x90];
             EvProtect 0x10000000 32; EvProtect 0x20000000 32]
       /\ Z.of_nat (List.length
                      (plan Sample.func_get Sample.VirtualCheckRegion
                         Sample.bp_entry 0 Sample.three 0x10000000 0x20000000))
          = 2.
Proof.
  split.
  - exact (proj1 (breakpoints_apply_count Sample.func_get
                    Sample.VirtualCheckRegion Sample.VirtualAlloc_result
                    Sample.bp_entry Sample.bp_entry_cave Sample.bp_entry_local
                    Sample.bp_entry_call Sample.breakpoint_process_addr
                    Sample.bp_ptr Sample.BINHACK_BUFSIZE_MIN 0x400000
                    Sample.none_valid Sample.w0 ltac:(by_eval) ltac:(by_eval))
             eq_refl).
  - exact (proj2 (breakpoints_apply_count Sample.func_get
                    Sample.VirtualCheckRegion Sample.VirtualAlloc_result
                    Sample.bp_entry Sample.bp_entry_cave Sample.bp_entry_local
                    Sample.bp_entry_call Sample.breakpoint_process_addr
                    Sample.bp_ptr Sample.BINHACK_BUFSIZE_MIN 0x400000
                    Sample.three Sample.w0 ltac:(by_eval) ltac:(by_eval))
             ltac:(by_eval) ltac:(by_eval) ltac:(by_eval) ltac:(by_eval)
             ltac:(by_eval) ltac:(by_eval) ltac:(by_eval) ltac:(by_eval)).
Defined.

(** C7, as stated, fails: with an allocator that returns null the call
    does not abort and report an error; it faults, and returns nothing. *)
Lemma breakpoints_apply_alloc_counterexample :
  match Sample.apply Sample.VirtualAlloc_none (Some Sample.three) Sample.w0 with
  | Done _ _ => False
  | Fault w' => w_events w' = []
  | OutOfFuel _ => False
  end.
Proof. vm_compute. reflexivity. Qed.

Lemma breakpoints_apply_alloc_failure_witness :
  Sample.apply Sample.VirtualAlloc_none (Some Sample.three) Sample.w0
  = Fault Sample.w0
  /\ exists m',
       Sample.apply Sample.VirtualAlloc_once (Some Sample.three) Sample.w0
       = Fault (mk_world m' [EvAlloc 0x10000000 32]).
Proof.
  split.
  - apply (breakpoints_apply_alloc_failure Sample.func_get
             Sample.VirtualCheckRegion Sample.VirtualAlloc_none Sample.bp_entry
             Sample.bp_entry_cave Sample.bp_entry_local Sample.bp_entry_call
             Sample.breakpoint_process_addr Sample.bp_ptr
             Sample.BINHACK_BUFSIZE_MIN 0x400000 Sample.three Sample.w0);
      by_eval.
  - apply (breakpoints_apply_alloc_failure Sample.func_get
             Sample.VirtualCheckRegion Sample.VirtualAlloc_once Sample.bp_entry
             Sample.bp_entry_cave Sample.bp_entry_local Sample.bp_entry_call
             Sample.breakpoint_process_addr Sample.bp_ptr
             Sample.BINHACK_BUFSIZE_MIN 0x400000 Sample.three Sample.w0);
      by_eval.
Defined.

(* no valid address: 0 and the world as it was; a key one byte longer than
   its buffer: no return *)
Lemma breakpoints_apply_nothing_witness :
  Sample.apply Sample.VirtualAlloc_result (Some Sample.none_valid) Sample.w0
  = Done 0 Sample.w0
  /\ Sample.apply Sample.VirtualAlloc_result (Some Sample.overrun) Sample.w0
     = Fault Sample.w0.
Proof.
  destruct (breakpoints_apply_nothing Sample.func_get Sample.VirtualCheckRegion
              Sample.VirtualAlloc_result Sample.bp_entry Sample.bp_entry_cave
              Sample.bp_entry_local Sample.bp_entry_call
              Sample.breakpoint_process_addr Sample.bp_ptr
              Sample.BINHACK_BUFSIZE_MIN 0x400000 Sample.w0)
    as (_ & _ & Hdone & Hfault).
  split.
  - apply Hdone; by_eval.
  - apply Hfault. intros H. inversion H as [|bp rest Hfit _]. apply Hfit.
    vm_compute. reflexivity.
Defined.

(** C10 at a key that overruns: the only address of the description is
    null, so no description has a valid address, and the call does not
    return 0. *)
Example breakpoints_apply_overrun :
  valid_addrs Sample.func_get Sample.VirtualCheckRegion
    (Sample.desc "codecave:x#abc" 5 [0]) = []
  /\ Sample.apply Sample.VirtualAlloc_result (Some Sample.overrun) Sample.w0
     = Fault Sample.w0.
Proof. vm_compute. split; reflexivity. Qed.

(* A cave of 40 bytes against a patch buffer of 32: setup faults after
   the two allocations. *)
Lemma breakpoints_apply_grow_fault_witness :
  exists m',
    Sample.apply Sample.VirtualAlloc_result (Some Sample.large) Sample.w0
    = Fault (mk_world m' [EvAlloc 0x10000000 48; EvAlloc 0x20000000 16]).
Proof.
  apply (breakpoints_apply_grow_fault Sample.func_get Sample.VirtualCheckRegion
           Sample.VirtualAlloc_result Sample.bp_entry Sample.bp_entry_cave
           Sample.bp_entry_local Sample.bp_entry_call
           Sample.breakpoint_process_addr Sample.bp_ptr
           Sample.BINHACK_BUFSIZE_MIN 0x400000
           (Sample.desc "one" 40 [0x401000]) [] Sample.w0);
    by_eval.
Defined.

(* The same description with a cave that fits the buffer. *)
Example breakpoints_apply_fitting_cave :
  match Sample.apply Sample.VirtualAlloc_result
          (Some [Sample.desc "one" 8 [0x401000]]) Sample.w0 with
  | Done r w' =>
      r = 0
      /\ w_events w'
         = [EvAlloc 0x10000000 16; EvAlloc 0x20000000 16;
            EvPatch 0x401000 [0xE8; 0xFB; 0xEF; 0xBF; 0x1F; 0x90; 0x90; 0x90];
            EvProtect 0x10000000 16; EvProtect 0x20000000 16]
  | _ => False
  end.
Proof. vm_compute. split; reflexivity. Qed.

(** ** Handler keys *)

Lemma prefix_empty (s : string) : String.prefix "" s = true.
Proof. destruct s; reflexivity. Qed.

Lemma index_cons (s1 s2 : string) (c : ascii) :
  String.index 0 s1 (String c s2)
  = if String.prefix s1 (String c s2) then Some 0%nat
    else match String.index 0 s1 s2 with
         | Some n => Some (S n)
         | None => None
         end.
Proof. reflexivity. Qed.

Lemma prefix_cons (a b : ascii) (s1 s2 : string) :
  String.prefix (String a s1) (String b s2)
  = if ascii_dec a b then String.prefix s1 s2 else false.
Proof. reflexivity. Qed.

Lemma index_hash_app (base s : string) :
  String.index 0 "#" base = None ->
  String.index 0 "#" (base ++ String "#" s) = Some (String.length base).
Proof.
  induction base as [|c b IH]; intros H.
  - change ("" ++ String "#" s)%string with (String "#" s).
    rewrite index_cons, prefix_cons, prefix_empty.
    destruct (ascii_dec "#" "#"); [reflexivity | congruence].
  - change (String c b ++ String "#" s)%string
      with (String c (b ++ String "#" s)).
    rewrite index_cons, prefix_cons in H |- *.
    rewrite !prefix_empty in *.
    destruct (ascii_dec "#" c) as [Hc | Hc]; [discriminate H |].
    destruct (String.index 0 "#" b) as [n |] eqn:Hb; [discriminate H |].
    rewrite IH by reflexivity. reflexivity.
Qed.

Lemma substring_app_head (a b : string) :
  String.substring 0 (String.length a) (a ++ b) = a.
Proof.
  induction a as [|c a IH]; simpl.
  - destruct b; reflexivity.
  - rewrite IH. reflexivity.
Qed.

(** X8.  Multi-slot names: a name "base#suffix" that is not a codecave
    name is looked up under "BP_base", whatever follows the first '#'. *)
Theorem breakpoint_local_init_slot
    (func_get : string -> option BreakpointFunc_t)
    (bp : breakpoint_local_t) (base suffix : string) (w : world) :
  bp_name bp = (base ++ String "#" suffix)%string ->
  String.index 0 "#" base = None ->
  String.prefix "codecave:" (bp_name bp) = false ->
  exists bp',
    breakpoint_local_init func_get bp w
    = Done (match func_get ("BP_" ++ base)%string with
            | Some _ => true
            | None => false
            end, bp') w
    /\ bp_func bp' = func_get ("BP_" ++ base)%string.
Proof.
  intros Hname Hbase Hpre.
  unfold breakpoint_local_init, breakpoint_key.
  rewrite Hpre. cbn [negb]. rewrite Hname.
  rewrite index_hash_app by exact Hbase.
  rewrite substring_app_head.
  eexists. split; reflexivity.
Qed.

(** X9.  A "codecave:" name is copied whole into a key buffer sized for
    "BP_" and the part before the first '#': setup faults on it exactly
    when more than two characters follow that '#'; otherwise the handler
    is looked up under the full name. *)
Theorem breakpoint_local_init_codecave
    (func_get : string -> option BreakpointFunc_t)
    (bp : breakpoint_local_t) (w : world) :
  String.prefix "codecave:" (bp_name bp) = true ->
  (breakpoint_local_init func_get bp w = Fault w
   <-> exists i, String.index 0 "#" (bp_name bp) = Some i
                 /\ (i + 3 < String.length (bp_name bp))%nat)
  /\ (breakpoint_local_init func_get bp w <> Fault w ->
      exists bp',
        breakpoint_local_init func_get bp w
        = Done (match func_get (bp_name bp) with
                | Some _ => true
                | None => false
                end, bp') w
        /\ bp_func bp' = func_get (bp_name bp)).
Proof.
  intros Hpre.
  unfold breakpoint_local_init, breakpoint_key.
  rewrite Hpre. cbn [negb].
  destruct (String.index 0 "#" (bp_name bp)) as [i |].
  - destruct (Nat.leb_spec (String.length (bp_name bp) + 1) (3 + i + 1)) as [Hle | Hgt].
    + split.
      * split; [intros H; discriminate H |].
        intros (j & Hj & Hlt). inversion Hj; subst. lia.
      * intros _. eexists. split; reflexivity.
    + split.
      * split; [| reflexivity].
        intros _. exists i. split; [reflexivity | lia].
      * intros H. exfalso. apply H. reflexivity.
  - replace (String.length (bp_name bp) + 1 <=? 3 + String.length (bp_name bp) + 1)%nat
      with true by (symmetry; apply Nat.leb_le; lia).
    split.
    + split; [intros H; discriminate H |].
      intros (j & Hj & _). discriminate Hj.
    + intros _. eexists. split; reflexivity.
Qed.


(** * ANM patcher *)

(** ** Buffers *)

Lemma buf_write_at (pre old new post : list Z) :
  List.length old = List.length new ->
  buf_write (pre ++ old ++ post) (Z.of_nat (List.length pre)) new
  = Some (pre ++ new ++ post).
Proof.
  intros Hlen. unfold buf_write.
  replace ((0 <=? Z.of_nat (List.length pre))
           && (Z.of_nat (List.length pre) + Z.of_nat (List.length new)
               <=? Z.of_nat (List.length (pre ++ old ++ post)))) with true.
  - rewrite Nat2Z.id. f_equal.
    rewrite firstn_app, firstn_all, Nat.sub_diag, firstn_O, app_nil_r.
    f_equal. f_equal.
    rewrite skipn_app, skipn_all2 by lia.
    replace (List.length pre + List.length new - List.length pre)%nat
      with (List.length old) by lia.
    rewrite skipn_app, skipn_all, Nat.sub_diag. reflexivity.
  - symmetry. apply andb_true_intro. split.
    + apply Z.leb_le. lia.
    + apply Z.leb_le. rewrite !length_app. lia.
Qed.

Lemma buf_get_app (pre rest : list Z) (j : nat) :
  (j < List.length rest)%nat ->
  buf_get (pre ++ rest) (Z.of_nat (List.length pre + j))
  = Some (nth j rest 0 mod 256).
Proof.
  intros Hj. unfold buf_get.
  replace ((0 <=? Z.of_nat (List.length pre + j))
           && (Z.of_nat (List.length pre + j)
               <? Z.of_nat (List.length (pre ++ rest)))) with true.
  - rewrite Nat2Z.id, app_nth2 by lia.
    replace (List.length pre + j - List.length pre)%nat with j by lia.
    reflexivity.
  - symmetry. apply andb_true_intro. split.
    + apply Z.leb_le. lia.
    + apply Z.ltb_lt. rewrite length_app. lia.
Qed.

Lemma nth_skipn_add (l : list Z) (n j : nat) :
  nth j (skipn n l) 0 = nth (n + j) l 0.
Proof.
  revert l. induction n as [|n IH]; intros l; [reflexivity |].
  destruct l as [|x l]; simpl.
  - destruct j; reflexivity.
  - apply IH.
Qed.

Lemma skipn_two (l : list Z) (n : nat) :
  (n + 2 <= List.length l)%nat ->
  skipn n l = nth n l 0 :: nth (n + 1) l 0 :: skipn (n + 2) l.
Proof.
  revert l. induction n as [|n IH]; intros l H.
  - destruct l as [|x [|y l]]; simpl in H; try lia. reflexivity.
  - destruct l as [|x l]; simpl in H; [lia |].
    cbn [skipn nth Nat.add]. apply IH. lia.
Qed.

(** ** Bits *)

Lemma lor_shiftl_add (hi lo k : Z) :
  0 <= k -> 0 <= hi -> 0 <= lo < 2 ^ k ->
  Z.lor (Z.shiftl hi k) lo = hi * 2 ^ k + lo.
Proof.
  intros Hk Hhi Hlo.
  rewrite Z.shiftl_mul_pow2 by exact Hk.
  assert (Hland : Z.land (hi * 2 ^ k) lo = 0).
  { apply Z.bits_inj'. intros n Hn.
    rewrite Z.land_spec, Z.bits_0.
    destruct (Z.lt_ge_cases n k) as [Hlt | Hge].
    - rewrite Z.mul_pow2_bits_low by lia. reflexivity.
    - destruct (Z.eq_dec lo 0) as [-> | Hnz].
      + rewrite Z.bits_0. apply andb_false_r.
      + rewrite (Z.bits_above_log2 lo n); [apply andb_false_r | lia |].
        apply Z.lt_le_trans with k; [| exact Hge].
        apply Z.log2_lt_pow2; lia. }
  rewrite <- Z.lxor_lor by exact Hland.
  symmetry. apply Z.add_nocarry_lxor. exact Hland.
Qed.

Lemma byte_shiftr (x k : Z) :
  0 <= k <= 8 ->
  0 <= Z.shiftr (x mod 256) k < 2 ^ (8 - k)
  /\ Z.shiftr (x mod 256) k = (x mod 256) / 2 ^ k.
Proof.
  intros Hk. rewrite Z.shiftr_div_pow2 by lia.
  pose proof (Z.mod_pos_bound x 256 ltac:(lia)) as Hx.
  split; [| reflexivity]. split.
  - apply Z.div_pos; lia.
  - apply Z.div_lt_upper_bound; [lia |].
    rewrite <- Z.pow_add_r by lia. replace (k + (8 - k)) with 8 by lia.
    exact (proj2 Hx).
Qed.

(** ** Pixel formats *)

Section FormatFacts.

Variable FORMAT_ARGB4444 : Z.
Variable FORMAT_RGB565 : Z.

Lemma packed_length (pixel : list Z -> nat -> list Z) (data : list Z) (n : nat) :
  (forall i, List.length (pixel data i) = 2%nat) ->
  (2 * n <= List.length data)%nat ->
  List.length (flat_map (pixel data) (seq 0 n)) = (2 * n)%nat
  /\ List.length (packed pixel data n) = List.length data.
Proof.
  intros Hp Hn.
  assert (H : forall s k, List.length (flat_map (pixel data) (seq s k))
                          = (2 * k)%nat).
  { intros s k. revert s. induction k as [|k IH]; intros s; [reflexivity |].
    cbn [seq flat_map]. rewrite length_app, Hp, IH. lia. }
  split; [apply H |].
  unfold packed. rewrite length_app, H, length_skipn. lia.
Qed.

Lemma packed_succ (pixel : list Z -> nat -> list Z) (data : list Z) (i : nat) :
  flat_map (pixel data) (seq 0 (S i))
  = flat_map (pixel data) (seq 0 i) ++ pixel data i.
Proof.
  rewrite seq_S, flat_map_app. cbn [flat_map Nat.add]. rewrite app_nil_r.
  reflexivity.
Qed.

(* a channel of a pixel that is still to be converted reads as in the
   original buffer *)
Lemma packed_get (pixel : list Z -> nat -> list Z) (data : list Z)
    (i : nat) (c : nat) :
  (forall j, List.length (pixel data j) = 2%nat) ->
  (c < 4)%nat -> (4 * i + 4 <= List.length data)%nat ->
  buf_get (packed pixel data i) (Z.of_nat (4 * i) + Z.of_nat c)
  = Some (nth (4 * i + c) data 0 mod 256).
Proof.
  intros Hp Hc Hlen.
  destruct (packed_length pixel data i Hp ltac:(lia)) as [Hpre _].
  unfold packed.
  replace (Z.of_nat (4 * i) + Z.of_nat c)
    with (Z.of_nat (List.length (flat_map (pixel data) (seq 0 i))
                    + (2 * i + c))) by (rewrite Hpre; lia).
  rewrite buf_get_app by (rewrite length_skipn; lia).
  rewrite nth_skipn_add.
  replace (2 * i + (2 * i + c))%nat with (4 * i + c)%nat by lia. reflexivity.
Qed.

(* the two bytes of pixel [i] written over the buffer after [i] pixels *)
Lemma packed_put (pixel : list Z -> nat -> list Z) (data : list Z)
    (i : nat) (lo hi : Z) :
  (forall j, List.length (pixel data j) = 2%nat) ->
  (2 * i + 2 <= List.length data)%nat ->
  pixel data i = [lo; hi] ->
  forall x0 x1,
    buf_write (flat_map (pixel data) (seq 0 i) ++ x0 :: x1 :: skipn (2 * i + 2) data)
      (Z.of_nat (2 * i)) [lo; hi]
    = Some (packed pixel data (S i)).
Proof.
  intros Hp Hlen Hpix x0 x1.
  destruct (packed_length pixel data i Hp ltac:(lia)) as [Hpre _].
  replace (Z.of_nat (2 * i))
    with (Z.of_nat (List.length (flat_map (pixel data) (seq 0 i))))
    by (rewrite Hpre; reflexivity).
  change (x0 :: x1 :: skipn (2 * i + 2) data)
    with ([x0; x1] ++ skipn (2 * i + 2) data).
  rewrite (buf_write_at _ [x0; x1] [lo; hi] (skipn (2 * i + 2) data))
    by reflexivity.
  unfold packed. rewrite packed_succ, Hpix, <- app_assoc.
  replace (2 * S i)%nat with (2 * i + 2)%nat by lia. reflexivity.
Qed.

(* the same, the second byte first and then the first *)
Lemma packed_put_bytes (pixel : list Z -> nat -> list Z) (data : list Z)
    (i : nat) (lo hi : Z) :
  (forall j, List.length (pixel data j) = 2%nat) ->
  (2 * i + 2 <= List.length data)%nat ->
  pixel data i = [lo; hi] ->
  exists data1,
    buf_write (packed pixel data i) (Z.of_nat (2 * i) + 1) [hi] = Some data1
    /\ buf_write data1 (Z.of_nat (2 * i)) [lo] = Some (packed pixel data (S i)).
Proof.
  intros Hp Hlen Hpix.
  destruct (packed_length pixel data i Hp ltac:(lia)) as [Hpre _].
  set (pre := flat_map (pixel data) (seq 0 i)) in *.
  set (post := skipn (2 * i + 2) data).
  exists (pre ++ nth (2 * i) data 0 :: hi :: post). split.
  - unfold packed. fold pre. rewrite (skipn_two data (2 * i)) by lia.
    fold post.
    replace (Z.of_nat (2 * i) + 1)
      with (Z.of_nat (List.length (pre ++ [nth (2 * i) data 0])))
      by (rewrite length_app, Hpre; simpl List.length; lia).
    change (pre ++ nth (2 * i) data 0 :: nth (2 * i + 1) data 0 :: post)
      with (pre ++ [nth (2 * i) data 0] ++ [nth (2 * i + 1) data 0] ++ post).
    rewrite app_assoc.
    rewrite (buf_write_at _ [nth (2 * i + 1) data 0] [hi] post) by reflexivity.
    rewrite <- app_assoc. reflexivity.
  - replace (Z.of_nat (2 * i)) with (Z.of_nat (List.length pre))
      by (rewrite Hpre; reflexivity).
    change (pre ++ nth (2 * i) data 0 :: hi :: post)
      with (pre ++ [nth (2 * i) data 0] ++ hi :: post).
    rewrite (buf_write_at pre [nth (2 * i) data 0] [lo] (hi :: post))
      by reflexivity.
    unfold packed. rewrite packed_succ, Hpix, <- app_assoc. fold pre.
    replace (2 * S i)%nat with (2 * i + 2)%nat by lia. reflexivity.
Qed.

Lemma argb4444_loop_spec (data : list Z) (n : nat) :
  forall i,
    (4 * (i + n) <= List.length data)%nat ->
    argb4444_loop n (Z.of_nat (4 * i)) (Z.of_nat (2 * i))
      (packed argb4444_pixel data i)
    = Some (packed argb4444_pixel data (i + n)).
Proof.
  assert (Hp : forall j, List.length (argb4444_pixel data j) = 2%nat)
    by reflexivity.
  induction n as [|n IH]; intros i Hlen.
  - rewrite Nat.add_0_r. reflexivity.
  - cbn [argb4444_loop].
    pose proof (packed_get argb4444_pixel data i 0 Hp ltac:(lia) ltac:(lia)) as G0.
    pose proof (packed_get argb4444_pixel data i 1 Hp ltac:(lia) ltac:(lia)) as G1.
    pose proof (packed_get argb4444_pixel data i 2 Hp ltac:(lia) ltac:(lia)) as G2.
    pose proof (packed_get argb4444_pixel data i 3 Hp ltac:(lia) ltac:(lia)) as G3.
    change (Z.of_nat 0) with 0 in G0. rewrite Z.add_0_r in G0.
    change (Z.of_nat 1) with 1 in G1. change (Z.of_nat 2) with 2 in G2.
    change (Z.of_nat 3) with 3 in G3.
    rewrite G0, G1, G2, G3.
    set (x0 := nth (4 * i + 0) data 0). set (x1 := nth (4 * i + 1) data 0).
    set (x2 := nth (4 * i + 2) data 0). set (x3 := nth (4 * i + 3) data 0).
    destruct (byte_shiftr x0 4 ltac:(lia)) as [B0 E0].
    destruct (byte_shiftr x1 4 ltac:(lia)) as [B1 E1].
    destruct (byte_shiftr x2 4 ltac:(lia)) as [B2 E2].
    destruct (byte_shiftr x3 4 ltac:(lia)) as [B3 E3].
    change (2 ^ (8 - 4)) with 16 in *. change (2 ^ 4) with 16 in *.
    rewrite !lor_shiftl_add by lia. change (2 ^ 4) with 16.
    rewrite E0 in B0 |- *. rewrite E1 in B1 |- *.
    rewrite E2 in B2 |- *. rewrite E3 in B3 |- *.
    destruct (packed_put_bytes argb4444_pixel data i
                (16 * (x1 mod 256 / 16) + x0 mod 256 / 16)
                (16 * (x3 mod 256 / 16) + x2 mod 256 / 16) Hp ltac:(lia))
      as (data1 & W1 & W2).
    { unfold argb4444_pixel, channel, x0, x1, x2, x3.
      change (Z.to_nat 0) with 0%nat. change (Z.to_nat 1) with 1%nat.
      change (Z.to_nat 2) with 2%nat. change (Z.to_nat 3) with 3%nat.
      reflexivity. }
    replace (x3 mod 256 / 16 * 16 + x2 mod 256 / 16)
      with (16 * (x3 mod 256 / 16) + x2 mod 256 / 16) by lia.
    replace (x1 mod 256 / 16 * 16 + x0 mod 256 / 16)
      with (16 * (x1 mod 256 / 16) + x0 mod 256 / 16) by lia.
    rewrite ?Z.mod_small by lia.
    rewrite W1. cbv beta iota.
    rewrite ?Z.mod_small by lia.
    rewrite W2.
    replace (Z.of_nat (4 * i) + 4) with (Z.of_nat (4 * S i)) by lia.
    replace (Z.of_nat (2 * i) + 2) with (Z.of_nat (2 * S i)) by lia.
    rewrite IH by lia. do 2 f_equal. lia.
Qed.

Lemma rgb565_loop_spec (data : list Z) (n : nat) :
  forall i,
    (4 * (i + n) <= List.length data)%nat ->
    rgb565_loop n (Z.of_nat (4 * i)) (Z.of_nat (2 * i))
      (packed rgb565_pixel data i)
    = Some (packed rgb565_pixel data (i + n)).
Proof.
  assert (Hp : forall j, List.length (rgb565_pixel data j) = 2%nat)
    by reflexivity.
  induction n as [|n IH]; intros i Hlen.
  - rewrite Nat.add_0_r. reflexivity.
  - cbn [rgb565_loop].
    pose proof (packed_get rgb565_pixel data i 0 Hp ltac:(lia) ltac:(lia)) as G0.
    pose proof (packed_get rgb565_pixel data i 1 Hp ltac:(lia) ltac:(lia)) as G1.
    pose proof (packed_get rgb565_pixel data i 2 Hp ltac:(lia) ltac:(lia)) as G2.
    change (Z.of_nat 0) with 0 in G0. rewrite Z.add_0_r in G0.
    change (Z.of_nat 1) with 1 in G1. change (Z.of_nat 2) with 2 in G2.
    rewrite G0, G1, G2.
    set (x0 := nth (4 * i + 0) data 0). set (x1 := nth (4 * i + 1) data 0).
    set (x2 := nth (4 * i + 2) data 0).
    destruct (byte_shiftr x0 3 ltac:(lia)) as [B0 E0].
    destruct (byte_shiftr x1 2 ltac:(lia)) as [B1 E1].
    destruct (byte_shiftr x2 3 ltac:(lia)) as [B2 E2].
    change (2 ^ (8 - 3)) with 32 in *. change (2 ^ (8 - 2)) with 64 in *.
    change (2 ^ 3) with 8 in *. change (2 ^ 2) with 4 in *.
    rewrite <- Z.lor_assoc.
    rewrite (lor_shiftl_add _ _ 5) by (change (2 ^ 5) with 32; lia).
    rewrite (lor_shiftl_add _ _ 11)
      by (change (2 ^ 5) with 32; change (2 ^ 11) with 2048; lia).
    change (2 ^ 5) with 32. change (2 ^ 11) with 2048.
    rewrite E0 in B0 |- *. rewrite E1 in B1 |- *. rewrite E2 in B2 |- *.
    rewrite (Z.mod_small _ (2 ^ 16)) by (change (2 ^ 16) with 65536; lia).
    replace (x2 mod 256 / 8 * 2048 + (x1 mod 256 / 4 * 32 + x0 mod 256 / 8))
      with (rgb565_value data i)
      by (unfold rgb565_value, channel, x0, x1, x2;
          change (Z.to_nat 0) with 0%nat; change (Z.to_nat 1) with 1%nat;
          change (Z.to_nat 2) with 2%nat; lia).
    unfold packed at 1. rewrite (skipn_two data (2 * i)) by lia.
    rewrite (packed_put rgb565_pixel data i (rgb565_value data i mod 256)
               (rgb565_value data i / 256) Hp ltac:(lia) eq_refl).
    replace (Z.of_nat (4 * i) + 4) with (Z.of_nat (4 * S i)) by lia.
    replace (Z.of_nat (2 * i) + 2) with (Z.of_nat (2 * S i)) by lia.
    rewrite IH by lia. do 2 f_equal. lia.
Qed.

Lemma packed_zero (pixel : list Z -> nat -> list Z) (data : list Z) :
  packed pixel data 0 = data.
Proof. reflexivity. Qed.

(** X12.  Converting to ARGB4444 in place is safe: although the loop
    writes into the buffer it is still reading, the first 2 * pixels
    bytes end up as the high nibbles of the original B, G, R, A channels
    of each pixel, packed G:B then A:R, and every later byte keeps its
    value. *)
Theorem format_from_bgra_argb4444 (data : list Z) (pixels : Z) :
  0 <= pixels -> 4 * pixels <= Z.of_nat (List.length data) ->
  format_from_bgra FORMAT_ARGB4444 FORMAT_RGB565 data pixels FORMAT_ARGB4444
  = Some (packed argb4444_pixel data (Z.to_nat pixels)).
Proof.
  intros H0 Hlen. unfold format_from_bgra. rewrite Z.eqb_refl.
  rewrite <- (packed_zero argb4444_pixel data) at 1.
  apply (argb4444_loop_spec data (Z.to_nat pixels) 0). lia.
Qed.

(** X13.  Converting to RGB565 in place is safe in the same way: pixel i
    becomes the little-endian 16-bit value
    2048 * (R / 8) + 32 * (G / 4) + B / 8 of its original channels, and
    every byte after the first 2 * pixels keeps its value. *)
Theorem format_from_bgra_rgb565 (data : list Z) (pixels : Z) :
  FORMAT_RGB565 <> FORMAT_ARGB4444 ->
  0 <= pixels -> 4 * pixels <= Z.of_nat (List.length data) ->
  format_from_bgra FORMAT_ARGB4444 FORMAT_RGB565 data pixels FORMAT_RGB565
  = Some (packed rgb565_pixel data (Z.to_nat pixels)).
Proof.
  intros Hne H0 Hlen. unfold format_from_bgra.
  destruct (Z.eqb_spec FORMAT_RGB565 FORMAT_ARGB4444) as [E | _];
    [contradiction |].
  rewrite Z.eqb_refl.
  rewrite <- (packed_zero rgb565_pixel data) at 1.
  apply (rgb565_loop_spec data (Z.to_nat pixels) 0). lia.
Qed.

End FormatFacts.

(** ** Texture patching *)

Lemma nth_firstn_lt (l : list Z) (n i : nat) :
  (i < n)%nat -> nth i (firstn n l) 0 = nth i l 0.
Proof.
  revert l i. induction n as [|n IH]; intros l i H; [lia |].
  destruct l as [|x l]; [destruct i; reflexivity |].
  destruct i; [reflexivity |]. simpl. apply IH. lia.
Qed.

Lemma buf_copy_spec (dst : list Z) (doff : Z) (src : list Z) (soff n : Z) :
  0 <= doff -> 0 <= soff -> 0 <= n ->
  soff + n <= Z.of_nat (List.length src) ->
  doff + n <= Z.of_nat (List.length dst) ->
  exists dst',
    buf_copy dst doff src soff n = Some dst'
    /\ List.length dst' = List.length dst
    /\ (forall k, 0 <= k < n ->
          byte_at dst' (doff + k) = byte_at src (soff + k))
    /\ (forall j, 0 <= j -> j < doff \/ doff + n <= j ->
          byte_at dst' j = byte_at dst j).
Proof.
  intros Hd Hs Hn Hsrc Hdst. unfold buf_copy, buf_sub.
  replace ((0 <=? soff) && (0 <=? n) && (soff + n <=? Z.of_nat (List.length src)))
    with true
    by (symmetry; rewrite !andb_true_iff, !Z.leb_le; lia).
  set (bytes := firstn (Z.to_nat n) (skipn (Z.to_nat soff) src)).
  assert (Hlen : List.length bytes = Z.to_nat n).
  { unfold bytes. rewrite length_firstn, length_skipn. lia. }
  unfold buf_write.
  replace ((0 <=? doff)
           && (doff + Z.of_nat (List.length bytes) <=? Z.of_nat (List.length dst)))
    with true
    by (symmetry; rewrite andb_true_iff, !Z.leb_le; lia).
  eexists. split; [reflexivity |].
  assert (Hpre : List.length (firstn (Z.to_nat doff) dst) = Z.to_nat doff)
    by (rewrite length_firstn; lia).
  split; [| split].
  - rewrite !length_app, Hpre, Hlen, length_skipn. lia.
  - intros k Hk. unfold byte_at.
    rewrite app_nth2 by lia. rewrite Hpre.
    rewrite app_nth1 by lia.
    replace (Z.to_nat (doff + k) - Z.to_nat doff)%nat with (Z.to_nat k) by lia.
    unfold bytes. rewrite nth_firstn_lt by lia.
    rewrite nth_skipn_add. f_equal. lia.
  - intros j Hj Hout. unfold byte_at. destruct Hout as [Hlt | Hge].
    + rewrite app_nth1 by lia. apply nth_firstn_lt. lia.
    + rewrite app_nth2 by lia. rewrite app_nth2 by lia.
      rewrite Hpre, Hlen, nth_skipn_add. f_equal. lia.
Qed.

Lemma patch_rows_spec (xb ps ts : Z) (buf : list Z) (rows : nat) :
  0 <= xb -> 0 <= ps -> 0 <= ts ->
  xb + Z.min ps ts <= ps ->
  Z.of_nat (List.length buf) < 2 ^ 32 ->
  forall in_ out data,
    0 <= in_ -> 0 <= out ->
    in_ + Z.of_nat rows * ps <= Z.of_nat (List.length buf) ->
    out + Z.of_nat rows * ts <= Z.of_nat (List.length data) ->
    Z.of_nat (List.length data) < 2 ^ 32 ->
    exists data',
      patch_rows rows in_ out xb ps ts buf data = Some data'
      /\ List.length data' = List.length data
      /\ (forall r k, 0 <= r < Z.of_nat rows -> 0 <= k < Z.min ps ts ->
            byte_at data' (out + r * ts + k) = byte_at buf (in_ + r * ps + xb + k))
      /\ (forall j, 0 <= j ->
            (forall r k, 0 <= r < Z.of_nat rows -> 0 <= k < Z.min ps ts ->
               j <> out + r * ts + k) ->
            byte_at data' j = byte_at data j).
Proof.
  intros Hxb Hps Hts Hrow Hbuf.
  induction rows as [|rows IH]; intros in_ out data Hin Hout Hsrc Hdst Hdata.
  - exists data. split; [reflexivity |]. split; [reflexivity |].
    split; [intros; lia | reflexivity].
  - cbn [patch_rows]. rewrite Nat2Z.inj_succ in *.
    assert (Hn : 0 <= Z.min ps ts) by lia.
    rewrite (wrap_small (in_ + xb)) by nia.
    destruct (buf_copy_spec data out buf (in_ + xb) (Z.min ps ts))
      as (data1 & E1 & L1 & C1 & F1); try nia.
    rewrite E1.
    rewrite (wrap_small (in_ + ps)) by nia.
    rewrite (wrap_small (out + ts)) by nia.
    destruct (IH (in_ + ps) (out + ts) data1)
      as (data' & E & L & C & F); try nia.
    exists data'. split; [exact E |]. split; [congruence |]. split.
    + intros r k Hr Hk. destruct (Z.eq_dec r 0) as [-> | Hnz].
      * rewrite F by nia.
        replace (out + 0 * ts + k) with (out + k) by lia.
        rewrite C1 by lia. f_equal. lia.
      * replace (out + r * ts + k) with (out + ts + (r - 1) * ts + k) by lia.
        rewrite C by lia. f_equal. lia.
    + intros j Hj Hfree. rewrite F.
      * apply F1; [exact Hj |].
        destruct (Z.lt_ge_cases j out) as [Hlt | Hge]; [left; exact Hlt |].
        right. destruct (Z.lt_ge_cases j (out + Z.min ps ts)) as [Hlt' | Hge'];
          [| exact Hge'].
        exfalso. apply (Hfree 0 (j - out)); lia.
      * exact Hj.
      * intros r k Hr Hk. specialize (Hfree (r + 1) k ltac:(lia) Hk). lia.
Qed.

Section PatchThtxFacts.

Variable format_Bpp : Z -> Z.

(** X14.  patch_thtx on a texture and an image with a buffer, (x, y)
    inside the image, returns 0.  In the whole-image case (x = y = 0,
    w = width, h = height) the first thtx->size bytes of the texture
    become the first thtx->size bytes of the image buffer, whatever the
    dimensions say, and the bytes behind them stay.  In every other
    case, for a texture that lies inside the image horizontally
    (x + w <= width), row r of the texture becomes bytes
    x * bpp .. (x + w) * bpp - 1 of image row y + r, for every row r below
    min(h, height - y), and the texture rows below that keep their
    bytes. *)
Theorem patch_thtx_rows (t : thtx_header_t) (im : png_image_ex)
    (buf : list Z) (x y : Z) :
  png_buf im = Some buf ->
  let bpp := format_Bpp (thtx_format t) in
  let rows := Z.min (thtx_h t) (img_height im - y) in
  let whole := (x =? 0) && (y =? 0) && (thtx_w t =? img_width im)
               && (thtx_h t =? img_height im) in
  0 <= x < img_width im -> 0 <= y < img_height im ->
  img_width im < 2 ^ 32 -> img_height im < 2 ^ 32 ->
  (whole = true ->
   0 <= thtx_size t <= Z.of_nat (List.length buf) ->
   thtx_size t <= Z.of_nat (List.length (thtx_data t)) ->
   exists data',
     patch_thtx format_Bpp (Some t) x y (Some im)
     = Some (0, Some {| thtx_format := thtx_format t; thtx_w := thtx_w t;
                        thtx_h := thtx_h t; thtx_size := thtx_size t;
                        thtx_data := data' |})
     /\ List.length data' = List.length (thtx_data t)
     /\ (forall k, 0 <= k < thtx_size t -> byte_at data' k = byte_at buf k)
     /\ (forall j, thtx_size t <= j ->
           byte_at data' j = byte_at (thtx_data t) j))
  /\ (whole = false ->
      0 < bpp -> 0 <= thtx_w t -> 0 <= thtx_h t ->
      x + thtx_w t <= img_width im ->
      img_height im * (img_width im * bpp)
      <= Z.of_nat (List.length buf) < 2 ^ 32 ->
      thtx_h t * (thtx_w t * bpp)
      <= Z.of_nat (List.length (thtx_data t)) < 2 ^ 32 ->
      exists data',
        patch_thtx format_Bpp (Some t) x y (Some im)
        = Some (0, Some {| thtx_format := thtx_format t; thtx_w := thtx_w t;
                           thtx_h := thtx_h t; thtx_size := thtx_size t;
                           thtx_data := data' |})
        /\ List.length data' = List.length (thtx_data t)
        /\ (forall r k, 0 <= r < rows -> 0 <= k < thtx_w t * bpp ->
              byte_at data' (r * (thtx_w t * bpp) + k)
              = byte_at buf ((y + r) * (img_width im * bpp) + x * bpp + k))
        /\ (forall j, rows * (thtx_w t * bpp) <= j ->
              byte_at data' j = byte_at (thtx_data t) j)).
Proof.
  intros Hbuf bpp rows whole Hx Hy Hw32 Hh32.
  assert (Hin : (x >=? img_width im) || (y >=? img_height im) = false).
  { apply orb_false_iff. split; rewrite Z.geb_leb; apply Z.leb_gt; lia. }
  split.
  { intros Hwhole Hsize Hdata.
    unfold patch_thtx. rewrite Hbuf, Hin. fold whole. rewrite Hwhole.
    destruct (buf_copy_spec (thtx_data t) 0 buf 0 (thtx_size t))
      as (data' & E & L & C & F); try lia.
    rewrite E. exists data'. split; [reflexivity |]. split; [exact L |].
    split.
    - intros k Hk. exact (C k Hk).
    - intros j Hj. apply F; lia. }
  intros Hslow Hbpp Hw Hh Hfit Hlb Hld. unfold whole in Hslow.
  unfold patch_thtx. rewrite Hbuf, Hin. rewrite Hslow. fold bpp.
  assert (Hrows : 0 <= rows <= img_height im - y) by (unfold rows; lia).
  assert (Hrows' : rows <= thtx_h t) by (unfold rows; lia).
  set (P := img_width im * bpp) in *.
  set (Q := thtx_w t * bpp) in *.
  assert (HP : 0 <= P) by (unfold P; apply Z.mul_nonneg_nonneg; lia).
  assert (HQ : 0 <= Q) by (unfold Q; apply Z.mul_nonneg_nonneg; lia).
  assert (HX : 0 <= x * bpp) by (apply Z.mul_nonneg_nonneg; lia).
  assert (HXQ : x * bpp + Q <= P).
  { unfold P, Q. rewrite <- Z.mul_add_distr_r.
    apply Z.mul_le_mono_nonneg_r; lia. }
  assert (HyP : (y + rows) * P <= img_height im * P)
    by (apply Z.mul_le_mono_nonneg_r; lia).
  assert (HrQ : rows * Q <= thtx_h t * Q)
    by (apply Z.mul_le_mono_nonneg_r; lia).
  assert (Hy0 : 0 <= y * P) by (apply Z.mul_nonneg_nonneg; lia).
  assert (Hr0 : 0 <= rows * P) by (apply Z.mul_nonneg_nonneg; lia).
  assert (HyP1 : (y + 1) * P <= img_height im * P)
    by (apply Z.mul_le_mono_nonneg_r; lia).
  assert (Hyw : 0 <= y * img_width im)
    by (apply Z.mul_nonneg_nonneg; lia).
  assert (Hyw' : y * img_width im <= y * P).
  { unfold P. rewrite Z.mul_assoc.
    rewrite <- (Z.mul_1_r (y * img_width im)) at 1.
    apply Z.mul_le_mono_nonneg_l; lia. }
  assert (Hassoc : y * img_width im * bpp = y * P)
    by (unfold P; apply eq_sym, Z.mul_assoc).
  rewrite (wrap_small (y * img_width im)) by lia.
  rewrite Hassoc.
  rewrite (wrap_small (y * P)) by lia.
  rewrite (wrap_small P) by lia.
  rewrite (wrap_small Q) by lia.
  rewrite (wrap_small (img_height im - y)) by lia.
  rewrite (wrap_small (x * bpp)) by lia.
  fold rows.
  assert (Hmin : Z.min P Q = Q) by lia.
  destruct (patch_rows_spec (x * bpp) P Q buf (Z.to_nat rows)
              HX HP HQ ltac:(lia) ltac:(lia)
              (y * P) 0 (thtx_data t) Hy0 ltac:(lia))
    as (data' & E & L & C & F).
  { rewrite Z2Nat.id by lia. lia. }
  { rewrite Z2Nat.id by lia. lia. }
  { lia. }
  rewrite E. exists data'. split; [reflexivity |]. split; [exact L |].
  rewrite Z2Nat.id in C, F by lia. rewrite Hmin in C, F.
  split.
  - intros r k Hr Hk. specialize (C r k Hr Hk).
    rewrite Z.add_0_l in C. rewrite C. f_equal. lia.
  - intros j Hj.
    assert (Hj0 : 0 <= rows * Q) by (apply Z.mul_nonneg_nonneg; lia).
    apply F; [lia |].
    intros r k Hr Hk.
    assert ((r + 1) * Q <= rows * Q)
      by (apply Z.mul_le_mono_nonneg_r; lia).
    lia.
Qed.

End PatchThtxFacts.

(** ** Structure data access *)

Section StructGetFacts.

Variable json_hex_value : option json_t -> Z.

(** X15.  struct_get on valid arguments returns 0 and leaves in [dest]
    the [size] bytes found at src + offset followed by zeros up to
    dest_size, provided the field read does not overlap [dest] (which is
    zeroed before the copy); no byte outside [dest] changes. *)
Theorem struct_get_field (dest dest_size src : Z) (s : json_t) (w : world) :
  let offset := wrap (json_hex_value (json_object_get (Some s) "offset")) in
  let size := match json_object_get (Some s) "size" with
              | Some v => wrap (json_hex_value (Some v))
              | None => ptr_size
              end in
  0 < dest -> 0 < dest_size -> 0 < src -> src + offset < 2 ^ 32 ->
  size <= dest_size ->
  in_space dest dest_size -> in_space (src + offset) size ->
  apart dest dest_size (src + offset) size ->
  exists m',
    struct_get json_hex_value dest dest_size src (Some s) w
    = Done 0 (mk_world m' (w_events w))
    /\ (forall k, 0 <= k < size ->
          load8 m' (dest + k) = load8 (w_mem w) (src + offset + k))
    /\ (forall k, size <= k < dest_size -> load8 m' (dest + k) = 0)
    /\ (forall x, (forall k, 0 <= k < dest_size -> wrap (dest + k) <> wrap x) ->
          load8 m' x = load8 (w_mem w) x).
Proof.
  intros offset size Hd Hn Hs Hso Hsize Hsd Hss Hap.
  assert (Hoff : 0 <= offset) by apply wrap_range.
  assert (Hsz : 0 <= size).
  { unfold size. destruct (json_object_get (Some s) "size");
      [apply wrap_range | unfold ptr_size; lia]. }
  unfold in_space in Hsd, Hss. unfold apart in Hap.
  assert (Hdn : is_null dest = false) by (apply is_null_false; lia).
  assert (Hsn : is_null src = false) by (apply is_null_false; lia).
  assert (Han : is_null (wrap (src + offset)) = false).
  { unfold is_null. rewrite wrap_wrap, wrap_small by lia.
    apply Z.eqb_neq. lia. }
  unfold struct_get.
  rewrite Hdn, Hsn, (wrap_small dest_size) by lia.
  replace (dest_size =? 0) with false by (symmetry; apply Z.eqb_neq; lia).
  cbn [orb]. fold offset.
  replace (match json_object_get (Some s) "size" with
           | Some _ => wrap (json_hex_value (json_object_get (Some s) "size"))
           | None => ptr_size
           end) with size
    by (unfold size; destruct (json_object_get (Some s) "size"); reflexivity).
  replace (size >? dest_size) with false
    by (symmetry; rewrite Z.gtb_ltb; apply Z.ltb_ge; lia).
  unfold memset.
  rewrite (bind_done _ _ _ _ _ (mem_store_done _ _ _ _ Hdn)).
  unfold memcpy at 1. unfold bind at 1. cbn [w_mem w_events].
  rewrite Han, mem_store_done by exact Hdn.
  cbn [w_mem w_events]. unfold ret. rewrite !Z.add_0_r.
  rewrite (wrap_small (src + offset)) by lia.
  set (m1 := store_bytes (w_mem w) dest (repeat 0 (Z.to_nat dest_size))).
  change (store_bytes m1 dest (load_bytes m1 (src + offset) (Z.to_nat size)))
    with (memmove m1 dest (src + offset) size).
  eexists. split; [reflexivity |].
  assert (Hzero : forall k, 0 <= k < dest_size -> load8 m1 (dest + k) = 0).
  { intros k Hk. unfold m1.
    rewrite load8_store_bytes_in by (rewrite repeat_length; lia).
    rewrite nth_repeat_lt by lia. reflexivity. }
  assert (Hkeep : forall x, (forall k, 0 <= k < dest_size ->
                               wrap (dest + k) <> wrap x) ->
                  load8 m1 x = load8 (w_mem w) x).
  { intros x Hx. unfold m1. apply load8_store_bytes_out.
    intros i Hi. rewrite repeat_length in Hi. apply Hx. lia. }
  split; [| split].
  - intros k Hk. rewrite memmove_dst by lia.
    apply Hkeep. intros j Hj. rewrite !wrap_small by lia. lia.
  - intros k Hk. rewrite memmove_other; [apply Hzero; lia |].
    intros i Hi. apply wrap_neq_offset; lia.
  - intros x Hx. rewrite memmove_other; [apply Hkeep, Hx |].
    intros i Hi. apply Hx. lia.
Qed.

End StructGetFacts.

(** * Text images *)

(** ** The image list *)

Lemma image_get_from_shift (Images : list textimage_t) (fn : string) (i : nat) :
  image_get_from (S i) Images fn
  = match image_get_from i Images fn with
    | Some (j, image) => Some (S j, image)
    | None => None
    end.
Proof.
  revert i. induction Images as [|x rest IH]; intros i; [reflexivity |].
  cbn [image_get_from]. destruct (String.eqb (ti_fn x) fn); [reflexivity |].
  apply IH.
Qed.

Lemma images_put_cons (x : textimage_t) (rest : list textimage_t)
    (image : textimage_t) :
  images_put (x :: rest) image
  = if String.eqb (ti_fn x) (ti_fn image) then image :: rest
    else x :: images_put rest image.
Proof.
  unfold images_put, image_get. cbn [image_get_from].
  destruct (String.eqb (ti_fn x) (ti_fn image)); [reflexivity |].
  rewrite image_get_from_shift.
  destruct (image_get_from 0 rest (ti_fn image)) as [[j old] |]; reflexivity.
Qed.

Lemma image_get_cons (x : textimage_t) (rest : list textimage_t) (fn : string) :
  image_get (x :: rest) fn
  = if String.eqb (ti_fn x) fn then Some (0%nat, x)
    else match image_get rest fn with
         | Some (j, image) => Some (S j, image)
         | None => None
         end.
Proof.
  unfold image_get. cbn [image_get_from].
  destruct (String.eqb (ti_fn x) fn); [reflexivity |].
  apply image_get_from_shift.
Qed.

Lemma images_put_names (Images : list textimage_t) (image : textimage_t) :
  forall fn, In fn (map ti_fn (images_put Images image)) ->
             fn = ti_fn image \/ In fn (map ti_fn Images).
Proof.
  induction Images as [|x rest IH]; intros fn H.
  - destruct H as [<- | []]. left. reflexivity.
  - rewrite images_put_cons in H.
    destruct (String.eqb_spec (ti_fn x) (ti_fn image)) as [E | _].
    + destruct H as [<- | H]; [left; reflexivity | right; right; exact H].
    + destruct H as [<- | H]; [right; left; reflexivity |].
      destruct (IH fn H) as [-> | Hin]; [left; reflexivity | right; right; exact Hin].
Qed.

(** X16.  Registering an image keeps the list free of duplicate file
    names: the new image takes the place of the image of the same file
    name, or goes to the end; afterwards image_get finds the new image
    under its name, and every other name is found exactly where it was. *)
Theorem images_put_unique (Images : list textimage_t) (image : textimage_t) :
  NoDup (map ti_fn Images) ->
  NoDup (map ti_fn (images_put Images image))
  /\ (exists i, image_get (images_put Images image) (ti_fn image)
                = Some (i, image))
  /\ (forall fn, fn <> ti_fn image ->
        image_get (images_put Images image) fn = image_get Images fn).
Proof.
  induction Images as [|x rest IH]; intros Hnd.
  - unfold images_put. cbn [image_get image_get_from app].
    split; [| split].
    + constructor; [intros [] | constructor].
    + exists 0%nat. unfold image_get. cbn [image_get_from].
      rewrite String.eqb_refl. reflexivity.
    + intros fn Hne. unfold image_get. cbn [image_get_from].
      destruct (String.eqb_spec (ti_fn image) fn) as [E | _];
        [congruence | reflexivity].
  - rewrite images_put_cons.
    inversion Hnd as [|? ? Hx Hrest]; subst.
    destruct (String.eqb_spec (ti_fn x) (ti_fn image)) as [E | Hne0].
    + split; [| split].
      * cbn [map]. rewrite <- E. exact Hnd.
      * exists 0%nat. rewrite image_get_cons, String.eqb_refl. reflexivity.
      * intros fn Hne. rewrite !image_get_cons.
        destruct (String.eqb_spec (ti_fn image) fn) as [E' | _];
          [congruence |].
        destruct (String.eqb_spec (ti_fn x) fn) as [E' | _];
          [congruence | reflexivity].
    + destruct (IH Hrest) as (Hnd' & [i Hi] & Hother).
      split; [| split].
      * cbn [map]. constructor; [| exact Hnd'].
        intros Hin. apply images_put_names in Hin.
        destruct Hin as [Hin | Hin]; [contradiction | exact (Hx Hin)].
      * exists (S i). rewrite image_get_cons.
        destruct (String.eqb_spec (ti_fn x) (ti_fn image)) as [E' | _];
          [contradiction |].
        rewrite Hi. reflexivity.
      * intros fn Hne. rewrite !image_get_cons.
        rewrite (Hother fn Hne). reflexivity.
Qed.

Lemma to_int_small (x : Z) : 0 <= x < 2 ^ 31 -> to_int (wrap x) = x.
Proof.
  intros H. rewrite wrap_small by lia. unfold to_int.
  destruct (Z.ltb_spec x (2 ^ 31)); lia.
Qed.

Lemma skipn_nth_error (l : list textimage_t) (k : nat) (x : textimage_t) :
  nth_error l k = Some x -> skipn k l = x :: skipn (S k) l.
Proof.
  revert l. induction k as [|k IH]; intros l H.
  - destruct l; [discriminate H |]. inversion H. reflexivity.
  - destruct l; [discriminate H |]. apply (IH l H).
Qed.

(* the search from index [k] on finds the first image on top, if any *)
Lemma image_next_on_top_spec (Images : list textimage_t) :
  Z.of_nat (List.length Images) < 2 ^ 31 ->
  forall fuel k,
    (k <= List.length Images)%nat -> (List.length Images - k < fuel)%nat ->
    (exists image j,
       image_next_on_top fuel Images (Z.of_nat k - 1)
       = Some (Some image, Z.of_nat j)
       /\ (k <= j < List.length Images)%nat
       /\ filter on_top (skipn k Images)
          = image :: filter on_top (skipn (S j) Images))
    \/ (exists i',
          image_next_on_top fuel Images (Z.of_nat k - 1) = Some (None, i')
          /\ filter on_top (skipn k Images) = []).
Proof.
  intros Hn. induction fuel as [|fuel IH]; intros k Hk Hfuel; [lia |].
  cbn [image_next_on_top].
  replace (Z.of_nat k - 1 + 1) with (Z.of_nat k) by lia.
  rewrite !to_int_small by lia.
  destruct (Z.ltb_spec (Z.of_nat k) (Z.of_nat (List.length Images))) as [Hlt | Hge].
  - replace (Z.of_nat k <? 0) with false by (symmetry; apply Z.ltb_ge; lia).
    rewrite Nat2Z.id.
    destruct (nth_error Images k) as [image |] eqn:Hnth.
    2: { apply nth_error_None in Hnth. lia. }
    rewrite (skipn_nth_error _ _ _ Hnth). cbn [filter]. change (on_top image) with (ti_higher image =? 0).
    destruct (ti_higher image =? 0).
    + left. exists image, k. split; [reflexivity |]. split; [lia | reflexivity].
    + assert (Ek : Z.of_nat k = Z.of_nat (S k) - 1) by lia. rewrite Ek.
      destruct (IH (S k) ltac:(lia) ltac:(lia))
        as [(im & j & E & Hj & Hf) | (i' & E & Hf)].
      * left. exists im, j. split; [exact E |]. split; [lia | exact Hf].
      * right. exists i'. split; [exact E | exact Hf].
  - right. exists (Z.of_nat k). split; [reflexivity |].
    rewrite skipn_all2 by lia. reflexivity.
Qed.

Lemma image_foreach_on_top_spec (Images : list textimage_t) :
  Z.of_nat (List.length Images) < 2 ^ 31 ->
  forall fuel k,
    (k <= List.length Images)%nat -> (List.length Images - k < fuel)%nat ->
    image_foreach_on_top_from fuel Images (Z.of_nat k - 1)
    = Some (filter on_top (skipn k Images)).
Proof.
  intros Hn. induction fuel as [|fuel IH]; intros k Hk Hfuel; [lia |].
  cbn [image_foreach_on_top_from].
  destruct (image_next_on_top_spec Images Hn (S fuel) k Hk Hfuel)
    as [(im & j & E & Hj & Hf) | (i' & E & Hf)].
  - rewrite E.
    replace (Z.of_nat j) with (Z.of_nat (S j) - 1) by lia.
    rewrite IH by lia. rewrite Hf. reflexivity.
  - rewrite E, Hf. reflexivity.
Qed.

(** X17.  image_foreach_on_top runs its body on exactly the images whose
    [higher] is null, each once and in list order, and ends after at most
    one more step than there are images. *)
Theorem image_foreach_on_top_filter (Images : list textimage_t) (fuel : nat) :
  Z.of_nat (List.length Images) < 2 ^ 31 ->
  (List.length Images < fuel)%nat ->
  image_foreach_on_top fuel Images = Some (filter on_top Images).
Proof.
  intros Hn Hfuel. unfold image_foreach_on_top.
  change (-1) with (Z.of_nat 0 - 1).
  rewrite (image_foreach_on_top_spec Images Hn fuel 0) by lia.
  reflexivity.
Qed.

(** ** Committing a sprite *)

Lemma buf_write_head (buf new : list Z) :
  (List.length new <= List.length buf)%nat ->
  buf_write buf 0 new = Some (new ++ skipn (List.length new) buf).
Proof.
  intros H.
  rewrite <- (firstn_skipn (List.length new) buf) at 1.
  change (firstn (List.length new) buf ++ skipn (List.length new) buf)
    with ([] ++ firstn (List.length new) buf ++ skipn (List.length new) buf).
  change 0 with (Z.of_nat (List.length (@nil Z))).
  rewrite buf_write_at by (rewrite length_firstn; lia).
  reflexivity.
Qed.

Lemma buf_sub_length (buf out : list Z) (off n : Z) :
  buf_sub buf off n = Some out -> Z.of_nat (List.length out) = n.
Proof.
  unfold buf_sub.
  destruct ((0 <=? off) && (0 <=? n) && (off + n <=? Z.of_nat (List.length buf)))
    eqn:E; [| discriminate].
  rewrite !andb_true_iff, !Z.leb_le in E.
  intros H. inversion H; subst.
  rewrite length_firstn, length_skipn. lia.
Qed.

Lemma buf_sub_head (buf : list Z) (n : Z) :
  0 <= n <= Z.of_nat (List.length buf) ->
  buf_sub buf 0 n = Some (firstn (Z.to_nat n) buf).
Proof.
  intros H. unfold buf_sub.
  replace ((0 <=? 0) && (0 <=? n) && (0 + n <=? Z.of_nat (List.length buf)))
    with true
    by (symmetry; rewrite !andb_true_iff, !Z.leb_le; lia).
  reflexivity.
Qed.

(* rewriting a pointer-sized cell with the value it held in [m0] gives it
   the bytes it had in [m0] *)
Lemma load8_store_load32 (m m0 : memory) (a k : Z) :
  0 <= k < 4 ->
  load8 (store_bytes m a (le32 (load32 m0 a))) (a + k) = load8 m0 (a + k).
Proof.
  intros Hk.
  pose proof (load32_store32_same m a (load32 m0 a)) as H.
  rewrite (wrap_small (load32 m0 a)) in H by apply load32_range.
  unfold load32, store32 in H.
  set (m' := store_bytes m a (le32 (load8 m0 a + 2 ^ 8 * load8 m0 (a + 1)
                                    + 2 ^ 16 * load8 m0 (a + 2)
                                    + 2 ^ 24 * load8 m0 (a + 3)))) in *.
  unfold load32. fold m'.
  pose proof (load8_range m' a). pose proof (load8_range m' (a + 1)).
  pose proof (load8_range m' (a + 2)). pose proof (load8_range m' (a + 3)).
  pose proof (load8_range m0 a). pose proof (load8_range m0 (a + 1)).
  pose proof (load8_range m0 (a + 2)). pose proof (load8_range m0 (a + 3)).
  change (2 ^ 8) with 256 in H. change (2 ^ 16) with 65536 in H.
  change (2 ^ 24) with 16777216 in H.
  assert (Hk' : k = 0 \/ k = 1 \/ k = 2 \/ k = 3) by lia.
  destruct Hk' as [-> | [-> | [-> | ->]]]; rewrite ?Z.add_0_r; lia.
Qed.

Section CommitFacts.

Variable game_id : Z.
Variable TH06 : Z.
Variable TH07 : Z.
Variable sizeof_sprite_spec06_t : Z.
Variable sizeof_sprite_spec07_t : Z.
Variable SpriteSpecs : Z.
Variable SpriteScripts : Z.

Local Abbreviation spec_size :=
  (sprite_spec_size game_id TH06 TH07 sizeof_sprite_spec06_t
     sizeof_sprite_spec07_t).
Local Abbreviation copy_size :=
  (commit_copy_size game_id TH06 TH07 sizeof_sprite_spec06_t
     sizeof_sprite_spec07_t).
Local Abbreviation sprite_p :=
  (game_sprite_p game_id TH06 TH07 sizeof_sprite_spec06_t
     sizeof_sprite_spec07_t SpriteSpecs).
Local Abbreviation script_p := (game_script_p SpriteScripts).
Local Abbreviation commit :=
  (commit_sprite game_id TH06 TH07 sizeof_sprite_spec06_t
     sizeof_sprite_spec07_t SpriteSpecs SpriteScripts).
Local Abbreviation commits :=
  (commit_each game_id TH06 TH07 sizeof_sprite_spec06_t
     sizeof_sprite_spec07_t SpriteSpecs SpriteScripts).

(* the sprite the commits are about, its image and the memory they
   start from *)
Variable sr0 : sprite_runtime_t.
Variable active_ti : textimage_t.
Variable specs : list Z.
Variable m0 : memory.

Hypothesis has_image : sr_active_ti sr0 = Some active_ti.
Hypothesis has_specs : ti_specs active_ti = Some specs.
(* the copied part of a spec fits the backup and is there in [specs] *)
Hypothesis backup_fits :
  0 <= copy_size <= Z.of_nat (List.length (sr_spec_game sr0)).
Hypothesis sprite_there :
  wrap (sr_active_sprite_on_ti sr0 * spec_size) + copy_size
  <= Z.of_nat (List.length specs).
(* the game's spec and script pointer: valid and apart *)
Hypothesis sprite_p_ok : 0 < sprite_p sr0 /\ sprite_p sr0 + copy_size <= 2 ^ 32.
Hypothesis script_p_ok : 0 < script_p sr0 /\ script_p sr0 + ptr_size <= 2 ^ 32.
Hypothesis pointers_apart :
  apart (sprite_p sr0) copy_size (script_p sr0) ptr_size.

Local Abbreviation inv :=
  (commit_inv m0 (sprite_p sr0) copy_size (script_p sr0) sr0).

Lemma sprite_p_same (sr : sprite_runtime_t) :
  sr_sprite_slot sr = sr_sprite_slot sr0 ->
  sprite_p sr = sprite_p sr0 /\ script_p sr = script_p sr0.
Proof.
  intros H. unfold game_sprite_p, game_script_p. rewrite H. split; reflexivity.
Qed.

Lemma pointers_nonnull :
  is_null (sprite_p sr0) = false /\ is_null (script_p sr0) = false.
Proof.
  pose proof script_p_ok as Hs. pose proof sprite_p_ok as Hp.
  pose proof backup_fits as Hb. unfold ptr_size in Hs.
  assert (Hr : sprite_p sr0 < 2 ^ 32) by (unfold game_sprite_p; apply wrap_range).
  split; apply is_null_false; lia.
Qed.

(* every byte is in the spec, in the script pointer, or outside both *)
Lemma byte_cases (x : Z) :
  (exists k, 0 <= k < copy_size /\ wrap x = wrap (sprite_p sr0 + k))
  \/ (exists k, 0 <= k < ptr_size /\ wrap x = wrap (script_p sr0 + k))
  \/ ~ touched [(sprite_p sr0, copy_size); (script_p sr0, ptr_size)] x.
Proof.
  pose proof (wrap_range x) as Hx.
  pose proof script_p_ok as Hs. pose proof sprite_p_ok as Hp.
  pose proof backup_fits as Hb.
  destruct (Z_le_gt_dec (sprite_p sr0) (wrap x)) as [H1 | H1];
    [destruct (Z_lt_ge_dec (wrap x) (sprite_p sr0 + copy_size)) as [H2 | H2] |].
  - left. exists (wrap x - sprite_p sr0). split; [lia |].
    replace (sprite_p sr0 + (wrap x - sprite_p sr0)) with (wrap x) by lia.
    symmetry. apply wrap_wrap.
  - destruct (Z_le_gt_dec (script_p sr0) (wrap x)) as [H3 | H3];
      [destruct (Z_lt_ge_dec (wrap x) (script_p sr0 + ptr_size)) as [H4 | H4] |].
    + right. left. exists (wrap x - script_p sr0). split; [lia |].
      replace (script_p sr0 + (wrap x - script_p sr0)) with (wrap x) by lia.
      symmetry. apply wrap_wrap.
    + right. right. intros (a & n & k & Hin & Hk & E).
      destruct Hin as [Ea | [Ea | []]]; inversion Ea; subst a n;
        rewrite wrap_small in E by lia; lia.
    + right. right. intros (a & n & k & Hin & Hk & E).
      destruct Hin as [Ea | [Ea | []]]; inversion Ea; subst a n;
        rewrite wrap_small in E by lia; lia.
  - destruct (Z_le_gt_dec (script_p sr0) (wrap x)) as [H3 | H3];
      [destruct (Z_lt_ge_dec (wrap x) (script_p sr0 + ptr_size)) as [H4 | H4] |].
    + right. left. exists (wrap x - script_p sr0). split; [lia |].
      replace (script_p sr0 + (wrap x - script_p sr0)) with (wrap x) by lia.
      symmetry. apply wrap_wrap.
    + right. right. intros (a & n & k & Hin & Hk & E).
      destruct Hin as [Ea | [Ea | []]]; inversion Ea; subst a n;
        rewrite wrap_small in E by lia; lia.
    + right. right. intros (a & n & k & Hin & Hk & E).
      destruct Hin as [Ea | [Ea | []]]; inversion Ea; subst a n;
        rewrite wrap_small in E by lia; lia.
Qed.


Lemma buf_sub_ok (buf : list Z) (off n : Z) :
  0 <= off -> 0 <= n -> off + n <= Z.of_nat (List.length buf) ->
  exists out, buf_sub buf off n = Some out /\ Z.of_nat (List.length out) = n.
Proof.
  intros H1 H2 H3. unfold buf_sub.
  replace ((0 <=? off) && (0 <=? n) && (off + n <=? Z.of_nat (List.length buf)))
    with true
    by (symmetry; rewrite !andb_true_iff, !Z.leb_le; lia).
  eexists. split; [reflexivity |].
  rewrite length_firstn, length_skipn. lia.
Qed.

Lemma load32_pointwise (m m' : memory) (a : Z) :
  (forall x, load8 m x = load8 m' x) -> load32 m a = load32 m' a.
Proof. intros H. unfold load32. rewrite !H. reflexivity. Qed.

Lemma ret_bind {A B : Type} (a : A) (k : A -> M B) (w : world) :
  bind (ret a) k w = k a w.
Proof. reflexivity. Qed.

Lemma lift_some_bind {A B : Type} (o : option A) (a : A) (k : A -> M B)
    (w : world) :
  o = Some a -> bind (lift o) k w = k a w.
Proof. intros ->. reflexivity. Qed.

(* one commit keeps the invariant and leaves the sprite as asked *)
Lemma commit_step (sr : sprite_runtime_t) (set : bool) (w : world) :
  inv sr (w_mem w) ->
  exists sr' m',
    commit sr set w = Done sr' (mk_world m' (w_events w))
    /\ inv sr' m' /\ sr_is_ours sr' = set.
Proof.
  intros (Hslot & Hti & Hidx & Hlen & Hout & Hstate).
  destruct (sprite_p_same sr Hslot) as [Egp Esp].
  destruct pointers_nonnull as [Ngp Nsp].
  pose proof script_p_ok as Hs. pose proof sprite_p_ok as Hp.
  pose proof backup_fits as Hb. pose proof pointers_apart as Hap.
  unfold apart in Hap.
  set (R := [(sprite_p sr0, copy_size); (script_p sr0, ptr_size)]) in *.
  assert (R1 : In (sprite_p sr0, copy_size) R) by (left; reflexivity).
  assert (R2 : In (script_p sr0, ptr_size) R) by (right; left; reflexivity).
  unfold commit_sprite. rewrite Egp, Esp.
  destruct set.
  - (* set *)
    assert (Htail : forall sr1 w1,
              sr_active_ti sr1 = sr_active_ti sr0 ->
              sr_active_sprite_on_ti sr1 = sr_active_sprite_on_ti sr0 ->
              exists m',
                (active_ti <- lift (sr_active_ti sr1) ;;
                 specs <- lift (ti_specs active_ti) ;;
                 our_sprite <- lift (buf_sub specs
                                       (wrap (sr_active_sprite_on_ti sr1 * spec_size))
                                       copy_size) ;;
                 mem_store (sprite_p sr0) 0 our_sprite ;;
                 (if ti_script_buf active_ti =? 0 then ret tt
                  else mem_store (script_p sr0) 0 (le32 (ti_script_buf active_ti))) ;;
                 ret {| sr_sprite_slot := sr_sprite_slot sr1;
                        sr_active_ti := sr_active_ti sr1;
                        sr_active_sprite_on_ti := sr_active_sprite_on_ti sr1;
                        sr_is_ours := true;
                        sr_in_group := sr_in_group sr1;
                        sr_spec_game := sr_spec_game sr1;
                        sr_script_game := sr_script_game sr1 |})%M w1
                = Done {| sr_sprite_slot := sr_sprite_slot sr1;
                          sr_active_ti := sr_active_ti sr1;
                          sr_active_sprite_on_ti := sr_active_sprite_on_ti sr1;
                          sr_is_ours := true;
                          sr_in_group := sr_in_group sr1;
                          sr_spec_game := sr_spec_game sr1;
                          sr_script_game := sr_script_game sr1 |}
                    (mk_world m' (w_events w1))
                /\ same_outside R (w_mem w1) m').
    { intros sr1 w1 Hti1 Hidx1.
      rewrite (lift_some_bind _ active_ti) by (rewrite Hti1; exact has_image).
      rewrite (lift_some_bind _ specs) by exact has_specs.
      destruct (buf_sub_ok specs (wrap (sr_active_sprite_on_ti sr1 * spec_size))
                  copy_size) as (our & Eour & Lour).
      { apply wrap_range. }
      { lia. }
      { rewrite Hidx1. exact sprite_there. }
      rewrite (lift_some_bind _ our) by exact Eour.
      rewrite (bind_done _ _ _ _ _ (mem_store_done _ _ _ _ Ngp)).
      destruct (ti_script_buf active_ti =? 0).
      - rewrite ret_bind. eexists. split; [reflexivity |].
        cbn [w_mem].
        apply (same_outside_store R _ _ _ _ _ _ R1); [lia | lia |].
        apply same_outside_refl.
      - rewrite (bind_done _ _ _ _ _ (mem_store_done _ _ _ _ Nsp)).
        eexists. split; [reflexivity |]. cbn [w_mem].
        apply (same_outside_store R _ _ _ _ _ _ R2);
          [lia | simpl List.length; unfold ptr_size; lia |].
        apply (same_outside_store R _ _ _ _ _ _ R1); [lia | lia |].
        apply same_outside_refl. }
    destruct (sr_is_ours sr) eqn:Eours; cbn [negb].
    + rewrite ret_bind.
      destruct (Htail sr w Hti Hidx) as (m' & E & Hf).
      rewrite E. eexists _, m'. split; [reflexivity |]. split; [| reflexivity].
      unfold commit_inv. cbn [sr_sprite_slot sr_active_ti sr_active_sprite_on_ti
                              sr_spec_game sr_is_ours sr_script_game].
      repeat (split; [assumption |]). split.
      * intros x Hx. rewrite (Hf x Hx). apply Hout, Hx.
      * exact Hstate.
    + set (bytes := load_bytes (w_mem w) (sprite_p sr0) (Z.to_nat copy_size)).
      set (sr1 := {| sr_sprite_slot := sr_sprite_slot sr;
                     sr_active_ti := sr_active_ti sr;
                     sr_active_sprite_on_ti := sr_active_sprite_on_ti sr;
                     sr_is_ours := false;
                     sr_in_group := sr_in_group sr;
                     sr_spec_game :=
                       bytes ++ skipn (List.length bytes) (sr_spec_game sr);
                     sr_script_game := load32 (w_mem w) (script_p sr0) |}).
      assert (Eblock :
                (bytes <- mem_load (sprite_p sr0) copy_size ;;
                 spec_game <- lift (buf_write (sr_spec_game sr) 0 bytes) ;;
                 script_game <- mem_load32 (script_p sr0) ;;
                 ret {| sr_sprite_slot := sr_sprite_slot sr;
                        sr_active_ti := sr_active_ti sr;
                        sr_active_sprite_on_ti := sr_active_sprite_on_ti sr;
                        sr_is_ours := false;
                        sr_in_group := sr_in_group sr;
                        sr_spec_game := spec_game;
                        sr_script_game := script_game |})%M w
                = Done sr1 w).
      { assert (Eload : mem_load (sprite_p sr0) copy_size w = Done bytes w)
          by (unfold mem_load; rewrite Ngp; reflexivity).
        rewrite (bind_done _ _ _ _ _ Eload).
        rewrite (lift_some_bind _ (bytes ++ skipn (List.length bytes) (sr_spec_game sr)))
          by (apply buf_write_head; unfold bytes; rewrite load_bytes_length; lia).
        assert (Eload32 : mem_load32 (script_p sr0) w
                          = Done (load32 (w_mem w) (script_p sr0)) w)
          by (unfold mem_load32; rewrite Nsp; reflexivity).
        rewrite (bind_done _ _ _ _ _ Eload32). reflexivity. }
      rewrite (bind_done _ _ _ _ _ Eblock).
      destruct (Htail sr1 w Hti Hidx) as (m' & E & Hf).
      rewrite E. eexists _, m'. split; [reflexivity |]. split; [| reflexivity].
      unfold commit_inv. cbn [sr_sprite_slot sr_active_ti sr_active_sprite_on_ti
                              sr_spec_game sr_is_ours sr_script_game sr1].
      split; [assumption |]. split; [assumption |]. split; [assumption |].
      split.
      { unfold bytes.
        rewrite length_app, load_bytes_length, length_skipn. lia. }
      split.
      { intros x Hx. rewrite (Hf x Hx). apply Hout, Hx. }
      unfold backup_of. subst sr1. cbn [sr_spec_game sr_script_game].
      split.
      * intros k Hk. unfold bytes.
        rewrite app_nth1 by (rewrite load_bytes_length; lia).
        rewrite load_bytes_nth by lia.
        rewrite Z.mod_small by apply load8_range. apply Hstate.
      * apply load32_pointwise. exact Hstate.
  - (* unset *)
    destruct (sr_is_ours sr) eqn:Eours.
    + destruct Hstate as [Hbytes Hscript].
      set (saved := firstn (Z.to_nat copy_size) (sr_spec_game sr)).
      assert (Hsub : buf_sub (sr_spec_game sr) 0 copy_size = Some saved)
        by (apply buf_sub_head; lia).
      assert (Lsaved : Z.of_nat (List.length saved) = copy_size)
        by (unfold saved; rewrite length_firstn; lia).
      assert (Eblock :
                (saved <- lift (buf_sub (sr_spec_game sr) 0 copy_size) ;;
                 mem_store (sprite_p sr0) 0 saved ;;
                 mem_store (script_p sr0) 0 (le32 (sr_script_game sr)))%M w
                = Done tt
                    (mk_world
                       (store_bytes (store_bytes (w_mem w) (sprite_p sr0) saved)
                          (script_p sr0) (le32 (sr_script_game sr)))
                       (w_events w))).
      { rewrite (lift_some_bind _ _ _ _ Hsub).
        rewrite (bind_done _ _ _ _ _ (mem_store_done _ _ _ _ Ngp)).
        rewrite mem_store_done by exact Nsp.
        cbn [w_mem w_events]. rewrite !Z.add_0_r. reflexivity. }
      rewrite (bind_done _ _ _ _ _ Eblock). unfold ret.
      eexists _, _. split; [reflexivity |]. split; [| reflexivity].
      assert (Hall : forall x,
                load8 (store_bytes (store_bytes (w_mem w) (sprite_p sr0) saved)
                         (script_p sr0) (le32 (sr_script_game sr))) x
                = load8 m0 x).
      { intros x. destruct (byte_cases x) as [(k & Hk & E) | [(k & Hk & E) | Hx]].
        - rewrite (load8_wrap _ _ _ E), (load8_wrap m0 _ _ E).
          rewrite load8_store_bytes_out.
          2: { intros i Hi. simpl in Hi. unfold ptr_size in *.
               rewrite !wrap_small by lia. lia. }
          rewrite load8_store_bytes_in by lia.
          unfold saved. rewrite nth_firstn_lt by lia. apply Hbytes. exact Hk.
        - rewrite (load8_wrap _ _ _ E), (load8_wrap m0 _ _ E).
          rewrite Hscript. apply load8_store_load32. exact Hk.
        - rewrite <- (Hout x Hx).
          assert (Hs2 : same_outside R (w_mem w)
                          (store_bytes (store_bytes (w_mem w) (sprite_p sr0) saved)
                             (script_p sr0) (le32 (sr_script_game sr)))).
          { apply (same_outside_store R _ _ _ _ _ _ R2);
              [lia | simpl List.length; unfold ptr_size; lia |].
            apply (same_outside_store R _ _ _ _ _ _ R1); [lia | lia |].
            apply same_outside_refl. }
          apply Hs2. exact Hx. }
      unfold commit_inv. cbn [sr_sprite_slot sr_active_ti sr_active_sprite_on_ti
                              sr_spec_game sr_is_ours sr_script_game].
      repeat (split; [assumption |]). split; [| exact Hall].
      intros x _. apply Hall.
    + rewrite ret_bind. unfold ret. destruct w as [m evs]. cbn [w_mem w_events] in *.
      eexists _, _. split; [reflexivity |]. split; [| reflexivity].
      unfold commit_inv. cbn [sr_sprite_slot sr_active_ti sr_active_sprite_on_ti
                              sr_spec_game sr_is_ours sr_script_game].
      repeat (split; [assumption |]). exact Hstate.
Qed.

Lemma last_cons_default (l : list bool) :
  forall a d, last (a :: l) d = last l a.
Proof.
  induction l as [|b l IH]; intros a d; [reflexivity |].
  change (last (a :: b :: l) d) with (last (b :: l) d).
  rewrite !IH. reflexivity.
Qed.

Lemma commit_each_inv (flags : list bool) :
  forall sr w,
    inv sr (w_mem w) ->
    exists sr' m',
      commits flags sr w = Done sr' (mk_world m' (w_events w))
      /\ inv sr' m'
      /\ sr_is_ours sr' = last flags (sr_is_ours sr).
Proof.
  induction flags as [|set rest IH]; intros sr w Hinv.
  - exists sr, (w_mem w). destruct w. split; [reflexivity |].
    split; [exact Hinv | reflexivity].
  - cbn [commit_each].
    destruct (commit_step sr set w Hinv) as (sr1 & m1 & E1 & Hinv1 & Hours1).
    rewrite (bind_done _ _ _ _ _ E1).
    destruct (IH sr1 (mk_world m1 (w_events w)) Hinv1)
      as (sr' & m' & E & Hinv' & Hours').
    exists sr', m'. split; [exact E |]. split; [exact Hinv' |].
    rewrite Hours', Hours1. symmetry. apply last_cons_default.
Qed.

(* a last commit with set = false puts game memory back *)
Lemma commit_each_restores (flags : list bool) (w : world) :
  sr_is_ours sr0 = false ->
  w_mem w = m0 ->
  exists sr' w',
    commits (flags ++ [false]) sr0 w = Done sr' w'
    /\ sr_is_ours sr' = false
    /\ w_events w' = w_events w
    /\ forall x, load8 (w_mem w') x = load8 (w_mem w) x.
Proof.
  intros Hours Hm.
  assert (Hinv : inv sr0 (w_mem w)).
  { unfold commit_inv. rewrite Hours, Hm.
    repeat (split; [reflexivity |]). split; [apply same_outside_refl |].
    reflexivity. }
  destruct (commit_each_inv (flags ++ [false]) sr0 w Hinv)
    as (sr' & m' & E & Hinv' & Hlast).
  rewrite last_last in Hlast.
  exists sr', (mk_world m' (w_events w)). split; [exact E |].
  split; [exact Hlast |]. split; [reflexivity |].
  destruct Hinv' as (_ & _ & _ & _ & _ & Hstate).
  rewrite Hlast in Hstate. cbn [w_mem]. rewrite Hm. exact Hstate.
Qed.

End CommitFacts.

Section CommitUnion.

Variable game_id : Z.
Variable TH06 : Z.
Variable TH07 : Z.
Variable sizeof_sprite_spec06_t : Z.
Variable sizeof_sprite_spec07_t : Z.
Variable SpriteSpecs : Z.
Variable SpriteScripts : Z.

Local Abbreviation spec_size :=
  (sprite_spec_size game_id TH06 TH07 sizeof_sprite_spec06_t
     sizeof_sprite_spec07_t).
Local Abbreviation copy_size :=
  (commit_copy_size game_id TH06 TH07 sizeof_sprite_spec06_t
     sizeof_sprite_spec07_t).
Local Abbreviation sprite_p :=
  (game_sprite_p game_id TH06 TH07 sizeof_sprite_spec06_t
     sizeof_sprite_spec07_t SpriteSpecs).
Local Abbreviation script_p := (game_script_p SpriteScripts).
Local Abbreviation commits :=
  (commit_each game_id TH06 TH07 sizeof_sprite_spec06_t
     sizeof_sprite_spec07_t SpriteSpecs SpriteScripts).

(** X18.  A sprite that the game still owns, with an active text image
    that holds the sprite to show, a valid game spec and script pointer
    that do not overlap, and the union spec_game of
    sizeof(sprite_spec06_t) bytes as its backup.  When the bytes that a
    commit copies fit the union, then however often the sprite is
    committed, set or unset in any order, the game's own spec and script
    pointer are saved only while they are still in place, so that a last
    commit with set = false puts every byte of game memory back to what
    it was before the first commit.  When they do not fit, the first
    commit with set = true overruns the union and nothing is written to
    game memory. *)
Theorem commit_sprite_restores (sr0 : sprite_runtime_t) (w : world) :
  sr_is_ours sr0 = false ->
  Z.of_nat (List.length (sr_spec_game sr0)) = sizeof_sprite_spec06_t ->
  0 <= copy_size ->
  0 < sprite_p sr0 /\ sprite_p sr0 + copy_size <= 2 ^ 32 ->
  (copy_size <= sizeof_sprite_spec06_t ->
   forall active_ti specs,
     sr_active_ti sr0 = Some active_ti ->
     ti_specs active_ti = Some specs ->
     wrap (sr_active_sprite_on_ti sr0 * spec_size) + copy_size
     <= Z.of_nat (List.length specs) ->
     0 < script_p sr0 /\ script_p sr0 + ptr_size <= 2 ^ 32 ->
     apart (sprite_p sr0) copy_size (script_p sr0) ptr_size ->
     forall flags,
     exists sr' w',
       commits (flags ++ [false]) sr0 w = Done sr' w'
       /\ sr_is_ours sr' = false
       /\ w_events w' = w_events w
       /\ forall x, load8 (w_mem w') x = load8 (w_mem w) x)
  /\ (sizeof_sprite_spec06_t < copy_size ->
      forall flags, commits (true :: flags) sr0 w = Fault w).
Proof.
  intros Hours Hunion Hcopy Hsprite.
  split.
  - intros Hfits active_ti specs Himage Hspecs Hthere Hscript Hapart flags.
    apply (commit_each_restores game_id TH06 TH07 sizeof_sprite_spec06_t
             sizeof_sprite_spec07_t SpriteSpecs SpriteScripts sr0 active_ti
             specs (w_mem w) Himage Hspecs);
      first [assumption | reflexivity | lia].
  - intros Hover flags. cbn [commit_each].
    apply bind_fault. unfold commit_sprite.
    rewrite Hours. cbn [negb].
    apply bind_fault.
    assert (Hnn : is_null (sprite_p sr0) = false).
    { apply is_null_false.
      assert (sprite_p sr0 < 2 ^ 32)
        by (unfold game_sprite_p; apply wrap_range).
      lia. }
    unfold mem_load at 1. unfold bind at 1. rewrite Hnn.
    apply bind_fault. unfold buf_write.
    rewrite load_bytes_length.
    replace (0 + Z.of_nat (Z.to_nat copy_size)
             <=? Z.of_nat (List.length (sr_spec_game sr0))) with false
      by (symmetry; apply Z.leb_gt; lia).
    reflexivity.
Qed.

End CommitUnion.

(** ** textimage_commit *)

Lemma same_sprite_refl (sr : sprite_runtime_t) : same_sprite sr sr.
Proof. repeat split. Qed.

Lemma same_sprite_trans (a b c : sprite_runtime_t) :
  same_sprite a b -> same_sprite b c -> same_sprite a c.
Proof.
  intros (A1 & A2 & A3 & A4) (B1 & B2 & B3 & B4).
  repeat split; congruence.
Qed.

Lemma would_be_replaced_same (sr sr' : sprite_runtime_t) :
  same_sprite sr sr' -> would_be_replaced sr' = would_be_replaced sr.
Proof.
  intros (_ & H2 & H3 & _). unfold would_be_replaced. rewrite H2, H3.
  reflexivity.
Qed.

Lemma map_find_set_same (m : runtime_map) (k : Z) (old v : sprite_runtime_t) :
  map_find m k = Some old -> map_find (map_set m k v) k = Some v.
Proof.
  induction m as [|[k0 sr0] rest IH]; intros H; [discriminate H |].
  cbn [map_find map_set] in *.
  destruct (Z.eqb_spec k0 k) as [-> | Hne]; cbn [map_find].
  - rewrite Z.eqb_refl. reflexivity.
  - destruct (Z.eqb_spec k0 k); [contradiction |]. apply IH, H.
Qed.

Lemma map_find_set_other (m : runtime_map) (k k' : Z) (v : sprite_runtime_t) :
  k' <> k -> map_find (map_set m k v) k' = map_find m k'.
Proof.
  intros Hne. induction m as [|[k0 sr0] rest IH]; [reflexivity |].
  cbn [map_find map_set].
  destruct (Z.eqb_spec k0 k) as [-> | Hne0]; cbn [map_find].
  - destruct (Z.eqb_spec k k'); [congruence | reflexivity].
  - rewrite IH. reflexivity.
Qed.

Lemma got_all_of_them_complete (m : runtime_map) (group : list Z) (b : bool) :
  got_all_of_them m group = Some b -> b = group_complete m group.
Proof.
  induction group as [|p rest IH]; intros H.
  - inversion H. reflexivity.
  - cbn [got_all_of_them] in H. unfold group_complete. cbn [forallb].
    destruct (map_find m p) as [sr |]; [| discriminate H].
    destruct (would_be_replaced sr); cbn [negb] in H.
    + rewrite andb_true_l. apply IH, H.
    + inversion H. reflexivity.
Qed.

Lemma NoDup_app_apart (l1 l2 : list Z) :
  NoDup (l1 ++ l2) -> forall k, In k l1 -> In k l2 -> False.
Proof.
  induction l1 as [|a l1 IH]; intros H k H1 H2; [destruct H1 |].
  cbn [app] in H. inversion H as [| ? ? Hn Hrest]; subst.
  destruct H1 as [-> | H1].
  - apply Hn. apply in_or_app. right. exact H2.
  - exact (IH Hrest k H1 H2).
Qed.

Section CommitAllFacts.

Variable game_id : Z.
Variable TH06 : Z.
Variable TH07 : Z.
Variable sizeof_sprite_spec06_t : Z.
Variable sizeof_sprite_spec07_t : Z.
Variable SpriteSpecs : Z.
Variable SpriteScripts : Z.

Local Abbreviation commit :=
  (commit_sprite game_id TH06 TH07 sizeof_sprite_spec06_t
     sizeof_sprite_spec07_t SpriteSpecs SpriteScripts).
Local Abbreviation c_group :=
  (commit_group game_id TH06 TH07 sizeof_sprite_spec06_t
     sizeof_sprite_spec07_t SpriteSpecs SpriteScripts).
Local Abbreviation c_groups :=
  (commit_groups game_id TH06 TH07 sizeof_sprite_spec06_t
     sizeof_sprite_spec07_t SpriteSpecs SpriteScripts).
Local Abbreviation c_singles :=
  (commit_singles game_id TH06 TH07 sizeof_sprite_spec06_t
     sizeof_sprite_spec07_t SpriteSpecs SpriteScripts).
Local Abbreviation commit_all :=
  (textimage_commit game_id TH06 TH07 sizeof_sprite_spec06_t
     sizeof_sprite_spec07_t SpriteSpecs SpriteScripts).

(* a commit changes the backup and is_ours, nothing else of the runtime *)
Lemma commit_sprite_same (sr sr' : sprite_runtime_t) (set : bool)
    (w w' : world) :
  commit sr set w = Done sr' w' ->
  same_sprite sr sr' /\ sr_is_ours sr' = set.
Proof.
  unfold commit_sprite. destruct set; intros H.
  - apply bind_inv in H. destruct H as (sr1 & w1 & Hb & H).
    assert (H1 : same_sprite sr sr1).
    { destruct (negb (sr_is_ours sr)).
      - apply bind_inv in Hb. destruct Hb as (bytes & w2 & _ & Hb).
        apply bind_inv in Hb. destruct Hb as (spec_game & w3 & _ & Hb).
        apply bind_inv in Hb. destruct Hb as (script_game & w4 & _ & Hb).
        apply Done_inj in Hb. destruct Hb as [<- _]. repeat split.
      - apply Done_inj in Hb. destruct Hb as [<- _]. apply same_sprite_refl. }
    apply bind_inv in H. destruct H as (ti & w2 & _ & H).
    apply bind_inv in H. destruct H as (specs & w3 & _ & H).
    apply bind_inv in H. destruct H as (our & w4 & _ & H).
    apply bind_inv in H. destruct H as ([] & w5 & _ & H).
    apply bind_inv in H. destruct H as ([] & w6 & _ & H).
    apply Done_inj in H. destruct H as [<- _].
    split; [| reflexivity].
    apply (same_sprite_trans _ _ _ H1). repeat split.
  - apply bind_inv in H. destruct H as ([] & w1 & _ & H).
    apply Done_inj in H. destruct H as [<- _].
    split; [| reflexivity]. repeat split.
Qed.

Lemma commit_group_spec (group : list Z) (set : bool) :
  forall m w m' w',
    c_group group set m w = Done m' w' ->
    (forall k, ~ In k group -> map_find m' k = map_find m k)
    /\ (forall k, In k group ->
          exists sr sr',
            map_find m k = Some sr /\ map_find m' k = Some sr'
            /\ same_sprite sr sr' /\ sr_is_ours sr' = set).
Proof.
  induction group as [|p rest IH]; intros m w m' w' H.
  - apply Done_inj in H. destruct H as [<- _].
    split; [reflexivity | intros k []].
  - cbn [commit_group] in H.
    apply bind_inv in H. destruct H as (sr & w1 & Hf & H).
    apply lift_inv in Hf. destruct Hf as [Hf ->].
    apply bind_inv in H. destruct H as (sr1 & w2 & Hc & H).
    apply commit_sprite_same in Hc. destruct Hc as [Hs1 Ho1].
    destruct (IH _ _ _ _ H) as [Hout Hin]. split.
    + intros k Hk. rewrite Hout by (intros Hr; apply Hk; right; exact Hr).
      apply map_find_set_other. intros ->. apply Hk. left. reflexivity.
    + intros k Hk.
      destruct (in_dec Z.eq_dec k rest) as [Hr | Hr].
      * destruct (Hin k Hr) as (a & b & Ha & Hb & Hab & Hob).
        destruct (Z.eq_dec k p) as [-> | Hne].
        -- rewrite (map_find_set_same m p sr sr1 Hf) in Ha.
           inversion Ha; subst a.
           exists sr, b. split; [exact Hf |]. split; [exact Hb |].
           split; [exact (same_sprite_trans _ _ _ Hs1 Hab) | exact Hob].
        -- rewrite map_find_set_other in Ha by exact Hne.
           exists a, b. auto.
      * destruct Hk as [<- | Hk]; [| contradiction].
        exists sr, sr1. split; [exact Hf |]. split; [| auto].
        rewrite Hout by exact Hr. apply (map_find_set_same m p sr sr1 Hf).
Qed.

Lemma group_complete_ext (m m' : runtime_map) (group : list Z) :
  (forall k, In k group -> map_find m' k = map_find m k) ->
  group_complete m' group = group_complete m group.
Proof.
  intros H. unfold group_complete.
  induction group as [|p rest IH]; [reflexivity |].
  cbn [forallb]. rewrite (H p) by (left; reflexivity).
  rewrite IH; [reflexivity |]. intros k Hk. apply H. right. exact Hk.
Qed.

Lemma commit_groups_spec (Groups : list (list Z)) :
  NoDup (List.concat Groups) ->
  forall m w m' w',
    c_groups Groups m w = Done m' w' ->
    (forall k, ~ In k (List.concat Groups) -> map_find m' k = map_find m k)
    /\ (forall group k, In group Groups -> In k group ->
          exists sr sr',
            map_find m k = Some sr /\ map_find m' k = Some sr'
            /\ same_sprite sr sr'
            /\ sr_is_ours sr' = group_complete m group).
Proof.
  induction Groups as [|g rest IH]; intros Hnd m w m' w' H.
  - apply Done_inj in H. destruct H as [<- _].
    split; [reflexivity | intros group k []].
  - cbn [commit_groups List.concat] in *.
    pose proof (NoDup_app_remove_l _ _ Hnd) as Hrest.
    pose proof (NoDup_app_apart _ _ Hnd) as Hdis.
    apply bind_inv in H. destruct H as (got & w1 & Hgot & H).
    apply lift_inv in Hgot. destruct Hgot as [Hgot ->].
    apply got_all_of_them_complete in Hgot. subst got.
    apply bind_inv in H. destruct H as (m1 & w2 & Hc & H).
    destruct (commit_group_spec _ _ _ _ _ _ Hc) as [Hout1 Hin1].
    destruct (IH Hrest _ _ _ _ H) as [Hout Hin]. split.
    + intros k Hk. rewrite Hout, Hout1; [reflexivity | |];
        intros Hr; apply Hk; apply in_or_app; auto.
    + intros group k [<- | Hgr] Hk.
      * destruct (Hin1 k Hk) as (sr & sr1 & Hf & Hf1 & Hs & Ho).
        exists sr, sr1. split; [exact Hf |]. split; [| auto].
        rewrite Hout; [exact Hf1 |]. intros Hr. exact (Hdis k Hk Hr).
      * assert (Hkr : In k (List.concat rest))
          by (apply in_concat; exists group; auto).
        assert (Hkg : ~ In k g) by (intros Hr; exact (Hdis k Hr Hkr)).
        destruct (Hin group k Hgr Hk) as (a & b & Ha & Hb & Hab & Hob).
        rewrite Hout1 in Ha by exact Hkg.
        exists a, b. split; [exact Ha |]. split; [exact Hb |].
        split; [exact Hab |].
        rewrite Hob. apply group_complete_ext.
        intros q Hq. apply Hout1. intros Hr.
        apply (Hdis q Hr). apply in_concat. exists group. auto.
Qed.

Lemma commit_singles_spec (entries : runtime_map) :
  forall w entries' w',
    c_singles entries w = Done entries' w' ->
    forall k sr,
      map_find entries k = Some sr ->
      if sr_in_group sr then map_find entries' k = Some sr
      else exists sr',
             map_find entries' k = Some sr'
             /\ same_sprite sr sr'
             /\ sr_is_ours sr' = would_be_replaced sr.
Proof.
  induction entries as [|[k0 sr0] rest IH]; intros w entries' w' H k sr Hf;
    [discriminate Hf |].
  cbn [commit_singles] in H.
  apply bind_inv in H. destruct H as (sr1 & w1 & Hc & H).
  apply bind_inv in H. destruct H as (rest' & w2 & Hr & H).
  apply Done_inj in H. destruct H as [<- _].
  cbn [map_find] in Hf |- *.
  destruct (k0 =? k).
  - inversion Hf; subst sr0. destruct (sr_in_group sr); cbn [negb] in Hc.
    + apply Done_inj in Hc. destruct Hc as [<- _]. reflexivity.
    + apply commit_sprite_same in Hc. destruct Hc as [Hs Ho].
      exists sr1. auto.
  - exact (IH _ _ _ Hr k sr Hf).
Qed.

(** X22.  Groups are shown all or nothing.  When textimage_commit
    returns, and no sprite is listed twice in the groups and every listed
    sprite is flagged in_group, each member of a group is ours exactly
    when every member of its group had a sprite to show; a sprite
    outside all groups that is not flagged is ours exactly when it had
    one itself. *)
Theorem textimage_commit_groups (Groups : list (list Z)) (m m' : runtime_map)
    (w w' : world) :
  commit_all Groups m w = Done m' w' ->
  NoDup (List.concat Groups) ->
  (forall p sr, In p (List.concat Groups) -> map_find m p = Some sr ->
                sr_in_group sr = true) ->
  (forall group p, In group Groups -> In p group ->
     exists sr', map_find m' p = Some sr'
                 /\ sr_is_ours sr' = group_complete m group)
  /\ (forall p sr, ~ In p (List.concat Groups) -> map_find m p = Some sr ->
        sr_in_group sr = false ->
        exists sr', map_find m' p = Some sr'
                    /\ sr_is_ours sr' = would_be_replaced sr).
Proof.
  intros H Hnd Hflag. unfold textimage_commit in H.
  apply bind_inv in H. destruct H as (m1 & w1 & Hg & Hs).
  destruct (commit_groups_spec Groups Hnd _ _ _ _ Hg) as [Hout Hin].
  pose proof (commit_singles_spec _ _ _ _ Hs) as Hsingle.
  split.
  - intros group p Hgr Hp.
    destruct (Hin group p Hgr Hp) as (sr & sr1 & Hf & Hf1 & Hsame & Ho).
    assert (Hfl : sr_in_group sr1 = true).
    { destruct Hsame as (_ & _ & _ & ->).
      apply (Hflag p sr); [| exact Hf].
      apply in_concat. exists group. auto. }
    specialize (Hsingle p sr1 Hf1). rewrite Hfl in Hsingle.
    exists sr1. auto.
  - intros p sr Hp Hf Hfl.
    rewrite <- (Hout p Hp) in Hf.
    specialize (Hsingle p sr Hf). rewrite Hfl in Hsingle.
    destruct Hsingle as (sr' & Hf' & _ & Ho). exists sr'. auto.
Qed.

End CommitAllFacts.

(** * Downloads *)

Section DownloadFacts.

Variable curl_easy_perform :
  string -> (list Z -> list Z -> Z * list Z) -> list Z -> Z * list Z.
Variable response_code : string -> Z.
Variable CURLE_OK : Z.

Local Abbreviation get := (download curl_easy_perform response_code CURLE_OK).
Local Abbreviation do_call :=
  (File_do curl_easy_perform response_code CURLE_OK).

(** X19.  What download leaves behind, by the status it finds: a file
    that is DONE or FAILED is reported as a success and not touched (a
    failed file is not tried again); a file that is TODO or DOWNLOADING
    ends up DONE with true returned, or FAILED with false returned and
    its data as before.  The name never changes. *)
Theorem download_outcome (this : File) (baseUrl : string) :
  file_name (snd (get this baseUrl)) = file_name this
  /\ match file_status this with
     | DONE | FAILED => get this baseUrl = (true, this)
     | TODO | DOWNLOADING =>
         (fst (get this baseUrl) = true
          /\ file_status (snd (get this baseUrl)) = DONE)
         \/ (fst (get this baseUrl) = false
             /\ file_status (snd (get this baseUrl)) = FAILED
             /\ file_data (snd (get this baseUrl)) = file_data this)
     end.
Proof.
  destruct this as [name status data].
  unfold download, setDownloading, compare_exchange_strong, setFailed.
  destruct status; cbn [file_status file_name file_data FileStatus_eqb negb
                        fst snd orb];
    try (split; reflexivity).
  - destruct (curl_easy_perform _ _ _) as [res local_data].
    destruct (res =? CURLE_OK); cbn [negb].
    + destruct (response_code _ =? 200); cbn [negb fst snd file_name
                                               file_status file_data
                                               FileStatus_eqb].
      * split; [reflexivity |]. left. split; reflexivity.
      * split; [reflexivity |]. right. repeat split; reflexivity.
    + cbn [fst snd file_name file_status file_data FileStatus_eqb].
      split; [reflexivity |]. right. repeat split; reflexivity.
  - destruct (curl_easy_perform _ _ _) as [res local_data].
    destruct (res =? CURLE_OK); cbn [negb].
    + destruct (response_code _ =? 200); cbn [negb fst snd file_name
                                               file_status file_data
                                               FileStatus_eqb].
      * split; [reflexivity |]. left. split; reflexivity.
      * split; [reflexivity |]. right. repeat split; reflexivity.
    + cbn [fst snd file_name file_status file_data FileStatus_eqb].
      split; [reflexivity |]. right. repeat split; reflexivity.
Qed.

Lemma File_do_done (this : File) (c : File_call) :
  file_status this = DONE -> do_call this c = this.
Proof.
  destruct this as [name status data]. cbn [file_status]. intros ->.
  destruct c; reflexivity.
Qed.

(** X20.  DONE is final: whatever setDownloading, setFailed and download
    calls follow, in any number and order, a file that is DONE keeps its
    status and its data; every further download of it returns true, and
    every write callback on it returns 0 and leaves local_data alone. *)
Theorem file_done_is_final (this : File) (calls : list File_call) :
  file_status this = DONE ->
  fold_left do_call calls this = this
  /\ (forall baseUrl, get this baseUrl = (true, this))
  /\ (forall local_data data,
        writeCallback this local_data data = (0, local_data)).
Proof.
  intros Hdone. split; [| split].
  - induction calls as [|c rest IH]; [reflexivity |].
    cbn [fold_left]. rewrite File_do_done by exact Hdone. exact IH.
  - intros baseUrl. destruct this as [name status data].
    cbn [file_status] in Hdone. subst status. reflexivity.
  - intros local_data data. unfold writeCallback. rewrite Hdone. reflexivity.
Qed.

End DownloadFacts.

(** * Repository list *)

(** X21.  find_repo_in_list returns the first repository with the given
    id among the entries before the null terminator, and null when there
    is none; what lies behind the terminator is never looked at. *)
Theorem find_repo_in_list_first (repos : list repo_t)
    (behind : list (option repo_t)) (id : string) :
  find_repo_in_list (map Some repos ++ None :: behind) id
  = Some (find (fun repo => String.eqb (repo_id repo) id) repos).
Proof.
  induction repos as [|repo rest IH]; [reflexivity |].
  cbn [map app find_repo_in_list find].
  destruct (String.eqb (repo_id repo) id); [reflexivity | exact IH].
Qed.
(** ** The further statements at concrete inputs *)

(* closed range and separation side conditions *)
Ltac by_range :=
  unfold fields_clear;
  repeat first [apply Forall_cons | apply Forall_nil | split];
  intros;
  unfold in_space, apart, CALL_LEN, ptr_size, SampleSite.cur, SampleSite.st0,
    Sample.desc, Sample.bp_entry_cave, Sample.bp_entry_local,
    Sample.bp_entry_call in *;
  cbn [bp_cavesize sourcecave_p callcave_p] in *;
  rewrite ?wrap_small by lia; lia.

Lemma buf_ready_st0 : buf_ready Sample.BINHACK_BUFSIZE_MIN SampleSite.st0.
Proof.
  split; [| reflexivity]. exists [0; 0; 0; 0]. split; reflexivity.
Defined.

Lemma breakpoints_apply_windows_witness :
  exists r w',
    Sample.apply Sample.VirtualAlloc_result (Some Sample.three) Sample.w0
    = Done r w'
    /\ patch_windows (w_events w') = [(0x401000, 6); (0x402000, 7)].
Proof.
  exact (breakpoints_apply_windows Sample.func_get Sample.VirtualCheckRegion
           Sample.VirtualAlloc_result Sample.bp_entry Sample.bp_entry_cave
           Sample.bp_entry_local Sample.bp_entry_call
           Sample.breakpoint_process_addr Sample.bp_ptr
           Sample.BINHACK_BUFSIZE_MIN 0x400000 Sample.three Sample.w0
           ltac:(by_eval) ltac:(by_eval) ltac:(by_eval) ltac:(by_eval)
           ltac:(by_eval) ltac:(by_eval) ltac:(by_eval) ltac:(by_eval)
           ltac:(by_eval)).
Defined.

Lemma render_slots_inside_witness :
  exists bps' lay st w2,
    layout_pass Sample.func_get Sample.VirtualCheckRegion 0x400000
      Sample.three Sample.w0
    = Done (bps', [16; 0; 16], lay) Sample.w0
    /\ render_pass Sample.bp_entry Sample.bp_entry_cave Sample.bp_entry_local
         Sample.bp_entry_call Sample.breakpoint_process_addr Sample.bp_ptr
         Sample.BINHACK_BUFSIZE_MIN 0x400000 bps' [16; 0; 16]
         0x10000000 0x20000000 Sample.w0
       = Done st w2
    /\ Forall (slot_inside 0x10000000 32 0x20000000 32 16) (rendered st).
Proof.
  destruct (render_slots_inside Sample.func_get Sample.VirtualCheckRegion
              Sample.bp_entry Sample.bp_entry_cave Sample.bp_entry_local
              Sample.bp_entry_call Sample.breakpoint_process_addr Sample.bp_ptr
              Sample.BINHACK_BUFSIZE_MIN 0x400000 Sample.three Sample.w0
              ltac:(by_eval) ltac:(by_eval))
    as (bps' & lay & E & H).
  destruct (H 0x10000000 0x20000000 Sample.w0
              ltac:(by_eval) ltac:(by_eval) ltac:(by_eval) ltac:(by_eval)
              ltac:(by_eval) ltac:(by_eval) ltac:(by_eval))
    as (st & w2 & E2 & Hin).
  exists bps', lay, st, w2. split; [exact E |]. split; [exact E2 | exact Hin].
Defined.

Lemma breakpoints_apply_result_bounds_witness :
  exists r w',
    Sample.apply Sample.VirtualAlloc_result (Some Sample.three) Sample.w0
    = Done r w'
    /\ 0 <= r <= 3.
Proof.
  destruct (breakpoints_apply_run Sample.func_get Sample.VirtualCheckRegion
              Sample.VirtualAlloc_result Sample.bp_entry Sample.bp_entry_cave
              Sample.bp_entry_local Sample.bp_entry_call
              Sample.breakpoint_process_addr Sample.bp_ptr
              Sample.BINHACK_BUFSIZE_MIN 0x400000 Sample.three Sample.w0
              ltac:(by_eval) ltac:(by_eval) ltac:(by_eval) ltac:(by_eval)
              ltac:(by_eval) ltac:(by_eval) ltac:(by_eval) ltac:(by_eval)
              ltac:(by_eval)) as [m' E].
  eexists _, _. split; [exact E |].
  exact (breakpoints_apply_result_bounds Sample.func_get
           Sample.VirtualCheckRegion Sample.VirtualAlloc_result Sample.bp_entry
           Sample.bp_entry_cave Sample.bp_entry_local Sample.bp_entry_call
           Sample.breakpoint_process_addr Sample.bp_ptr
           Sample.BINHACK_BUFSIZE_MIN 0x400000 Sample.three Sample.w0 _ _
           ltac:(by_eval) E).
Defined.

Lemma render_site_call_witness :
  exists st' w',
    SampleSite.render SampleSite.w_site = Done st' w'
    /\ load8 (w_mem w') 0x401000 = x86_CALL_NEAR_REL32
    /\ wrap (0x401000 + CALL_LEN + load32 (w_mem w') (0x401000 + 1))
       = 0x20000000
    /\ forall k, CALL_LEN <= k < 6 -> load8 (w_mem w') (0x401000 + k) = x86_NOP.
Proof.
  exact (render_site_call Sample.bp_entry Sample.bp_entry_cave
           Sample.bp_entry_local Sample.bp_entry_call
           Sample.breakpoint_process_addr Sample.bp_ptr
           Sample.BINHACK_BUFSIZE_MIN 0 SampleSite.cur 16 0x401000
           SampleSite.st0 SampleSite.w_site
           ltac:(by_eval) ltac:(by_eval) buf_ready_st0
           ltac:(by_eval) ltac:(by_eval) ltac:(by_eval)).
Defined.

Lemma render_site_jump_back_witness :
  exists st' w',
    SampleSite.render SampleSite.w_site = Done st' w'
    /\ load8 (w_mem w') (0x10000000 + 6) = x86_JMP_NEAR_REL32
    /\ wrap (0x10000000 + 6 + CALL_LEN + load32 (w_mem w') (0x10000000 + 6 + 1))
       = wrap (0x401000 + 6).
Proof.
  exact (render_site_jump_back Sample.bp_entry Sample.bp_entry_cave
           Sample.bp_entry_local Sample.bp_entry_call
           Sample.breakpoint_process_addr Sample.bp_ptr
           Sample.BINHACK_BUFSIZE_MIN 0 SampleSite.cur 16 0x401000
           SampleSite.st0 SampleSite.w_site
           ltac:(by_eval) ltac:(by_eval) buf_ready_st0
           ltac:(by_eval) ltac:(by_eval) ltac:(by_eval) ltac:(by_range)).
Defined.

(* the copied call at the head of the source cave still reaches
   0x401000 + 5 + 0x100, and the byte after it is the original one *)
Lemma render_site_keeps_code_witness :
  exists st' w',
    SampleSite.render SampleSite.w_site = Done st' w'
    /\ load8 (w_mem w') (0x10000000 + 5) = 0x55
    /\ wrap (0x10000000 + CALL_LEN + load32 (w_mem w') (0x10000000 + 1))
       = 0x401105.
Proof.
  destruct (render_site_keeps_code Sample.bp_entry Sample.bp_entry_cave
              Sample.bp_entry_local Sample.bp_entry_call
              Sample.breakpoint_process_addr Sample.bp_ptr
              Sample.BINHACK_BUFSIZE_MIN 0 SampleSite.cur 16 0x401000
              SampleSite.st0 SampleSite.w_site
              ltac:(by_eval) buf_ready_st0
              ltac:(by_eval) ltac:(by_eval) ltac:(by_eval)
              ltac:(by_range) ltac:(by_range) ltac:(by_range) ltac:(by_range))
    as (st' & w' & E & Hbytes & Hcall).
  exists st', w'. split; [exact E |]. split.
  - change (0x10000000 + 5) with (sourcecave_p SampleSite.st0 + 5).
    assert (H1 : 0 <= 5 < bp_cavesize SampleSite.cur) by by_eval.
    assert (H2 : CALL_LEN <= 5) by by_eval.
    rewrite (Hbytes 5 H1 (or_intror (or_introl H2))).
    vm_compute. reflexivity.
  - change 0x10000000 with (sourcecave_p SampleSite.st0).
    rewrite (Hcall ltac:(vm_compute; reflexivity)).
    vm_compute. reflexivity.
Defined.

Lemma render_site_stub_witness :
  exists st' w',
    SampleSite.render SampleSite.w_site = Done st' w'
    /\ load32 (w_mem w') (0x20000000 + 1) = 0x10000000
    /\ load32 (w_mem w') (0x20000000 + 6) = 0x600000
    /\ wrap (0x20000000 + 11 + ptr_size + load32 (w_mem w') (0x20000000 + 11))
       = 0x70001000.
Proof.
  exact (render_site_stub Sample.bp_entry Sample.bp_entry_cave
           Sample.bp_entry_local Sample.bp_entry_call
           Sample.breakpoint_process_addr Sample.bp_ptr
           Sample.BINHACK_BUFSIZE_MIN 0 SampleSite.cur 16 0x401000
           SampleSite.st0 SampleSite.w_site
           ltac:(by_eval) buf_ready_st0
           ltac:(by_eval) ltac:(by_eval) ltac:(by_eval)
           ltac:(by_range) ltac:(by_range) ltac:(by_range) ltac:(by_range)
           ltac:(by_range) ltac:(by_range) ltac:(by_range)).
Defined.

Lemma breakpoint_local_init_slot_witness :
  exists bp',
    breakpoint_local_init Sample.func_get (Sample.desc "three#1" 7 [0x402000])
      Sample.w0
    = Done (true, bp') Sample.w0
    /\ bp_func bp' = Sample.func_get "BP_three".
Proof.
  exact (breakpoint_local_init_slot Sample.func_get
           (Sample.desc "three#1" 7 [0x402000]) "three" "1" Sample.w0
           eq_refl eq_refl eq_refl).
Defined.

(* three characters after the '#': one more than the key buffer holds *)
Lemma breakpoint_local_init_codecave_witness :
  breakpoint_local_init Sample.func_get (Sample.desc "codecave:a#123" 5 [])
    Sample.w0
  = Fault Sample.w0.
Proof.
  apply (proj2 (proj1 (breakpoint_local_init_codecave Sample.func_get
                         (Sample.desc "codecave:a#123" 5 []) Sample.w0
                         eq_refl))).
  exists 10%nat. split; [reflexivity | vm_compute; lia].
Defined.

Lemma callcave_fill_copies_witness :
  exists m',
    callcave_fill_loop Sample.bp_entry 2 0x20000000 (0x20000000 + 2 * 16)
      Sample.w0
    = Done tt (mk_world m' [])
    /\ load8 m' (0x20000000 + 1 * 16 + 10) = x86_CALL_NEAR_REL32.
Proof.
  destruct (callcave_fill_copies Sample.bp_entry 2 0x20000000 Sample.w0
              ltac:(by_eval) ltac:(by_eval) ltac:(by_eval))
    as (m' & E & Hslots & _).
  exists m'. split; [exact E |].
  exact (Hslots 1 10 ltac:(by_eval) ltac:(by_eval)).
Defined.

(* the second pass on what the first pass returns for the three
   descriptions *)
Lemma render_pass_keeps_memory_witness :
  match layout_pass Sample.func_get Sample.VirtualCheckRegion 0x400000
          Sample.three Sample.w0 with
  | Done (bps', sizes, _) _ =>
      exists st w',
        render_pass Sample.bp_entry Sample.bp_entry_cave Sample.bp_entry_local
          Sample.bp_entry_call Sample.breakpoint_process_addr Sample.bp_ptr
          Sample.BINHACK_BUFSIZE_MIN 0x400000 bps' sizes 0x10000000 0x20000000
          Sample.w0
        = Done st w'
        /\ rendered st
           = plan Sample.func_get Sample.VirtualCheckRegion Sample.bp_entry 0
               Sample.three 0x10000000 0x20000000
        /\ same_outside
             [(0x10000000, 32); (0x20000000, 32); (0x401000, 6); (0x402000, 7)]
             Sample.mem0 (w_mem w')
  | _ => False
  end.
Proof.
  destruct (layout_pass Sample.func_get Sample.VirtualCheckRegion 0x400000
              Sample.three Sample.w0)
    as [[[bps' sizes] lay] w1 | w1 | w1] eqn:E.
  - exact (render_pass_keeps_memory Sample.func_get Sample.VirtualCheckRegion
             Sample.bp_entry Sample.bp_entry_cave Sample.bp_entry_local
             Sample.bp_entry_call Sample.breakpoint_process_addr Sample.bp_ptr
             Sample.BINHACK_BUFSIZE_MIN 0x400000 Sample.three bps' sizes lay
             Sample.w0 w1 Sample.w0 0x10000000 0x20000000 E
             ltac:(by_eval) ltac:(by_eval) ltac:(by_eval) ltac:(by_eval)
             ltac:(by_eval) ltac:(by_eval) ltac:(by_eval) ltac:(by_eval)
             ltac:(by_eval) ltac:(by_eval)).
  - vm_compute in E. discriminate E.
  - vm_compute in E. discriminate E.
Defined.

Lemma format_from_bgra_argb4444_witness :
  format_from_bgra SampleData.FORMAT_ARGB4444 SampleData.FORMAT_RGB565
    SampleData.two_pixels 2 SampleData.FORMAT_ARGB4444
  = Some [0x31; 0x75; 0xB9; 0xFD; 0x9A; 0xBC; 0xDE; 0xF0].
Proof.
  exact (format_from_bgra_argb4444 SampleData.FORMAT_ARGB4444
           SampleData.FORMAT_RGB565 SampleData.two_pixels 2
           ltac:(by_eval) ltac:(by_eval)).
Defined.

Lemma format_from_bgra_rgb565_witness :
  format_from_bgra SampleData.FORMAT_ARGB4444 SampleData.FORMAT_RGB565
    SampleData.two_pixels 2 SampleData.FORMAT_RGB565
  = Some [0xA2; 0x51; 0xF3; 0xDD; 0x9A; 0xBC; 0xDE; 0xF0].
Proof.
  exact (format_from_bgra_rgb565 SampleData.FORMAT_ARGB4444
           SampleData.FORMAT_RGB565 SampleData.two_pixels 2
           ltac:(by_eval) ltac:(by_eval) ltac:(by_eval)).
Defined.

(* the texture at (1, 1) of the image takes the last pixel; the texture
   of the image's dimensions takes thtx_size = 2 bytes and no more *)
Lemma patch_thtx_rows_witness :
  (exists data',
     patch_thtx SampleData.bpp2 (Some SampleData.texture) 1 1
       (Some SampleData.image)
     = Some (0, Some {| thtx_format := SampleData.FORMAT_RGB565; thtx_w := 1;
                        thtx_h := 1; thtx_size := 2; thtx_data := data' |})
     /\ byte_at data' 0 = 7 /\ byte_at data' 1 = 8)
  /\ (exists data',
        patch_thtx SampleData.bpp2 (Some SampleData.texture_whole) 0 0
          (Some SampleData.image)
        = Some (0, Some {| thtx_format := SampleData.FORMAT_RGB565;
                           thtx_w := 2; thtx_h := 2; thtx_size := 2;
                           thtx_data := data' |})
        /\ byte_at data' 1 = 2 /\ byte_at data' 2 = 0).
Proof.
  split.
  - destruct (proj2 (patch_thtx_rows SampleData.bpp2 SampleData.texture
                       SampleData.image [1; 2; 3; 4; 5; 6; 7; 8] 1 1
                       eq_refl ltac:(by_eval) ltac:(by_eval) ltac:(by_eval)
                       ltac:(by_eval))
                eq_refl ltac:(by_eval) ltac:(by_eval)
                ltac:(by_eval) ltac:(by_eval) ltac:(by_eval) ltac:(by_eval))
      as (data' & E & _ & C & _).
    exists data'. split; [exact E |].
    assert (Hr : 0 <= 0 < Z.min (thtx_h SampleData.texture)
                            (img_height SampleData.image - 1)) by by_eval.
    assert (H0 : 0 <= 0 < thtx_w SampleData.texture
                          * SampleData.bpp2 (thtx_format SampleData.texture))
      by by_eval.
    assert (H1 : 0 <= 1 < thtx_w SampleData.texture
                          * SampleData.bpp2 (thtx_format SampleData.texture))
      by by_eval.
    split; [exact (C 0 0 Hr H0) | exact (C 0 1 Hr H1)].
  - destruct (proj1 (patch_thtx_rows SampleData.bpp2 SampleData.texture_whole
                       SampleData.image [1; 2; 3; 4; 5; 6; 7; 8] 0 0
                       eq_refl ltac:(by_eval) ltac:(by_eval) ltac:(by_eval)
                       ltac:(by_eval))
                eq_refl ltac:(by_eval) ltac:(by_eval))
      as (data' & E & _ & C & F).
    exists data'. split; [exact E |].
    assert (H1 : 0 <= 1 < thtx_size SampleData.texture_whole) by by_eval.
    assert (H2 : thtx_size SampleData.texture_whole <= 2) by by_eval.
    split; [exact (C 1 H1) | exact (F 2 H2)].
Defined.

(* esp of the register snapshot, read as a 16-bit field into 4 bytes *)
Lemma struct_get_field_witness :
  exists m',
    struct_get SampleData.hex_value 0x3000 4 Sample.regs (Some SampleData.field)
      SampleData.w_regs
    = Done 0 (mk_world m' [])
    /\ load8 m' (0x3000 + 1) = 0x20
    /\ load8 m' (0x3000 + 2) = 0.
Proof.
  destruct (struct_get_field SampleData.hex_value 0x3000 4 Sample.regs
              SampleData.field SampleData.w_regs
              ltac:(by_eval) ltac:(by_eval) ltac:(by_eval) ltac:(by_eval)
              ltac:(by_eval) ltac:(by_eval) ltac:(by_eval)
              ltac:(right; by_eval))
    as (m' & E & Hcopy & Hzero & _).
  exists m'. split; [exact E |]. split.
  - rewrite (Hcopy 1 ltac:(by_eval)). vm_compute. reflexivity.
  - exact (Hzero 2 ltac:(by_eval)).
Defined.

Lemma images_put_unique_witness :
  NoDup (map ti_fn (images_put SampleData.images (SampleData.img "b.png" 0x6000)))
  /\ (exists i, image_get (images_put SampleData.images
                             (SampleData.img "b.png" 0x6000)) "b.png"
                = Some (i, SampleData.img "b.png" 0x6000))
  /\ (forall fn, fn <> "b.png"%string ->
        image_get (images_put SampleData.images (SampleData.img "b.png" 0x6000)) fn
        = image_get SampleData.images fn).
Proof.
  apply (images_put_unique SampleData.images (SampleData.img "b.png" 0x6000)).
  repeat constructor; simpl; intros H;
    repeat (destruct H as [H | H]; try discriminate H); exact H.
Defined.

Lemma image_foreach_on_top_filter_witness :
  image_foreach_on_top 3 SampleData.images
  = Some [SampleData.img "b.png" 0].
Proof.
  exact (image_foreach_on_top_filter SampleData.images 3
           ltac:(by_eval) ltac:(simpl; lia)).
Defined.

(* set, set again, unset in TH06; in TH07, with specs of 16 bytes against
   the union of 8, the first set *)
Lemma commit_sprite_restores_witness :
  (exists sr' w',
     SampleData.commits ([true; true] ++ [false]) SampleData.w_regs = Done sr' w'
     /\ sr_is_ours sr' = false
     /\ w_events w' = []
     /\ forall x, load8 (w_mem w') x = load8 Sample.mem_regs x)
  /\ SampleData.commits07 [true; false] SampleData.w_regs
     = Fault SampleData.w_regs.
Proof.
  split.
  - exact (proj1 (commit_sprite_restores SampleData.TH06 SampleData.TH06
                    SampleData.TH07 8 12 SampleData.SpriteSpecs
                    SampleData.SpriteScripts SampleData.sprite
                    SampleData.w_regs
                    eq_refl eq_refl ltac:(by_eval) ltac:(by_eval))
             ltac:(by_eval) (SampleData.img "b.png" 0)
             [1; 2; 3; 4; 5; 6; 7; 8] eq_refl eq_refl ltac:(by_eval)
             ltac:(by_eval) ltac:(left; by_eval) [true; true]).
  - exact (proj2 (commit_sprite_restores SampleData.TH07 SampleData.TH06
                    SampleData.TH07 8 16 SampleData.SpriteSpecs
                    SampleData.SpriteScripts SampleData.sprite
                    SampleData.w_regs
                    eq_refl eq_refl ltac:(by_eval) ltac:(by_eval))
             ltac:(by_eval) [false]).
Defined.

(* the group stays off for want of its second sprite; the single sprite
   goes on *)
Lemma textimage_commit_groups_witness :
  exists m' w',
    SampleData.commit_all SampleData.w_regs = Done m' w'
    /\ (exists sr', map_find m' 0x100 = Some sr' /\ sr_is_ours sr' = false)
    /\ (exists sr', map_find m' 0x300 = Some sr' /\ sr_is_ours sr' = true).
Proof.
  assert (Hnd : NoDup (List.concat SampleData.Groups)).
  { cbn. apply NoDup_cons; [intros [H | []]; discriminate H |].
    apply NoDup_cons; [intros [] | apply NoDup_nil]. }
  assert (Hflag : forall p sr,
             In p (List.concat SampleData.Groups) ->
             map_find SampleData.runtime p = Some sr ->
             sr_in_group sr = true).
  { intros p sr [<- | [<- | []]] H; cbn in H; inversion H; reflexivity. }
  assert (Hout : ~ In 0x300 (List.concat SampleData.Groups)).
  { intros [H | [H | []]]; discriminate H. }
  destruct (SampleData.commit_all SampleData.w_regs) as [m' w' | w' | w'] eqn:E.
  - exists m', w'. split; [reflexivity |].
    destruct (textimage_commit_groups SampleData.TH06 SampleData.TH06
                SampleData.TH07 8 12 SampleData.SpriteSpecs
                SampleData.SpriteScripts SampleData.Groups SampleData.runtime
                m' SampleData.w_regs w' E Hnd Hflag) as [Hgroup Hsingle].
    split.
    + exact (Hgroup [0x100; 0x200] 0x100 (or_introl eq_refl)
               (or_introl eq_refl)).
    + exact (Hsingle 0x300 _ Hout eq_refl eq_refl).
  - vm_compute in E. discriminate E.
  - vm_compute in E. discriminate E.
Defined.

Lemma file_done_is_final_witness :
  fold_left (File_do SampleData.perform SampleData.code 0)
    [call_download "https://srv.thpatch.net/"; call_setFailed;
     call_setDownloading] SampleData.finished
  = SampleData.finished.
Proof.
  apply (file_done_is_final SampleData.perform SampleData.code 0
           SampleData.finished
           [call_download "https://srv.thpatch.net/"; call_setFailed;
            call_setDownloading] eq_refl).
Defined.
